(** * OrderedBitField: layout planner, packed storage and field accessors

    A shallow embedding of [include/OrderedBitField/OrderedBitField.hpp]
    (class template [BitField], its nested [FieldProxy] and
    [Util::CharArray]) together with the properties stated about it and
    further properties of the code.

    Conventions.
    - C++ integers are mathematical integers [Z] together with the
      [IntType] they have in the source; every conversion and every
      wrap-around is written out with [wrap].
    - An [IntType] is an integer type other than [bool]; a base type
      that is an enum stands for its underlying type.  [bool], which the
      header admits as a base type as well, converts differently and is
      written out apart, in [BoolBase]; what is stated for a base type
      [BaseT : IntType] is not stated for [bool].
    - Widths are values of [std::size_t] and the layout cursor is
      computed in [std::size_t]; [fits] says that it never wraps around,
      and the properties that need it carry it as a hypothesis.
    - Integer semantics are those of C++20 on a platform with an 8-bit
      byte, a 32-bit [int] and a 64-bit [std::size_t]: conversions and
      left shifts are modular, [>>] on a signed operand is arithmetic,
      operands narrower than [int] are promoted to [int].
    - Undefined behaviour (shift count out of range, signed overflow of
      [+ - *], division by zero, indexing past the end of [std::array])
      and failed [static_assert]s are explicit results, see [result]. *)

From Stdlib Require Import ZArith Lia Bool List.
From stdpp Require Import base numbers list.

#[local] Open Scope Z_scope.

(** ** Outcomes *)

(** The [static_assert]s of the header that matter for the accessors. *)
Inductive assertion : Set :=
| SizeZeroMember      (* "cannot access member of size zero" *)
| ReadOnlyMember      (* "assignment of read-only memeber is not allowed" *)
| OversizedField      (* "no bit field larger than base type is allowed as in C language" *)
| FieldNotFound.      (* "field not found" *)

Inductive failure : Set :=
| Rejected (a : assertion)   (* the instantiation does not compile *)
| UB.                        (* undefined behaviour *)

Inductive result (A : Type) : Type :=
| Ok (a : A)
| Fail (e : failure).

Arguments Ok {A} a.
Arguments Fail {A} e.

Definition bind {A B : Type} (r : result A) (k : A -> result B) : result B :=
  match r with
  | Ok a => k a
  | Fail e => Fail e
  end.

Notation "'let*' x := r 'in' k" := (bind r (fun x => k))
  (at level 10, x name, r at level 100, k at level 200).

Definition is_Ok {A : Type} (r : result A) : bool :=
  match r with Ok _ => true | Fail _ => false end.

(** ** C++ integer types and operators *)

Module Cxx.

(** An integer type other than [bool]: its width in bits and its
    signedness.  ([bool] is integral too, but conversion to it is not
    modular, see [BoolBase].) *)
Record IntType : Set := mkIntType { bits : Z; is_signed : bool }.

Definition uint8_t  := mkIntType 8 false.
Definition int8_t   := mkIntType 8 true.
Definition uint16_t := mkIntType 16 false.
Definition int16_t  := mkIntType 16 true.
Definition uint32_t := mkIntType 32 false.
Definition int32_t  := mkIntType 32 true.
Definition uint64_t := mkIntType 64 false.
Definition int64_t  := mkIntType 64 true.
Definition int      := int32_t.
Definition size_t   := uint64_t.

(** [std::numeric_limits<T>::min()] and [max()]. *)
Definition min_val (T : IntType) : Z :=
  if is_signed T then - 2 ^ (bits T - 1) else 0.
Definition max_val (T : IntType) : Z :=
  if is_signed T then 2 ^ (bits T - 1) - 1 else 2 ^ bits T - 1.

Definition in_range (T : IntType) (z : Z) : bool :=
  (min_val T <=? z) && (z <=? max_val T).

(** [static_cast<T>(z)] for an integer type [T] other than [bool]: the
    value of type [T] congruent to [z] modulo [2 ^ bits T]. *)
Definition wrap (T : IntType) (z : Z) : Z :=
  let m := z mod 2 ^ bits T in
  if is_signed T && (2 ^ (bits T - 1) <=? m) then m - 2 ^ bits T else m.

(** Integral promotion. *)
Definition promote (T : IntType) : IntType :=
  if bits T <? bits int then int else T.

(** Usual arithmetic conversions, on promoted operand types. *)
Definition common (P Q : IntType) : IntType :=
  if bits P =? bits Q then mkIntType (bits P) (is_signed P && is_signed Q)
  else if bits P <? bits Q then Q else P.

(** Result of [+ - * /] in type [P]: modular for unsigned [P],
    undefined on overflow for signed [P]. *)
Definition arith (P : IntType) (z : Z) : result Z :=
  if is_signed P then (if in_range P z then Ok z else Fail UB)
  else Ok (wrap P z).

Definition add (P : IntType) (a b : Z) : result Z := arith P (a + b).
Definition sub (P : IntType) (a b : Z) : result Z := arith P (a - b).
Definition mul (P : IntType) (a b : Z) : result Z := arith P (a * b).
Definition div (P : IntType) (a b : Z) : result Z :=
  if b =? 0 then Fail UB else arith P (Z.quot a b).
Definition rem (P : IntType) (a b : Z) : result Z :=
  if b =? 0 then Fail UB
  else if in_range P (Z.quot a b) then Ok (Z.rem a b) else Fail UB.

Definition and (P : IntType) (a b : Z) : Z := wrap P (Z.land a b).
Definition or  (P : IntType) (a b : Z) : Z := wrap P (Z.lor a b).
Definition xor (P : IntType) (a b : Z) : Z := wrap P (Z.lxor a b).
Definition not (P : IntType) (a : Z) : Z := wrap P (Z.lnot a).

(** [a << s] and [a >> s] with [a] of (promoted) type [P]. *)
Definition shl (P : IntType) (a s : Z) : result Z :=
  if (0 <=? s) && (s <? bits P) then Ok (wrap P (Z.shiftl a s)) else Fail UB.
Definition shr (P : IntType) (a s : Z) : result Z :=
  if (0 <=? s) && (s <? bits P) then Ok (Z.shiftr a s) else Fail UB.

(** [std::size_t] arithmetic. *)
Definition sz (z : Z) : Z := z mod 2 ^ bits size_t.

End Cxx.

Import Cxx.

(** ** Field descriptors *)

(** [Field<T, W, D, F>]; tags are enumerators (or names), kept as numbers. *)
Record Field : Set := mkField {
  Tag : Z;
  Width : Z;
  DefaultValue : Z;
  Fixed : bool
}.

Definition ConstField (T W D : Z) : Field := mkField T W D true.

(** [Padding<EnumT, W>]: the tag is the largest value of the tag type. *)
Definition Padding (tag_max W : Z) : Field := mkField tag_max W 0 true.

(** ** The layout planner *)

Section Layout.

(** [U] is [FieldTypeBits]. *)
Variable U : Z.

Definition toSkipToNextUnit (BeginBit W : Z) : bool :=
  negb (BeginBit / U =? sz (sz (BeginBit + W) - 1) / U).

Definition nextUnit (BeginBit : Z) : Z :=
  sz (sz (sz (BeginBit + U) - 1) / U * U).

(** One iteration of the loop: the recorded [B[I]] and the new cursor. *)
Definition place (BeginBit W : Z) : Z * Z :=
  let BeginBit1 := if toSkipToNextUnit BeginBit W then nextUnit BeginBit
                   else BeginBit in
  let BeginBit2 := if W =? 0 then nextUnit BeginBit1
                   else sz (BeginBit1 + W) in
  (BeginBit1, BeginBit2).

(** The loop over [I]; returns [B[0..NFields)] and the final cursor. *)
Fixpoint FieldBegin_loop (Ws : list Z) (BeginBit : Z) : list Z * Z :=
  match Ws with
  | [] => ([], BeginBit)
  | W :: Ws' =>
      let '(B, BeginBit') := place BeginBit W in
      let '(Bs, End) := FieldBegin_loop Ws' BeginBit' in
      (B :: Bs, End)
  end.

(** The array of [NFields + 1] entries. *)
Definition FieldBegin (Ws : list Z) : list Z :=
  let '(Bs, End) := FieldBegin_loop Ws 0 in Bs ++ [End].

Definition dataSize (Ws : list Z) : Z :=
  sz (sz (sz (snd (FieldBegin_loop Ws 0) + U) - 1) / U).

(** The value of [BeginBit] when the loop reaches index [i]. *)
Definition cursor (Ws : list Z) (i : nat) : Z :=
  snd (FieldBegin_loop (take i Ws) 0).

(** Room needed by a descriptor list: every width plus, per descriptor,
    at most one unit of alignment padding. *)
Definition span (Ws : list Z) : Z := foldr (fun W acc => W + U + acc) 0 Ws.

(** The cursor never leaves [std::size_t]: widths are values of
    [std::size_t] and the layout ends below [2 ^ 64]. *)
Definition fits (c : Z) (Ws : list Z) : Prop :=
  0 <= c /\ Forall (fun W => 0 <= W) Ws /\ c + span Ws + U <= 2 ^ 64.

(** Smallest multiple of [U] that is not below [c]. *)
Definition up (c : Z) : Z := (c + U - 1) / U * U.

End Layout.

Arguments place : simpl never.
Arguments nextUnit : simpl never.
Arguments toSkipToNextUnit : simpl never.

(** [Mask]: the inner loop over [J] for one field.  [n] iterations remain,
    [Sh] is the bit position (the local [S]), [M] the mask built so far.  The literal [1]
    is an [int], so [1 << S] is an [int] shift. *)
Fixpoint Mask_loop (UT : IntType) (n : nat) (Sh M : Z) : result Z :=
  match n with
  | O => Ok M
  | S n' =>
      let* b := shl int 1 Sh in
      Mask_loop UT n' (sz (Sh + 1))
                (wrap UT (or (promote UT) M (wrap UT b)))
  end.

(** [std::min(Width[I], FieldTypeBits)] iterations starting at
    [FieldBegin[I] % FieldTypeBits]. *)
Definition Mask1 (UT : IntType) (Begin W : Z) : result Z :=
  Mask_loop UT (Z.to_nat (Z.min W (bits UT))) (Begin mod bits UT) 0.

Fixpoint map_result {A B : Type} (f : A -> result B) (l : list A)
  : result (list B) :=
  match l with
  | [] => Ok []
  | a :: l' => let* b := f a in let* bs := map_result f l' in Ok (b :: bs)
  end.

(** ** The field accessor [FieldProxy<FieldT, Shift, Mask>] *)

Module FieldProxy.
Section FieldProxy.

(** [FieldType] (through its underlying type), whether [FieldT] is
    const-qualified, and the non-type template arguments. *)
Variable UT : IntType.
Variable is_const : bool.
Variable Shift : Z.
Variable Mask : Z.

(** The type in which expressions on [UnderlyingType] operands are
    evaluated. *)
Definition PT : IntType := promote UT.

(** [static_assert(static_cast<UnderlyingType>(Mask) > 0, ...)] *)
Definition instantiate : result unit :=
  if 0 <? wrap UT Mask then Ok tt else Fail (Rejected SizeZeroMember).

(** The [constexpr] lambda that computes [MaskMsbOffset]. *)
Fixpoint MaskMsbOffset_loop (n : nat) (Offset : Z) : result Z :=
  match n with
  | O => Ok 0
  | S n' =>
      let* b := shl int 1 (sz (sz (bits UT - Offset) - 1)) in
      let M := wrap UT b in
      if negb (and PT (wrap UT Mask) M =? 0) then Ok Offset
      else MaskMsbOffset_loop n' (sz (Offset + 1))
  end.

Definition MaskMsbOffset : result Z :=
  MaskMsbOffset_loop (Z.to_nat (bits UT)) 0.

(** [operator FieldType() const] applied to the referenced unit. *)
Definition read (Field : Z) : result Z :=
  if negb (is_signed UT) then
    let* r := shr PT (and PT (wrap UT Field) (wrap UT Mask)) Shift in
    Ok (wrap UT r)
  else
    let* Off := MaskMsbOffset in
    let* l := shl PT (and PT (wrap UT Field) (wrap UT Mask)) Off in
    let* r := shr PT l (sz (Shift + Off)) in
    Ok (wrap UT r).

(** The [static_assert(!std::is_const_v<FieldT>, ...)] of every
    modifying operator. *)
Definition writable : result unit :=
  if is_const then Fail (Rejected ReadOnlyMember) else Ok tt.

(** [(Field & ~Mask) | (X & Mask)] converted back to [FieldType], for
    [X] of type [XT]. *)
Definition store (Field : Z) (XT : IntType) (X : Z) : Z :=
  let keep := and PT (wrap UT Field) (not PT (wrap UT Mask)) in
  let CT := common XT PT in
  let put := and CT (wrap CT X) (wrap CT (wrap UT Mask)) in
  let RT := common PT CT in
  wrap UT (or RT (wrap RT keep) (wrap RT put)).

(** [operator=] *)
Definition assign (Field Rhs : Z) : result Z :=
  let* _ := writable in
  let* X := shl PT (wrap UT Rhs) Shift in
  Ok (store Field PT X).

(** [operator+=], [-=], [*=], [/=], [%=] with a right operand of type
    [RhsT]. *)
Inductive arith_op : Set := Add | Sub | Mul | Div | Rem.

Definition apply_arith (o : arith_op) (CT : IntType) (a b : Z) : result Z :=
  match o with
  | Add => add CT a b
  | Sub => sub CT a b
  | Mul => mul CT a b
  | Div => div CT a b
  | Rem => rem CT a b
  end.

Definition arith_assign (o : arith_op) (RhsT : IntType) (Field Rhs : Z)
  : result Z :=
  let* _ := writable in
  let* v := read Field in
  let CT := common PT (promote RhsT) in
  let* r := apply_arith o CT (wrap CT v) (wrap CT Rhs) in
  let* X := shl CT r Shift in
  Ok (store Field CT X).

(** [operator&=] *)
Definition and_assign (Field Rhs : Z) : result Z :=
  let* _ := writable in
  let* X := shl PT (wrap UT Rhs) Shift in
  Ok (wrap UT (and PT (wrap UT Field) (or PT X (not PT (wrap UT Mask))))).

(** [operator|=] *)
Definition or_assign (Field Rhs : Z) : result Z :=
  let* _ := writable in
  let* X := shl PT (wrap UT Rhs) Shift in
  Ok (wrap UT (or PT (wrap UT Field) (and PT X (wrap UT Mask)))).

(** [operator^=] *)
Definition xor_assign (Field Rhs : Z) : result Z :=
  let* _ := writable in
  let* X := shl PT (wrap UT Rhs) Shift in
  Ok (wrap UT (or PT (and PT (wrap UT Field) (not PT (wrap UT Mask)))
                     (and PT (xor PT (wrap UT Field) X) (wrap UT Mask)))).

(** [operator<<=] *)
Definition shl_assign (Field Rhs : Z) : result Z :=
  let* _ := writable in
  let* X := shl PT (and PT (wrap UT Field) (wrap UT Mask)) Rhs in
  Ok (store Field PT X).

(** [operator>>=] *)
Definition shr_assign (Field Rhs : Z) : result Z :=
  let* _ := writable in
  if negb (is_signed UT) then
    let* X := shr PT (and PT (wrap UT Field) (wrap UT Mask)) Rhs in
    Ok (store Field PT X)
  else
    let* v := read Field in
    let* l := shl PT v Shift in
    let* X := shr PT l Rhs in
    Ok (store Field PT X).

(** [operator++()] and [operator--()]: [*this += 1], [*this -= 1] with
    the [int] literal [1]. *)
Definition pre_increment (Field : Z) : result Z :=
  arith_assign Add int Field 1.
Definition pre_decrement (Field : Z) : result Z :=
  arith_assign Sub int Field 1.

(** [operator++(int)] and [operator--(int)]: the value before and the
    unit after. *)
Definition post_increment (Field : Z) : result (Z * Z) :=
  let* _ := writable in
  let* rv := read Field in
  let* Field' := pre_increment Field in
  Ok (rv, Field').
Definition post_decrement (Field : Z) : result (Z * Z) :=
  let* _ := writable in
  let* rv := read Field in
  let* Field' := pre_decrement Field in
  Ok (rv, Field').

(** The modifying operators of the proxy with their operands. *)
Inductive modifier : Set :=
| Assign (Rhs : Z)
| ArithAssign (o : arith_op) (RhsT : IntType) (Rhs : Z)
| AndAssign (Rhs : Z)
| OrAssign (Rhs : Z)
| XorAssign (Rhs : Z)
| ShlAssign (Rhs : Z)
| ShrAssign (Rhs : Z)
| PreIncrement
| PreDecrement
| PostIncrement
| PostDecrement.

Definition apply (m : modifier) (Field : Z) : result Z :=
  match m with
  | Assign Rhs => assign Field Rhs
  | ArithAssign o RhsT Rhs => arith_assign o RhsT Field Rhs
  | AndAssign Rhs => and_assign Field Rhs
  | OrAssign Rhs => or_assign Field Rhs
  | XorAssign Rhs => xor_assign Field Rhs
  | ShlAssign Rhs => shl_assign Field Rhs
  | ShrAssign Rhs => shr_assign Field Rhs
  | PreIncrement => pre_increment Field
  | PreDecrement => pre_decrement Field
  | PostIncrement => let* r := post_increment Field in Ok (snd r)
  | PostDecrement => let* r := post_decrement Field in Ok (snd r)
  end.

End FieldProxy.
End FieldProxy.

(** ** The class template [BitField<BaseT, FirstField, Fields...>] *)

(** A [FieldProxy] object: the template arguments of its type and the
    storage unit its reference member [Field] is bound to. *)
Record proxy : Set := mkProxy {
  p_const : bool;
  p_Shift : Z;
  p_Mask : Z;
  p_unit : nat
}.

Fixpoint fold_result {A B : Type} (f : A -> B -> result A) (l : list B) (a : A)
  : result A :=
  match l with
  | [] => Ok a
  | b :: l' => let* a' := f a b in fold_result f l' a'
  end.

Section BitField.

(** [ORDERED_BIT_FIELD_DISALLOW_OVERSIZED_FIELD] *)
Variable disallow_oversized : bool.

(** Template arguments; [BaseT] stands for its underlying integer type. *)
Variable BaseT : IntType.
Variable FirstField : Field.
Variable Fields : list Field.

Definition all_fields : list Field := FirstField :: Fields.

Definition FieldTypeBits : Z := bits BaseT.

Definition oversized_check : result unit :=
  if disallow_oversized
     && negb (forallb (fun f => Width f <=? FieldTypeBits) all_fields)
  then Fail (Rejected OversizedField) else Ok tt.

Definition NFields : nat := length all_fields.

Definition WidthArr : list Z := map Width all_fields.
Definition TagArr : list Z := map Tag all_fields.
Definition FieldFixed : list bool := map Fixed all_fields.

(** [static_cast<FieldType>(Fields::DefaultValue)...] *)
Definition DefaultValueArr : list Z :=
  map (fun f => wrap BaseT (DefaultValue f)) all_fields.

Definition FieldBeginArr : list Z := FieldBegin FieldTypeBits WidthArr.

Definition MaskArr : result (list Z) :=
  map_result (fun I => Mask1 BaseT (FieldBeginArr !!! I) (WidthArr !!! I))
             (seq 0 NFields).

Definition storage_size : Z := dataSize FieldTypeBits WidthArr.

(** The default member initialiser of [Data]: one iteration for [I]. *)
Definition Data_step (Ms : list Z) (F : list Z) (I : nat)
  : result (list Z) :=
  let PT := promote BaseT in
  let ix := Z.to_nat ((FieldBeginArr !!! I) / FieldTypeBits) in
  let M := wrap BaseT (Ms !!! I) in
  match F !! ix with
  | None => Fail UB
  | Some unit =>
      let* X := shl PT (wrap BaseT (DefaultValueArr !!! I))
                       ((FieldBeginArr !!! I) mod FieldTypeBits) in
      Ok (<[ix := wrap BaseT (or PT (and PT (wrap BaseT unit) (not PT M))
                                    (and PT X M))]> F)
  end.

Definition Data : result (list Z) :=
  let* _ := oversized_check in
  let* Ms := MaskArr in
  fold_result (Data_step Ms) (seq 0 NFields)
              (replicate (Z.to_nat storage_size) 0).

(** [index<Query>()]: position of the first field tagged [Query]. *)
Fixpoint index_loop (Query : Z) (Tags : list Z) (I : nat) : nat :=
  match Tags with
  | [] => I
  | T :: Tags' => if Query =? T then I else index_loop Query Tags' (S I)
  end.

Definition index (Query : Z) : result nat :=
  let Index := index_loop Query TagArr 0 in
  if (Index <? NFields)%nat then Ok Index
  else Fail (Rejected FieldNotFound).

(** [get<I>()] on a [BitField] that is const-qualified or not. *)
Definition get_at (self_const : bool) (I : nat) : result proxy :=
  let* _ := oversized_check in
  let* Ms := MaskArr in
  match all_fields !! I with
  | None => Fail (Rejected FieldNotFound)
  | Some f =>
      let* _ := FieldProxy.instantiate BaseT (Ms !!! I) in
      Ok (mkProxy (self_const || Fixed f)
                  ((FieldBeginArr !!! I) mod FieldTypeBits)
                  (Ms !!! I)
                  (Z.to_nat ((FieldBeginArr !!! I) / FieldTypeBits)))
  end.

(** [get<Query>()] *)
Definition get (self_const : bool) (Query : Z) : result proxy :=
  let* I := index Query in get_at self_const I.

(** Conversion of a proxy to [FieldType]. *)
Definition load (p : proxy) (D : list Z) : result Z :=
  match D !! p_unit p with
  | None => Fail UB
  | Some unit => FieldProxy.read BaseT (p_Shift p) (p_Mask p) unit
  end.

(** A modifying operator of the proxy, applied through its reference. *)
Definition modify (m : FieldProxy.modifier) (p : proxy) (D : list Z)
  : result (list Z) :=
  let* _ := FieldProxy.writable (p_const p) in
  match D !! p_unit p with
  | None => Fail UB
  | Some unit =>
      let* unit' :=
        FieldProxy.apply BaseT (p_const p) (p_Shift p) (p_Mask p) m unit in
      Ok (<[p_unit p := unit']> D)
  end.

(** [get<Query>(BF) = Rhs] and [static_cast<FieldType>(get<Query>(BF))]
    on a non-const [BitField] whose storage is [D]. *)
Definition set (Query Rhs : Z) (D : list Z) : result (list Z) :=
  let* p := get false Query in modify (FieldProxy.Assign Rhs) p D.

Definition value (Query : Z) (D : list Z) : result Z :=
  let* p := get false Query in load p D.

End BitField.

(** ** Notions used to state the properties *)

(** Bit [k] of a unit belongs to the mask that [Mask_loop] builds from
    position [Sh] in [n] iterations.  The second case is the image of
    [static_cast<UnderlyingType>(1 << 31)] in a type wider than [int]:
    the [int] value [1 << 31] is negative and is sign-extended. *)
Definition mask_bit (Sh n k : Z) : bool :=
  ((Sh <=? k) && (k <? Sh + n))
  || ((32 <=? k) && (Sh <=? 31) && (31 <? Sh + n)).

(** The integer type with the signedness of [UT] and [n] bits: the
    logical type of a field of [n] bits. *)
Definition field_type (UT : IntType) (n : Z) : IntType :=
  mkIntType n (is_signed UT).

(** The bits of a field: its position in its unit, its effective width
    (the width clipped to the unit) and its computed mask. *)
Record placed (UT : IntType) (Sh n M : Z) : Prop := mkPlaced {
  placed_shift : 0 <= Sh;
  placed_width : 0 < n;
  placed_unit : Sh + n <= bits UT;
  placed_mask : Mask_loop UT (Z.to_nat n) Sh 0 = Ok M
}.

(** Base types on which the conversion operator reconstructs the value of
    a field: unsigned types no wider than [int], and [int]-wide signed
    types. *)
Definition sound_base (UT : IntType) : Prop :=
  0 < bits UT <= 32 /\ (is_signed UT = true -> bits UT = 32).

(** The default values of the first [k] fields are in the storage [D]:
    under the mask of each of them the unit holds the bits of the default
    value, shifted to the field. *)
Definition burned (BaseT : IntType) (FirstField : Field) (Fields : list Field)
    (Ms : list Z) (k : nat) (D : list Z) : Prop :=
  forall J f, (J < k)%nat ->
    all_fields FirstField Fields !! J = Some f -> 0 < Width f ->
    let B := FieldBeginArr BaseT FirstField Fields !!! J in
    exists u, D !! Z.to_nat (B / bits BaseT) = Some u /\
      forall b, 0 <= b < bits BaseT -> Z.testbit (Ms !!! J) b = true ->
        Z.testbit u b = Z.testbit (DefaultValue f) (b - B mod bits BaseT).

(** Bit [k] of the storage, that is bit [k mod U] of unit [k / U], is
    selected by the mask of field [I]. *)
Definition selects (BaseT : IntType) (FirstField : Field) (Fields : list Field)
    (Ms : list Z) (I : nat) (k : Z) : bool :=
  let U := FieldTypeBits BaseT in
  (k / U =? FieldBeginArr BaseT FirstField Fields !!! I / U)
  && Z.testbit (Ms !!! I) (k mod U).

(** ** The accessor contract in the words of the specification *)

(** Read: [(unit & mask) >> shift] in the field's logical type, that is
    the [n] bits of the unit from bit [Shift] on, sign-extended from the
    width of the field for a signed type and not extended otherwise. *)
Definition spec_read (UT : IntType) (Shift n unit : Z) : Z :=
  wrap (field_type UT n) (Z.shiftr unit Shift).

(** The mask of a field: [n] consecutive bits starting at [Shift]. *)
Definition spec_mask (Shift n : Z) : Z := Z.shiftl (Z.ones n) Shift.

(** Write: [unit = (unit & ~mask) | ((value << shift) & mask)]. *)
Definition spec_write (UT : IntType) (Shift n unit value : Z) : Z :=
  wrap UT (Z.lor (Z.land unit (Z.lnot (spec_mask Shift n)))
                 (Z.land (Z.shiftl value Shift) (spec_mask Shift n))).

(** The operator of a compound update, applied to the value read and the
    operand with the native arithmetic of the field's logical type. *)
Definition spec_operator (UT : IntType) (m : FieldProxy.modifier) (v : Z)
  : result Z :=
  let PT := promote UT in
  match m with
  | FieldProxy.Assign Rhs => Ok Rhs
  | FieldProxy.ArithAssign o _ Rhs => FieldProxy.apply_arith o PT v Rhs
  | FieldProxy.AndAssign Rhs => Ok (and PT v Rhs)
  | FieldProxy.OrAssign Rhs => Ok (or PT v Rhs)
  | FieldProxy.XorAssign Rhs => Ok (xor PT v Rhs)
  | FieldProxy.ShlAssign Rhs => shl PT v Rhs
  | FieldProxy.ShrAssign Rhs => shr PT v Rhs
  | FieldProxy.PreIncrement | FieldProxy.PostIncrement => add PT v 1
  | FieldProxy.PreDecrement | FieldProxy.PostDecrement => sub PT v 1
  end.

(** Compound update: read the current value, apply the operator, write
    the result back. *)
Definition spec_update (UT : IntType) (Shift n : Z) (m : FieldProxy.modifier)
    (unit : Z) : result Z :=
  let* r := spec_operator UT m (spec_read UT Shift n unit) in
  Ok (spec_write UT Shift n unit r).

(** The operand of an arithmetic compound operator has the field's
    logical type. *)
Definition typed_operand (UT : IntType) (m : FieldProxy.modifier) : Prop :=
  match m with
  | FieldProxy.ArithAssign _ RhsT Rhs => RhsT = UT /\ wrap UT Rhs = Rhs
  | _ => True
  end.

(** ** Notions used to state further properties *)

(** Sum of the declared widths. *)
Definition total_width (Ws : list Z) : Z := foldr Z.add 0 Ws.

(** The integral base types of the test suite on which the conversion
    operator reconstructs the value of a field. *)
Definition tested_base (T : IntType) : Prop :=
  T = uint8_t \/ T = uint16_t \/ T = uint32_t \/ T = int32_t.

(** The storages a program can observe when it only goes through the
    accessors: the constructed one and those obtained from it by the
    modifying operators of accessors of a non-const [BitField]. *)
Inductive reachable (disallow : bool) (BaseT : IntType) (FirstField : Field)
    (Fields : list Field) : list Z -> Prop :=
| reach_construct D :
    Data disallow BaseT FirstField Fields = Ok D ->
    reachable disallow BaseT FirstField Fields D
| reach_modify D D' I p m :
    reachable disallow BaseT FirstField Fields D ->
    get_at disallow BaseT FirstField Fields false I = Ok p ->
    modify BaseT m p D = Ok D' ->
    reachable disallow BaseT FirstField Fields D'.

(** Every set bit of the storage [D] lies under the mask of one of the
    first [k] fields. *)
Definition owned (BaseT : IntType) (FirstField : Field) (Fields : list Field)
    (Ms : list Z) (k : nat) (D : list Z) : Prop :=
  forall j u b, D !! j = Some u -> 0 <= b < bits BaseT ->
    Z.testbit u b = true ->
    exists I, (I < k)%nat /\
      Z.to_nat (FieldBeginArr BaseT FirstField Fields !!! I / bits BaseT) = j /\
      Z.testbit (Ms !!! I) b = true.

(** Every unit of the storage is a value of the base type. *)
Definition typed (BaseT : IntType) (D : list Z) : Prop :=
  Forall (fun u => wrap BaseT u = u) D.

(** ** Names of fields given as string literals *)

(** [Util::CharArray<CharT, N>]: the [N] characters of [Data], as their
    codes. *)
Module CharArray.

(** [size()] *)
Definition size (Data : list Z) : nat := length Data.

(** [asStringView()]: the view built from the pointer [Data], which
    ends before the first null character; looking for it past the end
    of the array is undefined. *)
Fixpoint asStringView (Data : list Z) : result (list Z) :=
  match Data with
  | [] => Fail UB
  | c :: Data' =>
      if c =? 0 then Ok []
      else let* s := asStringView Data' in Ok (c :: s)
  end.

(** [operator==(std::basic_string_view<CharT>)] *)
Definition eqb (Data : list Z) (Rhs : list Z) : result bool :=
  let* s := asStringView Data in Ok (bool_decide (s = Rhs)).

End CharArray.

(** ** The base type [bool] *)

(** [BitField<bool, ...>] passes the [static_assert] on [BaseT], but
    [bool] is not an [IntType]: conversion to [bool] is not modular.
    What the header computes for it, with [FieldTypeBits] equal to
    [8 * sizeof(bool)], is written out here; operands of type [bool] are
    promoted to [int]. *)
Module BoolBase.

(** [static_cast<bool>(z)] *)
Definition cast (z : Z) : Z := if z =? 0 then 0 else 1.

(** The inner loop of [Mask]: [M |= static_cast<bool>(1 << S)]. *)
Fixpoint Mask_loop (n : nat) (Sh M : Z) : result Z :=
  match n with
  | O => Ok M
  | S n' =>
      let* b := shl int 1 Sh in
      Mask_loop n' (sz (Sh + 1)) (cast (or int M (cast b)))
  end.

(** [static_assert(static_cast<UnderlyingType>(Mask) > 0, ...)] *)
Definition instantiate (Mask : Z) : result unit :=
  if 0 <? cast Mask then Ok tt else Fail (Rejected SizeZeroMember).

(** [operator FieldType() const]; [std::is_unsigned_v<bool>] holds. *)
Definition read (Shift Mask Field : Z) : result Z :=
  let* r := shr int (and int (cast Field) (cast Mask)) Shift in
  Ok (cast r).

(** [operator=] on a field that is not const. *)
Definition assign (Shift Mask Field Rhs : Z) : result Z :=
  let* X := shl int (cast Rhs) Shift in
  Ok (cast (or int (and int (cast Field) (not int (cast Mask)))
                   (and int X (cast Mask)))).

End BoolBase.

(** * Properties of the layout planner *)

Section LayoutFacts.

Variable U : Z.
Hypothesis U_pos : 0 < U.

Lemma sz_small z : 0 <= z < 2 ^ 64 -> sz z = z.
Proof. intros H. unfold sz. simpl bits. apply Z.mod_small. exact H. Qed.

Lemma sz_word z : 0 <= z <= 4294967296 -> sz z = z.
Proof.
  intros H. apply sz_small.
  change (2 ^ 64) with 18446744073709551616. lia.
Qed.

Lemma sz_pred z : 0 < z <= 2 ^ 64 -> sz (sz z - 1) = z - 1.
Proof.
  intros H. destruct (Z.eq_dec z (2 ^ 64)) as [->|n].
  - reflexivity.
  - rewrite (sz_small z) by lia. apply sz_small. lia.
Qed.

Lemma up_bounds c : c <= up U c < c + U.
Proof.
  unfold up.
  pose proof (Z.div_mod (c + U - 1) U ltac:(lia)) as E.
  pose proof (Z.mod_pos_bound (c + U - 1) U U_pos). nia.
Qed.

Lemma up_mod c : up U c mod U = 0.
Proof. unfold up. apply Z.mod_mul. lia. Qed.

Lemma up_aligned c : c mod U = 0 -> up U c = c.
Proof.
  intros H. unfold up.
  pose proof (Z.div_mod c U ltac:(lia)) as E. rewrite H in E.
  replace (c + U - 1) with ((U - 1) + (c / U) * U) by lia.
  rewrite Z.div_add by lia. rewrite Z.div_small by lia. lia.
Qed.

Lemma up_div c : 0 <= c -> up U c / U = (c + U - 1) / U.
Proof. intros _. unfold up. apply Z.div_mul. lia. Qed.

Lemma nextUnit_up c : 0 <= c -> c + U <= 2 ^ 64 -> nextUnit U c = up U c.
Proof.
  intros H0 H1. unfold nextUnit.
  rewrite (sz_pred (c + U)) by lia.
  pose proof (up_bounds c). unfold up in *.
  apply sz_small. split; [|lia].
  apply Z.mul_nonneg_nonneg; [|lia]. apply Z.div_pos; lia.
Qed.

(** The straddling test, for a field that reserves bits. *)
Lemma toSkip_pos c W :
  0 <= c -> 0 < W -> c + W <= 2 ^ 64 ->
  toSkipToNextUnit U c W = negb (c / U =? (c + W - 1) / U).
Proof.
  intros H0 H1 H2. unfold toSkipToNextUnit.
  rewrite (sz_pred (c + W)) by lia. reflexivity.
Qed.

(** For a zero-width descriptor the test can only fire on a boundary. *)
Lemma toSkip_zero c :
  0 <= c -> c + U <= 2 ^ 64 ->
  toSkipToNextUnit U c 0 = true -> c mod U = 0.
Proof.
  intros H0 H1. unfold toSkipToNextUnit.
  rewrite Z.add_0_r, (sz_small c) by lia.
  destruct (Z.eq_dec c 0) as [->|n]; [intros _; apply Z.mod_0_l; lia|].
  rewrite (sz_small (c - 1)) by lia.
  intros H. apply negb_true_iff, Z.eqb_neq in H.
  pose proof (Z.div_mod c U ltac:(lia)) as E1.
  pose proof (Z.mod_pos_bound c U U_pos) as B1.
  destruct (Z.eq_dec (c mod U) 0) as [e|ne]; [exact e|]. exfalso. apply H.
  apply (Z.div_unique (c - 1) U (c / U) (c mod U - 1)); lia.
Qed.

(** What one iteration records and where it leaves the cursor. *)
Lemma place_zero c :
  0 <= c -> c + U <= 2 ^ 64 -> place U c 0 = (c, up U c).
Proof.
  intros H0 H1. unfold place. rewrite Z.eqb_refl.
  destruct (toSkipToNextUnit U c 0) eqn:E.
  - apply toSkip_zero in E; [|lia..].
    rewrite !nextUnit_up by (rewrite ?up_aligned by exact E; lia).
    rewrite !up_aligned; rewrite ?up_aligned; auto.
  - rewrite nextUnit_up by lia. reflexivity.
Qed.

Lemma place_pos c W :
  0 <= c -> 0 < W -> c + W + U <= 2 ^ 64 ->
  place U c W =
    let b := if negb (c / U =? (c + W - 1) / U) then up U c else c in
    (b, b + W).
Proof.
  intros H0 H1 H2. unfold place.
  rewrite toSkip_pos by lia.
  destruct (Z.eqb_spec W 0) as [|_]; [lia|].
  pose proof (up_bounds c).
  destruct (negb (c / U =? (c + W - 1) / U)); cbv zeta.
  - rewrite nextUnit_up by lia. f_equal. apply sz_small. lia.
  - f_equal. apply sz_small. lia.
Qed.

(** Bounds that hold for every descriptor. *)
Lemma place_bounds c W b c' :
  0 <= c -> 0 <= W -> c + W + U <= 2 ^ 64 ->
  place U c W = (b, c') ->
  c <= b /\ b + W <= c' /\ c' < c + W + U /\
  (W = 0 -> b = c /\ c' = up U c) /\
  (0 < W -> c' = b + W /\ (b = c \/ b = up U c)).
Proof.
  intros H0 H1 H2 E. pose proof (up_bounds c).
  destruct (Z.eq_dec W 0) as [->|n].
  - rewrite place_zero in E by lia. inversion E; subst. lia.
  - rewrite place_pos in E by lia. cbv zeta in E.
    destruct (negb (c / U =? (c + W - 1) / U)); inversion E; subst; lia.
Qed.

(** A field no wider than a unit ends up inside one unit. *)
Lemma place_one_unit c W b c' :
  0 <= c -> 0 < W <= U -> c + W + U <= 2 ^ 64 ->
  place U c W = (b, c') ->
  b / U = (b + W - 1) / U.
Proof.
  intros H0 H1 H2 E. rewrite place_pos in E by lia. cbv zeta in E.
  destruct (Z.eqb_spec (c / U) ((c + W - 1) / U)) as [e|n];
    simpl in E; inversion E; subst; [exact e|].
  pose proof (up_mod c) as M. pose proof (up_bounds c).
  pose proof (Z.div_mod (up U c) U ltac:(lia)) as D. rewrite M in D.
  apply (Z.div_unique (up U c + W - 1) U (up U c / U) (W - 1)); lia.
Qed.

End LayoutFacts.

Section LoopFacts.

Variable U : Z.
Hypothesis U_pos : 0 < U.

Lemma span_nonneg Ws : Forall (fun W => 0 <= W) Ws -> 0 <= span U Ws.
Proof. induction 1; simpl; lia. Qed.

Lemma span_app Ws1 Ws2 : span U (Ws1 ++ Ws2) = span U Ws1 + span U Ws2.
Proof. induction Ws1; simpl; lia. Qed.

Lemma fits_cons c W Ws b c' :
  fits U c (W :: Ws) -> place U c W = (b, c') ->
  0 <= W /\ c + W + U <= 2 ^ 64 /\ fits U c' Ws.
Proof.
  intros (H0 & HF & HB) E. inversion HF as [|? ? HW HF']; subst.
  simpl in HB.
  pose proof (span_nonneg Ws HF') as S0.
  assert (HB' : c + W + U <= 2 ^ 64) by lia.
  destruct (place_bounds U U_pos c W b c' H0 HW HB' E) as (? & ? & ? & _).
  repeat split; try assumption; lia.
Qed.

Lemma FieldBegin_loop_cons W Ws c :
  FieldBegin_loop U (W :: Ws) c =
    let '(B, c') := place U c W in
    let '(Bs, E) := FieldBegin_loop U Ws c' in (B :: Bs, E).
Proof. reflexivity. Qed.

Lemma FieldBegin_loop_app Ws1 Ws2 c :
  FieldBegin_loop U (Ws1 ++ Ws2) c =
    let '(B1, c1) := FieldBegin_loop U Ws1 c in
    let '(B2, E) := FieldBegin_loop U Ws2 c1 in
    (B1 ++ B2, E).
Proof.
  revert c. induction Ws1 as [|W Ws1 IH]; intros c.
  - simpl. destruct (FieldBegin_loop U Ws2 c). reflexivity.
  - rewrite <- app_comm_cons, !FieldBegin_loop_cons.
    destruct (place U c W) as [b c'] eqn:E. rewrite IH.
    destruct (FieldBegin_loop U Ws1 c') as [B1 c1].
    destruct (FieldBegin_loop U Ws2 c1) as [B2 E2]. reflexivity.
Qed.

Lemma FieldBegin_loop_length Ws c :
  length (fst (FieldBegin_loop U Ws c)) = length Ws.
Proof.
  revert c. induction Ws as [|W Ws IH]; intros c; [reflexivity|].
  rewrite FieldBegin_loop_cons.
  destruct (place U c W) as [b c']. specialize (IH c').
  destruct (FieldBegin_loop U Ws c'). simpl in *. congruence.
Qed.

(** Entry [i] is what [place] records at the cursor reached after the
    first [i] descriptors. *)
Lemma FieldBegin_loop_lookup Ws c i W :
  Ws !! i = Some W ->
  fst (FieldBegin_loop U Ws c) !! i =
    Some (fst (place U (snd (FieldBegin_loop U (take i Ws) c)) W)).
Proof.
  revert c i. induction Ws as [|W0 Ws IH]; intros c i H; [discriminate|].
  destruct i as [|i].
  - simpl in H. inversion H; subst. rewrite FieldBegin_loop_cons.
    cbn [take FieldBegin_loop snd]. destruct (place U c W) as [b c'].
    destruct (FieldBegin_loop U Ws c'). reflexivity.
  - simpl in H. change (take (S i) (W0 :: Ws)) with (W0 :: take i Ws).
    rewrite !FieldBegin_loop_cons.
    destruct (place U c W0) as [b c']. specialize (IH c' i H).
    destruct (FieldBegin_loop U Ws c').
    destruct (FieldBegin_loop U (take i Ws) c'). exact IH.
Qed.

(** The invariant of the whole loop. *)
Lemma FieldBegin_loop_inv Ws : forall c Bs E,
  fits U c Ws -> FieldBegin_loop U Ws c = (Bs, E) ->
  c <= E /\ E <= c + span U Ws /\
  (forall i b W, Bs !! i = Some b -> Ws !! i = Some W ->
     c <= b /\ b + W <= E /\ (0 < W <= U -> b / U = (b + W - 1) / U)) /\
  (forall i j bi bj Wi, (i < j)%nat ->
     Bs !! i = Some bi -> Bs !! j = Some bj -> Ws !! i = Some Wi ->
     bi + Wi <= bj).
Proof.
  induction Ws as [|W Ws IH]; intros c Bs E HF HL;
    [simpl in HL | rewrite FieldBegin_loop_cons in HL].
  - inversion HL; subst. simpl. repeat split; try lia; intros; discriminate.
  - destruct (place U c W) as [b c'] eqn:EP.
    destruct (FieldBegin_loop U Ws c') as [Bs' E'] eqn:EL.
    inversion HL; subst; clear HL.
    destruct (fits_cons _ _ _ _ _ HF EP) as (HW & HB & HF').
    destruct HF as (H0 & _ & _).
    destruct (place_bounds U U_pos c W b c' H0 HW HB EP) as (B1 & B2 & B3 & _).
    destruct (IH c' Bs' E HF' EL) as (I1 & I2 & I3 & I4).
    simpl. split; [lia|]. split; [lia|]. split.
    + intros [|i] b0 W0 Hb HW0; simpl in *.
      * inversion Hb; inversion HW0; subst.
        split; [lia|]. split; [lia|].
        intros HU. eapply (place_one_unit U U_pos c); [exact H0|exact HU|exact HB|exact EP].
      * destruct (I3 i b0 W0 Hb HW0) as (? & ? & ?). repeat split; auto; lia.
    + intros [|i] [|j] bi bj Wi Hij Hi Hj HWi; simpl in *; try lia.
      * inversion Hi; inversion HWi; subst.
        assert (is_Some (Ws !! j)) as [Wj HWj].
        { apply lookup_lt_is_Some.
          pose proof (FieldBegin_loop_length Ws c') as L. rewrite EL in L.
          simpl in L. rewrite <- L. eapply lookup_lt_Some; eauto. }
        destruct (I3 j bj Wj Hj HWj) as (? & _). lia.
      * eapply (I4 i j); eauto. lia.
Qed.

End LoopFacts.

Section CursorFacts.

Variable U : Z.
Hypothesis U_pos : 0 < U.

Lemma FieldBegin_length Ws : length (FieldBegin U Ws) = S (length Ws).
Proof.
  unfold FieldBegin. pose proof (FieldBegin_loop_length U Ws 0) as L.
  destruct (FieldBegin_loop U Ws 0) as [Bs E]. simpl in L.
  rewrite length_app. simpl. lia.
Qed.

Lemma cursor_length Ws : cursor U Ws (length Ws) = snd (FieldBegin_loop U Ws 0).
Proof. unfold cursor. rewrite firstn_all. reflexivity. Qed.

Lemma cursor_S Ws i W :
  Ws !! i = Some W -> cursor U Ws (S i) = snd (place U (cursor U Ws i) W).
Proof.
  intros H. unfold cursor.
  rewrite (take_S_r _ _ _ H), FieldBegin_loop_app.
  destruct (FieldBegin_loop U (take i Ws) 0) as [B1 c1]. cbn [snd].
  rewrite FieldBegin_loop_cons. cbn [FieldBegin_loop].
  destruct (place U c1 W) as [b c']. reflexivity.
Qed.

Lemma FieldBegin_lookup Ws i W :
  Ws !! i = Some W ->
  FieldBegin U Ws !! i = Some (fst (place U (cursor U Ws i) W)).
Proof.
  intros H. unfold FieldBegin, cursor.
  pose proof (FieldBegin_loop_lookup U Ws 0 i W H) as L.
  pose proof (FieldBegin_loop_length U Ws 0) as N.
  destruct (FieldBegin_loop U Ws 0) as [Bs E]. simpl in *.
  rewrite lookup_app_l; [exact L|].
  rewrite N. eapply lookup_lt_Some; eauto.
Qed.

Lemma FieldBegin_last Ws :
  FieldBegin U Ws !! length Ws = Some (cursor U Ws (length Ws)).
Proof.
  rewrite cursor_length. unfold FieldBegin.
  pose proof (FieldBegin_loop_length U Ws 0) as N.
  destruct (FieldBegin_loop U Ws 0) as [Bs E]. simpl in *.
  rewrite lookup_app_r by lia. rewrite N, Nat.sub_diag. reflexivity.
Qed.

Lemma fits_prefix Ws1 Ws2 c : fits U c (Ws1 ++ Ws2) -> fits U c Ws1.
Proof.
  intros (H0 & HF & HB). apply Forall_app in HF as [F1 F2].
  rewrite span_app in HB. pose proof (span_nonneg U U_pos Ws2 F2).
  repeat split; auto; lia.
Qed.

(** At every descriptor the cursor is a value of [std::size_t] with room
    for the descriptor and one unit. *)
Lemma cursor_fits Ws i W :
  fits U 0 Ws -> Ws !! i = Some W ->
  0 <= cursor U Ws i /\ 0 <= W /\ cursor U Ws i + W + U <= 2 ^ 64.
Proof.
  intros HF H. pose proof (take_drop_middle _ _ _ H) as E.
  rewrite <- E in HF. pose proof (fits_prefix _ _ _ HF) as HP.
  destruct HF as (_ & HF & HB).
  apply Forall_app in HF as [F1 F2]. inversion F2 as [|? ? HW F3]; subst.
  rewrite span_app in HB. simpl in HB.
  pose proof (span_nonneg U U_pos _ F3).
  unfold cursor.
  destruct (FieldBegin_loop U (take i Ws) 0) as [Bs Ei] eqn:EL.
  destruct (FieldBegin_loop_inv U U_pos _ _ _ _ HP EL) as (I1 & I2 & _).
  simpl. lia.
Qed.

Lemma cursor_end_fits Ws :
  fits U 0 Ws ->
  0 <= cursor U Ws (length Ws) /\ cursor U Ws (length Ws) + U <= 2 ^ 64.
Proof.
  intros HF. rewrite cursor_length.
  destruct (FieldBegin_loop U Ws 0) as [Bs E] eqn:EL.
  destruct (FieldBegin_loop_inv U U_pos _ _ _ _ HF EL) as (I1 & I2 & _).
  destruct HF as (_ & _ & HB). simpl. lia.
Qed.

(** [dataSize] is the ceiling of the final cursor over [U]. *)
Lemma dataSize_ceil Ws :
  fits U 0 Ws ->
  let E := cursor U Ws (length Ws) in
  (dataSize U Ws - 1) * U < E <= dataSize U Ws * U.
Proof.
  intros HF E. destruct (cursor_end_fits Ws HF) as [H0 H1].
  unfold dataSize. rewrite <- cursor_length. fold E.
  destruct (Z.eq_dec E 0) as [e|n].
  - rewrite e. rewrite Z.add_0_l.
    destruct (Z.eq_dec U (2 ^ 64)) as [->|nU]; [vm_compute; split; [reflexivity|discriminate]|].
    rewrite (sz_small U) by lia. rewrite (sz_small (U - 1)) by lia.
    rewrite Z.div_small by lia. rewrite sz_small by lia. lia.
  - rewrite (sz_pred (E + U)) by lia.
    pose proof (Z.div_mod (E + U - 1) U ltac:(lia)) as D.
    pose proof (Z.mod_pos_bound (E + U - 1) U U_pos) as B.
    assert (0 <= (E + U - 1) / U) by (apply Z.div_pos; lia).
    rewrite sz_small by nia. nia.
Qed.

End CursorFacts.

(** * Bit-level facts about the integer model *)

Section WrapFacts.

Variable T : IntType.
Hypothesis T_pos : 0 < bits T.

Lemma pow_bits_pos : 0 < 2 ^ bits T.
Proof. apply Z.pow_pos_nonneg; lia. Qed.

Lemma pow_bits_half : 2 ^ bits T = 2 * 2 ^ (bits T - 1).
Proof. rewrite <- Z.pow_succ_r by lia. f_equal. lia. Qed.

Lemma wrap_mod z : wrap T z mod 2 ^ bits T = z mod 2 ^ bits T.
Proof.
  unfold wrap. pose proof pow_bits_pos.
  destruct (is_signed T && (2 ^ (bits T - 1) <=? z mod 2 ^ bits T)).
  - rewrite <- Zminus_mod_idemp_r, Z_mod_same_full, Z.sub_0_r.
    apply Z.mod_mod. lia.
  - apply Z.mod_mod. lia.
Qed.

Lemma wrap_bounds z : min_val T <= wrap T z <= max_val T.
Proof.
  unfold wrap, min_val, max_val. pose proof pow_bits_half.
  pose proof (Z.mod_pos_bound z (2 ^ bits T) pow_bits_pos).
  destruct (is_signed T); simpl; [|lia].
  destruct (Z.leb_spec (2 ^ (bits T - 1)) (z mod 2 ^ bits T)); lia.
Qed.

Lemma wrap_small z : min_val T <= z <= max_val T -> wrap T z = z.
Proof.
  unfold wrap, min_val, max_val. pose proof pow_bits_half as E.
  pose proof pow_bits_pos as P.
  destruct (is_signed T); simpl; intros H.
  - destruct (Z_lt_le_dec z 0) as [n|n].
    + rewrite (Z.mod_in_range (-1)) by lia.
      destruct (Z.leb_spec (2 ^ (bits T - 1)) (z - -1 * 2 ^ bits T)); lia.
    + rewrite Z.mod_small by lia.
      destruct (Z.leb_spec (2 ^ (bits T - 1)) z); lia.
  - apply Z.mod_small. lia.
Qed.

Lemma wrap_wrap z : wrap T (wrap T z) = wrap T z.
Proof. apply wrap_small, wrap_bounds. Qed.

Lemma testbit_wrap_low z n :
  0 <= n < bits T -> Z.testbit (wrap T z) n = Z.testbit z n.
Proof.
  intros H. rewrite <- (Z.mod_pow2_bits_low (wrap T z) (bits T)) by lia.
  rewrite wrap_mod. apply Z.mod_pow2_bits_low. lia.
Qed.

Lemma testbit_wrap_high z n :
  bits T <= n ->
  Z.testbit (wrap T z) n = is_signed T && Z.testbit z (bits T - 1).
Proof.
  intros H. pose proof (wrap_bounds z) as B.
  rewrite <- (testbit_wrap_low z (bits T - 1)) by lia.
  unfold min_val, max_val in B. pose proof pow_bits_half as E.
  destruct (is_signed T); simpl.
  - assert (R : - 2 ^ (bits T - 1) <= wrap T z < 2 ^ (bits T - 1)) by lia.
    pose proof (proj1 (Z.bounded_iff_bits (bits T - 1) _ ltac:(lia)) R) as Hb.
    rewrite !Hb by lia. reflexivity.
  - apply (Z.bounded_iff_bits_nonneg (bits T)); lia.
Qed.

(** Two integers with the same low [bits T] bits convert to the same
    value of type [T]. *)
Lemma wrap_ext x y :
  (forall n, 0 <= n < bits T -> Z.testbit x n = Z.testbit y n) ->
  wrap T x = wrap T y.
Proof.
  intros H.
  assert (E : x mod 2 ^ bits T = y mod 2 ^ bits T).
  { apply Z.bits_inj'. intros n Hn.
    destruct (Z_lt_le_dec n (bits T)).
    - rewrite !Z.mod_pow2_bits_low by lia. apply H. lia.
    - rewrite !Z.mod_pow2_bits_high by lia. reflexivity. }
  unfold wrap. rewrite E. reflexivity.
Qed.

Lemma testbit_wrap z n :
  0 <= n ->
  Z.testbit (wrap T z) n =
    if n <? bits T then Z.testbit z n
    else is_signed T && Z.testbit z (bits T - 1).
Proof.
  intros H. destruct (Z.ltb_spec n (bits T)).
  - apply testbit_wrap_low. lia.
  - apply testbit_wrap_high. lia.
Qed.

End WrapFacts.

Ltac solve_fits :=
  unfold fits; split;
  [ lia
  | split; [ cbn; repeat constructor; lia | vm_compute; discriminate ] ].

Ltac bool_cases :=
  repeat match goal with
    | |- context [?a <=? ?b] => destruct (Z.leb_spec a b)
    | |- context [?a <? ?b] => destruct (Z.ltb_spec a b)
    | |- context [?a =? ?b] => destruct (Z.eqb_spec a b)
    end;
  simpl; try reflexivity; try lia.

Section TypeFacts.

Lemma bits_promote T : bits T <= bits (promote T) /\ 32 <= bits (promote T).
Proof. unfold promote. simpl. destruct (Z.ltb_spec (bits T) 32); simpl; lia. Qed.

Lemma promote_narrow T : bits T < 32 -> promote T = int.
Proof. intros H. unfold promote. simpl. destruct (Z.ltb_spec (bits T) 32); [reflexivity|lia]. Qed.

Lemma promote_wide T : 32 <= bits T -> promote T = T.
Proof. intros H. unfold promote. simpl. destruct (Z.ltb_spec (bits T) 32); [lia|reflexivity]. Qed.

Lemma bits_common P Q : bits (common P Q) = Z.max (bits P) (bits Q).
Proof. unfold common. bool_cases. Qed.

Lemma common_same P : common P P = P.
Proof.
  unfold common. rewrite Z.eqb_refl, andb_diag. destruct P; reflexivity.
Qed.

(** Bits of the [int] value [1 << S] converted to [UT]. *)
Lemma testbit_one_shl UT S b k :
  0 < bits UT -> shl int 1 S = Ok b -> 0 <= k < bits UT ->
  0 <= S < 32 /\
  Z.testbit (wrap UT b) k = (k =? S) || ((32 <=? k) && (S =? 31)).
Proof.
  intros HT E Hk. unfold shl in E. simpl bits in E.
  destruct (Z.leb_spec 0 S); [|discriminate].
  destruct (Z.ltb_spec S 32); [|discriminate]. simpl in E.
  inversion E; subst; clear E. split; [lia|].
  rewrite testbit_wrap_low by lia.
  rewrite testbit_wrap by (simpl; lia). simpl bits. simpl is_signed.
  rewrite Z.shiftl_1_l, !Z.pow2_bits_eqb by lia.
  rewrite (Z.eqb_sym S k). bool_cases.
Qed.

End TypeFacts.

Section MaskFacts.

Variable UT : IntType.
Hypothesis UT_pos : 0 < bits UT.

Lemma mask_bit_step Sh n k :
  0 <= n ->
  mask_bit Sh (n + 1) k =
    ((k =? Sh) || ((32 <=? k) && (Sh =? 31))) || mask_bit (Sh + 1) n k.
Proof. intros H. unfold mask_bit. bool_cases. Qed.

Lemma mask_bit_zero Sh k : Sh <= 32 -> mask_bit Sh 0 k = false.
Proof. intros. unfold mask_bit. bool_cases. Qed.

Lemma Mask_loop_spec n : forall Sh M R,
  0 <= Sh -> Sh <= 32 ->
  Mask_loop UT n Sh M = Ok R ->
  Sh + Z.of_nat n <= 32 /\
  (wrap UT M = M -> wrap UT R = R) /\
  forall k, 0 <= k < bits UT ->
    Z.testbit R k = Z.testbit M k || mask_bit Sh (Z.of_nat n) k.
Proof.
  induction n as [|n IH]; intros Sh M R H0 H32 E.
  - simpl in E. inversion E; subst. split; [simpl; lia|]. split; [auto|].
    intros k Hk. change (Z.of_nat 0) with 0.
    rewrite mask_bit_zero by lia. rewrite orb_false_r. reflexivity.
  - cbn [Mask_loop] in E. destruct (shl int 1 Sh) as [b|] eqn:Eb; [|discriminate].
    cbn [bind] in E.
    destruct (testbit_one_shl UT Sh b 0 UT_pos Eb ltac:(lia)) as [HS _].
    rewrite sz_word in E by lia.
    destruct (IH (Sh + 1) _ R ltac:(lia) ltac:(lia) E) as (I1 & I2 & I3).
    split; [lia|]. split.
    + intros _. apply I2. apply wrap_wrap. exact UT_pos.
    + intros k Hk. rewrite I3 by exact Hk.
      rewrite Nat2Z.inj_succ, <- Z.add_1_r, mask_bit_step by lia.
      rewrite testbit_wrap_low by lia.
      unfold or. pose proof (bits_promote UT).
      rewrite testbit_wrap_low by lia.
      rewrite Z.lor_spec.
      destruct (testbit_one_shl UT Sh b k UT_pos Eb Hk) as [_ ->].
      rewrite !orb_assoc. reflexivity.
Qed.

Lemma Mask_loop_start n Sh M R :
  (0 < n)%nat -> Mask_loop UT n Sh M = Ok R -> 0 <= Sh < 32.
Proof.
  destruct n as [|n]; [lia|]. intros _. cbn [Mask_loop]. unfold shl at 1.
  simpl bits. destruct (Z.leb_spec 0 Sh), (Z.ltb_spec Sh 32);
    simpl; try discriminate. lia.
Qed.

(** The loop succeeds exactly when every [1 << S] is defined. *)
Lemma Mask_loop_defined n : forall Sh M,
  0 <= Sh -> Sh + Z.of_nat n <= 32 -> is_Ok (Mask_loop UT n Sh M) = true.
Proof.
  induction n as [|n IH]; intros Sh M H0 H1; [reflexivity|].
  cbn [Mask_loop]. unfold shl at 1. simpl bits.
  destruct (Z.leb_spec 0 Sh); [|lia]. destruct (Z.ltb_spec Sh 32); [|lia].
  cbn [andb bind]. rewrite sz_word by lia. apply IH; lia.
Qed.

End MaskFacts.

(** Low bits of the results of the bitwise operators. *)
Section LowBits.

Variable P : IntType.
Hypothesis P_pos : 0 < bits P.

Lemma low_and a b k :
  0 <= k < bits P -> Z.testbit (and P a b) k = Z.testbit a k && Z.testbit b k.
Proof. intros. unfold and. rewrite testbit_wrap_low, Z.land_spec by lia. reflexivity. Qed.

Lemma low_or a b k :
  0 <= k < bits P -> Z.testbit (or P a b) k = Z.testbit a k || Z.testbit b k.
Proof. intros. unfold or. rewrite testbit_wrap_low, Z.lor_spec by lia. reflexivity. Qed.

Lemma low_xor a b k :
  0 <= k < bits P -> Z.testbit (xor P a b) k = xorb (Z.testbit a k) (Z.testbit b k).
Proof. intros. unfold xor. rewrite testbit_wrap_low, Z.lxor_spec by lia. reflexivity. Qed.

Lemma low_not a k :
  0 <= k < bits P -> Z.testbit (not P a) k = negb (Z.testbit a k).
Proof. intros. unfold not. rewrite testbit_wrap_low, Z.lnot_spec by lia. reflexivity. Qed.

Lemma low_shl a s x k :
  shl P a s = Ok x -> 0 <= k < bits P ->
  0 <= s < bits P /\ Z.testbit x k = Z.testbit a (k - s).
Proof.
  unfold shl. destruct (Z.leb_spec 0 s); [|discriminate].
  destruct (Z.ltb_spec s (bits P)); [|discriminate]. simpl.
  intros E Hk. inversion E; subst. split; [lia|].
  rewrite testbit_wrap_low, Z.shiftl_spec by lia. reflexivity.
Qed.

Lemma shl_defined a s : 0 <= s < bits P -> shl P a s = Ok (wrap P (Z.shiftl a s)).
Proof.
  intros H. unfold shl. destruct (Z.leb_spec 0 s); [|lia].
  destruct (Z.ltb_spec s (bits P)); [|lia]. reflexivity.
Qed.

Lemma shr_defined a s : 0 <= s < bits P -> shr P a s = Ok (Z.shiftr a s).
Proof.
  intros H. unfold shr. destruct (Z.leb_spec 0 s); [|lia].
  destruct (Z.ltb_spec s (bits P)); [|lia]. reflexivity.
Qed.

Lemma shr_inv a s x : shr P a s = Ok x -> 0 <= s < bits P /\ x = Z.shiftr a s.
Proof.
  unfold shr. destruct (Z.leb_spec 0 s); [|discriminate].
  destruct (Z.ltb_spec s (bits P)); [|discriminate]. simpl.
  intros E. inversion E. split; [lia|reflexivity].
Qed.

End LowBits.

Ltac bits_side UT :=
  pose proof (bits_promote UT); rewrite ?bits_common; lia.

Ltac lowbits UT :=
  repeat first
    [ rewrite low_and by bits_side UT
    | rewrite low_or by bits_side UT
    | rewrite low_xor by bits_side UT
    | rewrite low_not by bits_side UT
    | rewrite testbit_wrap_low by bits_side UT ].

Section ProxyFacts.

Variable UT : IntType.
Variables Sh n M : Z.
Hypothesis UT_pos : 0 < bits UT.
Hypothesis HP : placed UT Sh n M.

#[local] Abbreviation PT := (promote UT).

Lemma placed_start : 0 <= Sh < 32.
Proof.
  destruct HP as [H0 H1 H2 H3].
  apply (Mask_loop_start UT (Z.to_nat n) Sh 0 M); [lia|exact H3].
Qed.

Lemma placed_int : Sh + n <= 32.
Proof.
  pose proof placed_start. destruct HP as [H0 H1 H2 H3].
  destruct (Mask_loop_spec UT UT_pos (Z.to_nat n) Sh 0 M H0 ltac:(lia) H3) as (I & _).
  lia.
Qed.

Lemma mask_wrapped : wrap UT M = M.
Proof.
  pose proof placed_start. destruct HP as [H0 H1 H2 H3].
  destruct (Mask_loop_spec UT UT_pos (Z.to_nat n) Sh 0 M H0 ltac:(lia) H3) as (_ & I & _).
  apply I. apply wrap_small; [exact UT_pos|].
  pose proof (pow_bits_pos UT UT_pos).
  pose proof (pow_bits_half UT UT_pos).
  unfold min_val, max_val. destruct (is_signed UT); lia.
Qed.

Lemma mask_bits k : 0 <= k < bits UT -> Z.testbit M k = mask_bit Sh n k.
Proof.
  intros Hk. pose proof placed_start. destruct HP as [H0 H1 H2 H3].
  destruct (Mask_loop_spec UT UT_pos (Z.to_nat n) Sh 0 M H0 ltac:(lia) H3) as (_ & _ & I).
  rewrite I by exact Hk. rewrite Z.bits_0, Z2Nat.id by lia. reflexivity.
Qed.

Lemma mask_bit_shift k : mask_bit Sh n k = true -> Sh <= k.
Proof. unfold mask_bit. pose proof placed_int. destruct HP. bool_cases. Qed.

Lemma mask_bit_field k : 0 <= k < n -> mask_bit Sh n (k + Sh) = true.
Proof. unfold mask_bit. destruct HP. bool_cases. Qed.

(** Bits of [(Field & ~Mask) | (X & Mask)]. *)
Lemma store_bits u XT X k :
  0 <= k < bits UT ->
  Z.testbit (FieldProxy.store UT M u XT X) k =
    if mask_bit Sh n k then Z.testbit X k else Z.testbit u k.
Proof.
  intros Hk. unfold FieldProxy.store, FieldProxy.PT.
  lowbits UT. rewrite mask_bits by lia.
  destruct (mask_bit Sh n k), (Z.testbit u k), (Z.testbit X k); reflexivity.
Qed.

Lemma store_wrapped u XT X :
  wrap UT (FieldProxy.store UT M u XT X) = FieldProxy.store UT M u XT X.
Proof. unfold FieldProxy.store. apply wrap_wrap. exact UT_pos. Qed.

Lemma shift_in_PT : 0 <= Sh < bits PT.
Proof. pose proof (bits_promote UT). pose proof placed_start. lia. Qed.

(** [operator=] is defined on a non-const proxy and replaces exactly
    the masked bits by the low bits of the operand. *)
Lemma assign_spec u Rhs :
  exists u', FieldProxy.assign UT false Sh M u Rhs = Ok u' /\
    wrap UT u' = u' /\
    forall k, 0 <= k < bits UT ->
      Z.testbit u' k =
        if mask_bit Sh n k then Z.testbit Rhs (k - Sh) else Z.testbit u k.
Proof.
  unfold FieldProxy.assign, FieldProxy.writable, FieldProxy.PT. cbn [bind].
  rewrite shl_defined by apply shift_in_PT. cbn [bind].
  eexists. split; [reflexivity|]. split; [apply store_wrapped|].
  intros k Hk. rewrite store_bits by exact Hk.
  destruct (mask_bit Sh n k) eqn:Em; [|reflexivity].
  apply mask_bit_shift in Em.
  lowbits UT. rewrite Z.shiftl_spec by lia. destruct HP.
  lowbits UT. reflexivity.
Qed.

End ProxyFacts.

(** ** Reading a field *)

Lemma testbit_one_int S b k :
  shl int 1 S = Ok b -> 0 <= k ->
  0 <= S < 32 /\ Z.testbit b k = if k <? 32 then k =? S else S =? 31.
Proof.
  intros E Hk. unfold shl in E. simpl bits in E.
  destruct (Z.leb_spec 0 S); [|discriminate].
  destruct (Z.ltb_spec S 32); [|discriminate]. simpl in E.
  inversion E; subst; clear E. split; [lia|].
  rewrite testbit_wrap by (simpl; lia). simpl bits. simpl is_signed.
  rewrite Z.shiftl_1_l, !Z.pow2_bits_eqb by lia.
  rewrite (Z.eqb_sym S k), (Z.eqb_sym S (32 - 1)). bool_cases.
Qed.

Lemma land_bound k a b : 0 <= k -> 0 <= a < 2 ^ k -> 0 <= Z.land a b < 2 ^ k.
Proof.
  intros Hk Ha.
  assert (L0 : 0 <= Z.land a b) by (apply Z.land_nonneg; lia).
  split; [exact L0|]. apply (Z.bounded_iff_bits_nonneg k); [lia..|].
  intros l Hl. rewrite Z.land_spec.
  rewrite (proj1 (Z.bounded_iff_bits_nonneg k a Hk ltac:(lia))) by lia.
  reflexivity.
Qed.

Section ReadUnsigned.

Variable UT : IntType.
Variables Sh n M : Z.
Hypothesis UT_pos : 0 < bits UT.
Hypothesis UT_unsigned : is_signed UT = false.
Hypothesis UT_narrow : bits UT <= 32.
Hypothesis HP : placed UT Sh n M.

(** On operands of an unsigned type of at most 32 bits, [&] in the
    promoted type is plain [Z.land]. *)
Lemma and_unsigned a b :
  and (promote UT) (wrap UT a) (wrap UT b) = Z.land (wrap UT a) (wrap UT b).
Proof.
  unfold and. apply wrap_small; [pose proof (bits_promote UT); lia|].
  pose proof (wrap_bounds UT UT_pos a) as Ba.
  pose proof (wrap_bounds UT UT_pos b) as Bb.
  unfold min_val, max_val in Ba, Bb. rewrite UT_unsigned in Ba, Bb.
  pose proof (land_bound (bits UT) (wrap UT a) (wrap UT b)
                ltac:(lia) ltac:(lia)) as L.
  destruct (Z.ltb_spec (bits UT) 32) as [l|l].
  - rewrite promote_narrow by lia. unfold min_val, max_val. simpl.
    assert (2 ^ bits UT <= 2 ^ 31) by (apply Z.pow_le_mono_r; lia).
    change (2 ^ 31) with 2147483648 in *. lia.
  - rewrite promote_wide by lia. unfold min_val, max_val.
    rewrite UT_unsigned. lia.
Qed.

Lemma read_unsigned u :
  FieldProxy.read UT Sh M u = Ok (wrap (field_type UT n) (Z.shiftr u Sh)).
Proof.
  unfold FieldProxy.read, FieldProxy.PT. rewrite UT_unsigned. cbn [negb].
  rewrite shr_defined by (apply (shift_in_PT UT Sh n M HP)). cbn [bind].
  f_equal. rewrite and_unsigned. pose proof (placed_int UT Sh n M UT_pos HP).
  destruct HP as [H0 H1 H2 H3]. apply Z.bits_inj'. intros k Hk.
  rewrite !testbit_wrap by (simpl; lia). unfold field_type. simpl bits.
  simpl is_signed. rewrite UT_unsigned. cbn [andb].
  rewrite !Z.shiftr_spec, Z.land_spec by lia.
  rewrite !testbit_wrap by lia. rewrite UT_unsigned. cbn [andb].
  destruct (Z.ltb_spec k n).
  - destruct (Z.ltb_spec k (bits UT)); [|lia].
    destruct (Z.ltb_spec (k + Sh) (bits UT)); [|lia].
    rewrite (mask_bits UT Sh n M UT_pos HP) by lia.
    rewrite (mask_bit_field UT Sh n M HP) by lia. apply andb_true_r.
  - destruct (Z.ltb_spec k (bits UT)); [|reflexivity].
    destruct (Z.ltb_spec (k + Sh) (bits UT)); [|apply andb_false_r].
    rewrite (mask_bits UT Sh n M UT_pos HP) by lia.
    unfold mask_bit. bool_cases; apply andb_false_r.
Qed.

End ReadUnsigned.

Section ReadInt.

(** A field of a 32-bit signed unit whose accessor can be instantiated. *)
Variables Sh n M : Z.
Hypothesis HP : placed int32_t Sh n M.
Hypothesis HM : 0 < wrap int32_t M.

Lemma pos32 : 0 < bits int32_t.
Proof. reflexivity. Qed.

Lemma int_mask_bits k :
  0 <= k -> Z.testbit M k = (Sh <=? k) && (k <? Sh + n).
Proof.
  intros Hk. pose proof (mask_wrapped int32_t Sh n M pos32 HP) as W.
  pose proof (wrap_bounds int32_t pos32 M) as B. rewrite W in *.
  unfold min_val, max_val in B. simpl in B.
  assert (T31 : forall l, 31 <= l -> Z.testbit M l = false).
  { apply (Z.bounded_iff_bits_nonneg 31); lia. }
  pose proof (mask_bits int32_t Sh n M pos32 HP 31 ltac:(simpl; lia)) as E.
  rewrite T31 in E by lia. pose proof (placed_start int32_t Sh n M HP).
  destruct (Z.ltb_spec k 31).
  - rewrite (mask_bits int32_t Sh n M pos32 HP) by (simpl; lia).
    unfold mask_bit in *. revert E. bool_cases.
  - rewrite T31 by lia. unfold mask_bit in E. revert E. bool_cases.
Qed.

Lemma int_top : Sh + n <= 31.
Proof.
  pose proof (int_mask_bits 31 ltac:(lia)) as E.
  pose proof (mask_wrapped int32_t Sh n M pos32 HP) as W.
  pose proof (wrap_bounds int32_t pos32 M) as B. rewrite W in *.
  unfold min_val, max_val in B. simpl in B.
  rewrite (proj1 (Z.bounded_iff_bits_nonneg 31 M ltac:(lia) ltac:(lia)))
    in E by lia.
  pose proof (placed_start int32_t Sh n M HP). revert E. bool_cases.
Qed.

(** The search for the most significant mask bit ends at the top of the
    field. *)
Lemma MaskMsbOffset_loop_int f : forall o,
  Z.of_nat f + o = 32 -> 0 <= o <= 32 - Sh - n ->
  FieldProxy.MaskMsbOffset_loop int32_t M f o = Ok (32 - Sh - n).
Proof.
  pose proof int_top as T. destruct HP as [H0 H1 _ _].
  pose proof (mask_wrapped int32_t Sh n M pos32 HP) as W.
  induction f as [|f IH]; intros o Hf Ho; [simpl in Hf; lia|].
  cbn [FieldProxy.MaskMsbOffset_loop]. simpl bits.
  rewrite (sz_word (32 - o)), (sz_word (32 - o - 1)) by lia.
  destruct (shl int 1 (32 - o - 1)) as [b|] eqn:Eb;
    [|unfold shl in Eb; simpl bits in Eb; revert Eb; bool_cases; discriminate].
  cbn [bind]. rewrite W.
  assert (Bb : forall k, 0 <= k ->
             Z.testbit (wrap int32_t b) k =
               if k <? 32 then k =? 31 - o else 31 - o =? 31).
  { intros k Hk. rewrite testbit_wrap by (simpl; lia). simpl bits.
    simpl is_signed.
    destruct (testbit_one_int _ _ k Eb Hk) as [_ ->].
    destruct (testbit_one_int _ _ (32 - 1) Eb ltac:(lia)) as [_ ->].
    bool_cases. }
  destruct (Z.eq_dec o (32 - Sh - n)) as [e|ne].
  - destruct (Z.eqb_spec (and (FieldProxy.PT int32_t) M (wrap int32_t b)) 0)
      as [z|nz]; [|simpl; f_equal; exact e].
    exfalso. apply (f_equal (fun x => Z.testbit x (31 - o))) in z.
    rewrite Z.bits_0 in z. unfold FieldProxy.PT in z.
    rewrite low_and in z by (simpl; lia).
    rewrite int_mask_bits, Bb in z by lia. revert z. bool_cases.
  - assert (Z : and (FieldProxy.PT int32_t) M (wrap int32_t b) = 0).
    { unfold and. replace (Z.land M (wrap int32_t b)) with 0; [reflexivity|].
      symmetry. apply Z.bits_inj'. intros k Hk.
      rewrite Z.bits_0, Z.land_spec, int_mask_bits, Bb by lia. bool_cases. }
    rewrite Z. simpl negb. cbv iota. rewrite sz_word by lia.
    apply IH; lia.
Qed.

Lemma MaskMsbOffset_int :
  FieldProxy.MaskMsbOffset int32_t M = Ok (32 - Sh - n).
Proof.
  unfold FieldProxy.MaskMsbOffset. apply MaskMsbOffset_loop_int.
  - reflexivity.
  - pose proof int_top. lia.
Qed.

(** The conversion sign-extends the [n] bits of the field. *)
Lemma read_int u :
  FieldProxy.read int32_t Sh M u =
    Ok (wrap (field_type int32_t n) (Z.shiftr u Sh)).
Proof.
  pose proof int_top as T. destruct HP as [H0 H1 _ _].
  pose proof (mask_wrapped int32_t Sh n M pos32 HP) as W.
  unfold FieldProxy.read. simpl is_signed. cbn [negb].
  rewrite MaskMsbOffset_int. cbn [bind]. unfold FieldProxy.PT.
  change (promote int32_t) with int32_t.
  rewrite shl_defined by (simpl; lia). cbn [bind].
  rewrite sz_word by lia.
  rewrite shr_defined by (simpl; lia). cbn [bind]. f_equal.
  rewrite W. apply Z.bits_inj'. intros k Hk.
  unfold field_type. simpl is_signed.
  rewrite (testbit_wrap (mkIntType n true)) by (simpl; lia).
  simpl bits. simpl is_signed. cbn [andb].
  rewrite !Z.shiftr_spec by lia.
  assert (L : forall j, 0 <= j ->
            Z.testbit (wrap int32_t (Z.shiftl (and int32_t (wrap int32_t u) M)
                                        (32 - Sh - n))) j =
              if j <? 32
              then (Sh <=? j - (32 - Sh - n)) && Z.testbit u (j - (32 - Sh - n))
              else Z.testbit u (Sh + n - 1)).
  { intros j Hj. rewrite testbit_wrap by (simpl; lia). simpl bits.
    simpl is_signed. cbn [andb].
    rewrite !Z.shiftl_spec by lia.
    destruct (Z.ltb_spec j 32).
    - destruct (Z.leb_spec Sh (j - (32 - Sh - n))).
      + rewrite low_and by (simpl; lia).
        rewrite testbit_wrap_low by (simpl; lia).
        rewrite int_mask_bits by lia. bool_cases; apply andb_true_r.
      + destruct (Z_lt_le_dec (j - (32 - Sh - n)) 0).
        * rewrite Z.testbit_neg_r by lia. reflexivity.
        * rewrite low_and by (simpl; lia).
          rewrite int_mask_bits by lia. bool_cases; apply andb_false_r.
    - rewrite low_and by (simpl; lia).
      rewrite testbit_wrap_low by (simpl; lia).
      rewrite int_mask_bits by lia.
      replace (32 - 1 - (32 - Sh - n)) with (Sh + n - 1) by lia.
      bool_cases; apply andb_true_r. }
  rewrite testbit_wrap by (simpl; lia). simpl bits. simpl is_signed.
  cbn [andb]. rewrite !Z.shiftr_spec by lia. rewrite !L by lia.
  replace (n - 1 + Sh) with (Sh + n - 1) by lia.
  bool_cases; f_equal; lia.
Qed.

End ReadInt.

(** ** Writing a field and what it leaves alone *)

Ltac inv_bind H :=
  repeat match type of H with
    | bind ?r _ = Ok _ =>
        let E := fresh "E" in
        destruct r eqn:E; cbn [bind] in H; [|discriminate H]
    end.

Section Frame.

Variable UT : IntType.
Variables Sh n M : Z.
Hypothesis UT_pos : 0 < bits UT.
Hypothesis HP : placed UT Sh n M.

Lemma writable_inv c u : FieldProxy.writable c = Ok u -> c = false.
Proof. destruct c; [discriminate|reflexivity]. Qed.

(** Every modifying operator leaves the bits outside the mask as they
    were, and stores a value of the unit type. *)
Lemma apply_frame c m u u' :
  FieldProxy.apply UT c Sh M m u = Ok u' ->
  c = false /\ wrap UT u' = u' /\
  forall k, 0 <= k < bits UT -> mask_bit Sh n k = false ->
    Z.testbit u' k = Z.testbit u k.
Proof.
  assert (S : forall XT X k, 0 <= k < bits UT -> mask_bit Sh n k = false ->
            Z.testbit (FieldProxy.store UT M u XT X) k = Z.testbit u k).
  { intros XT X k Hk Hm.
    rewrite (store_bits UT Sh n M UT_pos HP) by exact Hk.
    rewrite Hm. reflexivity. }
  pose proof (store_wrapped UT M UT_pos u) as SW.
  pose proof (mask_bits UT Sh n M UT_pos HP) as MB.
  assert (A : forall o RhsT Rhs,
            FieldProxy.arith_assign UT c Sh M o RhsT u Rhs = Ok u' ->
            c = false /\ wrap UT u' = u' /\
            forall k, 0 <= k < bits UT -> mask_bit Sh n k = false ->
              Z.testbit u' k = Z.testbit u k).
  { intros o RhsT Rhs H. unfold FieldProxy.arith_assign in H.
    inv_bind H. cbv zeta in H. inv_bind H. inversion H; subst.
    split; [eapply writable_inv; eauto|]. split; [apply SW|apply S]. }
  destruct m; cbn [FieldProxy.apply]; intros H.
  - unfold FieldProxy.assign in H. inv_bind H. inversion H; subst.
    split; [eapply writable_inv; eauto|]. split; [apply SW|apply S].
  - eapply A; eauto.
  - unfold FieldProxy.and_assign, FieldProxy.PT in H. inv_bind H.
    inversion H; subst.
    split; [eapply writable_inv; eauto|].
    split; [apply wrap_wrap; exact UT_pos|].
    intros k Hk Hm. lowbits UT. rewrite MB, Hm by exact Hk.
    rewrite orb_true_r. apply andb_true_r.
  - unfold FieldProxy.or_assign, FieldProxy.PT in H. inv_bind H.
    inversion H; subst.
    split; [eapply writable_inv; eauto|].
    split; [apply wrap_wrap; exact UT_pos|].
    intros k Hk Hm. lowbits UT. rewrite MB, Hm by exact Hk.
    rewrite andb_false_r. apply orb_false_r.
  - unfold FieldProxy.xor_assign, FieldProxy.PT in H. inv_bind H.
    inversion H; subst.
    split; [eapply writable_inv; eauto|].
    split; [apply wrap_wrap; exact UT_pos|].
    intros k Hk Hm. lowbits UT. rewrite MB, Hm by exact Hk.
    rewrite andb_false_r, orb_false_r. apply andb_true_r.
  - unfold FieldProxy.shl_assign in H. inv_bind H. inversion H; subst.
    split; [eapply writable_inv; eauto|]. split; [apply SW|apply S].
  - unfold FieldProxy.shr_assign in H. inv_bind H.
    destruct (negb (is_signed UT)); inv_bind H; inversion H; subst;
      (split; [eapply writable_inv; eauto|]; split; [apply SW|apply S]).
  - eapply A; eauto.
  - eapply A; eauto.
  - unfold FieldProxy.post_increment in H. inv_bind H. inv_bind E.
    inversion E; subst. inversion H; subst. eapply A; eauto.
  - unfold FieldProxy.post_decrement in H. inv_bind H. inv_bind E.
    inversion E; subst. inversion H; subst. eapply A; eauto.
Qed.

(** The masked pattern of a field whose mask is disjoint from [M]. *)
Lemma frame_pattern Sh' n' M' u u' :
  placed UT Sh' n' M' ->
  (forall k, mask_bit Sh n k && mask_bit Sh' n' k = false) ->
  wrap UT u' = u' ->
  (forall k, 0 <= k < bits UT -> mask_bit Sh n k = false ->
     Z.testbit u' k = Z.testbit u k) ->
  Z.land (wrap UT u') (wrap UT M') = Z.land (wrap UT u) (wrap UT M').
Proof.
  intros HQ Hd Hw Hf. pose proof (mask_bits UT Sh' n' M' UT_pos HQ) as MB.
  assert (F : forall k, 0 <= k < bits UT ->
            Z.testbit u' k && Z.testbit M' k = Z.testbit u k && Z.testbit M' k).
  { intros k Hk. rewrite MB by exact Hk. specialize (Hd k).
    destruct (mask_bit Sh' n' k); [|rewrite !andb_false_r; reflexivity].
    rewrite andb_true_r in Hd. rewrite (Hf k Hk Hd). reflexivity. }
  apply Z.bits_inj'. intros k Hk.
  rewrite !Z.land_spec, !testbit_wrap by lia.
  destruct (Z.ltb_spec k (bits UT)); [apply F; lia|].
  specialize (F (bits UT - 1) ltac:(lia)).
  destruct (is_signed UT); [|reflexivity]. cbn [andb]. exact F.
Qed.

(** The conversion operator only looks at the masked pattern. *)
Lemma read_pattern u1 u2 :
  Z.land (wrap UT u1) (wrap UT M) = Z.land (wrap UT u2) (wrap UT M) ->
  FieldProxy.read UT Sh M u1 = FieldProxy.read UT Sh M u2.
Proof.
  intros E. unfold FieldProxy.read, and. rewrite E. reflexivity.
Qed.

End Frame.

(** * From the class template to its accessors *)

Lemma lookup_map {A B : Type} (f : A -> B) (l : list A) (i : nat) :
  map f l !! i = option_map f (l !! i).
Proof.
  revert i. induction l as [|a l IH]; intros [|i]; simpl; auto.
Qed.

Lemma map_result_lookup {A B : Type} (f : A -> result B) (l : list A) bs :
  map_result f l = Ok bs ->
  length bs = length l /\
  forall i a, l !! i = Some a -> exists b, bs !! i = Some b /\ f a = Ok b.
Proof.
  revert bs. induction l as [|a l IH]; intros bs H; simpl in H.
  - inversion H; subst. split; [reflexivity|]. intros i a Hi. discriminate.
  - inv_bind H. inversion H; subst. destruct (IH _ eq_refl) as [L I].
    split; [simpl; congruence|].
    intros [|i] a' Hi; simpl in Hi.
    + inversion Hi; subst. eexists; split; [reflexivity|assumption].
    + apply I. exact Hi.
Qed.

Section PlaceShift.

Variable U : Z.
Hypothesis U_pos : 0 < U.

(** A field starts, within its unit, where its clipped width still fits. *)
Lemma place_shift_fit c W b c' :
  0 <= c -> 0 < W -> c + W + U <= 2 ^ 64 ->
  place U c W = (b, c') ->
  b mod U + Z.min W U <= U.
Proof.
  intros H0 H1 H2 E. destruct (Z_le_gt_dec W U) as [l|g].
  - pose proof (place_one_unit U U_pos c W b c' H0 ltac:(lia) H2 E) as D.
    pose proof (Z.div_mod b U ltac:(lia)) as D1.
    pose proof (Z.div_mod (b + W - 1) U ltac:(lia)) as D2.
    pose proof (Z.mod_pos_bound b U U_pos).
    pose proof (Z.mod_pos_bound (b + W - 1) U U_pos).
    rewrite <- D in D2. lia.
  - rewrite (place_pos U U_pos) in E by lia. cbv zeta in E.
    assert (N : c / U <> (c + W - 1) / U).
    { assert (c / U + 1 <= (c + W - 1) / U); [|lia].
      replace (c / U + 1) with ((c + 1 * U) / U)
        by (rewrite Z.div_add by lia; reflexivity).
      apply Z.div_le_mono; lia. }
    apply Z.eqb_neq in N. rewrite N in E. simpl in E. inversion E; subst.
    rewrite (up_mod U U_pos). lia.
Qed.

End PlaceShift.

Section Instantiation.

Variable disallow_oversized : bool.
Variable BaseT : IntType.
Variable FirstField : Field.
Variable Fields : list Field.

Hypothesis BaseT_pos : 0 < bits BaseT.
Hypothesis layout_fits :
  fits (bits BaseT) 0 (WidthArr FirstField Fields).

#[local] Abbreviation U := (bits BaseT).
#[local] Abbreviation Ws := (WidthArr FirstField Fields).
#[local] Abbreviation FB := (FieldBeginArr BaseT FirstField Fields).

Lemma WidthArr_lookup I f :
  all_fields FirstField Fields !! I = Some f -> Ws !! I = Some (Width f).
Proof. intros H. unfold Ws, WidthArr. rewrite lookup_map, H. reflexivity. Qed.

Lemma FieldBeginArr_lookup I f :
  all_fields FirstField Fields !! I = Some f ->
  FB !! I = Some (fst (place U (cursor U Ws I) (Width f))) /\
  FB !!! I = fst (place U (cursor U Ws I) (Width f)).
Proof.
  intros H. apply WidthArr_lookup in H.
  pose proof (FieldBegin_lookup U Ws I _ H) as L.
  split; [exact L|]. apply list_lookup_total_correct. exact L.
Qed.

(** The mask recorded for field [I] is the one computed from its begin
    position and width. *)
Lemma MaskArr_lookup Ms I f :
  MaskArr BaseT FirstField Fields = Ok Ms ->
  all_fields FirstField Fields !! I = Some f ->
  Mask1 BaseT (FB !!! I) (Width f) = Ok (Ms !!! I).
Proof.
  intros HM Hf. unfold MaskArr in HM.
  destruct (map_result_lookup _ _ _ HM) as [_ L].
  assert (HI : (I < NFields FirstField Fields)%nat)
    by (eapply lookup_lt_Some; eauto).
  destruct (L I I) as (b & Hb & E).
  { rewrite lookup_seq_lt by exact HI. reflexivity. }
  rewrite (list_lookup_total_correct _ _ _ Hb).
  rewrite (list_lookup_total_correct _ _ _ (WidthArr_lookup _ _ Hf)) in E.
  exact E.
Qed.

Lemma FieldBeginArr_nonneg I f :
  all_fields FirstField Fields !! I = Some f -> 0 <= FB !!! I / U.
Proof.
  intros Hf. apply Z.div_pos; [|lia].
  destruct (FieldBeginArr_lookup I f Hf) as [_ EB].
  destruct (cursor_fits U BaseT_pos Ws I (Width f) layout_fits
              (WidthArr_lookup _ _ Hf)) as (C0 & C1 & C2).
  destruct (place U (cursor U Ws I) (Width f)) as [b c'] eqn:EP.
  destruct (place_bounds U BaseT_pos _ _ _ _ C0 C1 C2 EP) as (? & _).
  cbn [fst] in EB. lia.
Qed.

(** A field of non-zero width whose mask could be computed. *)
Lemma field_placed Ms I f :
  MaskArr BaseT FirstField Fields = Ok Ms ->
  all_fields FirstField Fields !! I = Some f ->
  0 < Width f ->
  placed BaseT (FB !!! I mod U) (Z.min (Width f) U) (Ms !!! I).
Proof.
  intros HM Hf HW.
  destruct (FieldBeginArr_lookup I f Hf) as [_ EB].
  destruct (cursor_fits U BaseT_pos Ws I (Width f) layout_fits
              (WidthArr_lookup _ _ Hf)) as (C0 & C1 & C2).
  constructor.
  - apply Z.mod_pos_bound. exact BaseT_pos.
  - lia.
  - rewrite EB.
    destruct (place U (cursor U Ws I) (Width f)) as [b c'] eqn:EP.
    apply (place_shift_fit U BaseT_pos (cursor U Ws I) (Width f) b c');
      [exact C0|lia|exact C2|exact EP].
  - exact (MaskArr_lookup _ _ _ HM Hf).
Qed.

(** What a successful [get<I>()] tells about the field. *)
Lemma get_at_inv self_const I p :
  get_at disallow_oversized BaseT FirstField Fields self_const I = Ok p ->
  exists f Ms,
    all_fields FirstField Fields !! I = Some f /\
    MaskArr BaseT FirstField Fields = Ok Ms /\
    p = mkProxy (self_const || Fixed f) (FB !!! I mod U) (Ms !!! I)
                (Z.to_nat (FB !!! I / U)) /\
    0 < Width f /\
    0 < wrap BaseT (Ms !!! I) /\
    placed BaseT (FB !!! I mod U) (Z.min (Width f) U) (Ms !!! I).
Proof.
  intros H. unfold get_at in H. inv_bind H.
  destruct (all_fields FirstField Fields !! I) as [f|] eqn:Hf; [|discriminate].
  inv_bind H. inversion H; subst; clear H.
  exists f, a0. split; [reflexivity|]. split; [reflexivity|].
  split; [reflexivity|].
  pose proof (MaskArr_lookup _ _ _ E0 Hf) as HM.
  unfold FieldProxy.instantiate in E1.
  destruct (Z.ltb_spec 0 (wrap BaseT (a0 !!! I))) as [Hpos|]; [|discriminate].
  assert (HW : 0 < Z.min (Width f) U).
  { destruct (Z_lt_le_dec 0 (Z.min (Width f) U)) as [l|l]; [exact l|].
    exfalso. unfold Mask1 in HM. fold U in HM.
    replace (Z.to_nat (Z.min (Width f) U)) with 0%nat in HM by lia.
    simpl in HM. inversion HM as [HM']. rewrite <- HM' in Hpos.
    rewrite wrap_small in Hpos; [lia|exact BaseT_pos|].
    unfold min_val, max_val. pose proof (pow_bits_pos BaseT BaseT_pos).
    pose proof (pow_bits_half BaseT BaseT_pos).
    destruct (is_signed BaseT); lia. }
  split; [lia|]. split; [exact Hpos|].
  destruct (FieldBeginArr_lookup I f Hf) as [_ EB].
  destruct (cursor_fits U BaseT_pos Ws I (Width f) layout_fits
              (WidthArr_lookup _ _ Hf)) as (C0 & C1 & C2).
  constructor.
  - apply Z.mod_pos_bound. exact BaseT_pos.
  - exact HW.
  - fold FB U in EB. rewrite EB.
    destruct (place U (cursor U Ws I) (Width f)) as [b c'] eqn:EP.
    apply (place_shift_fit U BaseT_pos (cursor U Ws I) (Width f) b c');
      [exact C0|lia|exact C2|exact EP].
  - exact HM.
Qed.

End Instantiation.

(** * Fields of one layout do not share bits *)

Section Separation.

Variable U : Z.
Hypothesis U_pos : 0 < U.

(** A later entry begins where an earlier field has ended. *)
Lemma FieldBegin_separated Ws i j bi bj Wi :
  fits U 0 Ws -> (i < j)%nat ->
  FieldBegin U Ws !! i = Some bi -> FieldBegin U Ws !! j = Some bj ->
  Ws !! i = Some Wi ->
  0 <= bi /\ bi + Wi <= bj.
Proof.
  intros HF Hij Hi Hj HWi. unfold FieldBegin in Hi, Hj.
  pose proof (FieldBegin_loop_length U Ws 0) as HL.
  destruct (FieldBegin_loop U Ws 0) as [Bs E] eqn:EL. cbn [fst] in HL.
  destruct (FieldBegin_loop_inv U U_pos Ws 0 Bs E HF EL) as (_ & _ & I3 & I4).
  pose proof (lookup_lt_Some _ _ _ HWi) as Li.
  rewrite lookup_app_l in Hi by lia.
  destruct (I3 i bi Wi Hi HWi) as (P0 & P1 & _). split; [exact P0|].
  destruct (Nat.lt_ge_cases j (length Bs)) as [l|g].
  - rewrite lookup_app_l in Hj by exact l. eapply (I4 i j); eauto.
  - rewrite lookup_app_r in Hj by exact g.
    destruct (j - length Bs)%nat; simpl in Hj; [|discriminate].
    inversion Hj; subst. exact P1.
Qed.

(** Two fields in the same unit: the earlier one ends, within the unit,
    before the later one starts. *)
Lemma same_unit_shift Ws i j bi bj Wi Wj :
  fits U 0 Ws -> (i < j)%nat ->
  FieldBegin U Ws !! i = Some bi -> FieldBegin U Ws !! j = Some bj ->
  Ws !! i = Some Wi -> Ws !! j = Some Wj -> 0 < Wi ->
  bi / U = bj / U ->
  bi mod U + Z.min Wi U <= bj mod U.
Proof.
  intros HF Hij Hi Hj HWi HWj Pi Eq.
  destruct (FieldBegin_separated Ws i j bi bj Wi HF Hij Hi Hj HWi) as [P0 S].
  destruct (cursor_fits U U_pos Ws i Wi HF HWi) as (C0 & _ & C2).
  pose proof (FieldBegin_lookup U Ws i Wi HWi) as L.
  destruct (place U (cursor U Ws i) Wi) as [b c'] eqn:EP. cbn [fst] in L.
  rewrite Hi in L. inversion L; subst b.
  pose proof (place_shift_fit U U_pos _ _ _ _ C0 Pi C2 EP) as SF.
  pose proof (Z.div_mod bi U ltac:(lia)) as Di.
  pose proof (Z.div_mod bj U ltac:(lia)) as Dj.
  pose proof (Z.mod_pos_bound bi U U_pos).
  pose proof (Z.mod_pos_bound bj U U_pos).
  rewrite <- Eq in Dj. lia.
Qed.

End Separation.

(** Masks built at separated positions have no bit in common. *)
Lemma mask_bit_disjoint UT Sh1 n1 M1 Sh2 n2 M2 k :
  placed UT Sh1 n1 M1 -> placed UT Sh2 n2 M2 -> Sh1 + n1 <= Sh2 ->
  mask_bit Sh1 n1 k && mask_bit Sh2 n2 k = false.
Proof.
  intros H1 H2 Hs. pose proof (placed_start UT Sh1 n1 M1 H1).
  pose proof (placed_start UT Sh2 n2 M2 H2).
  destruct H1 as [? ? ? _], H2 as [? ? ? _].
  unfold mask_bit. bool_cases.
Qed.

Lemma masks_disjoint UT Sh1 n1 M1 Sh2 n2 M2 :
  0 < bits UT ->
  placed UT Sh1 n1 M1 -> placed UT Sh2 n2 M2 ->
  (forall k, mask_bit Sh1 n1 k && mask_bit Sh2 n2 k = false) ->
  Z.land M1 M2 = 0.
Proof.
  intros HT H1 H2 Hd.
  rewrite <- (mask_wrapped UT Sh1 n1 M1 HT H1).
  rewrite <- (mask_wrapped UT Sh2 n2 M2 HT H2).
  apply Z.bits_inj'. intros k Hk.
  rewrite Z.bits_0, Z.land_spec, !testbit_wrap by lia.
  destruct (Z.ltb_spec k (bits UT)).
  - rewrite (mask_bits UT Sh1 n1 M1 HT H1), (mask_bits UT Sh2 n2 M2 HT H2) by lia.
    apply Hd.
  - rewrite (mask_bits UT Sh1 n1 M1 HT H1), (mask_bits UT Sh2 n2 M2 HT H2) by lia.
    specialize (Hd (bits UT - 1)). destruct (is_signed UT); [exact Hd|reflexivity].
Qed.

Section LayoutFrame.

Variable disallow_oversized : bool.
Variable BaseT : IntType.
Variable FirstField : Field.
Variable Fields : list Field.

Hypothesis BaseT_pos : 0 < bits BaseT.
Hypothesis layout_fits :
  fits (bits BaseT) 0 (WidthArr FirstField Fields).

#[local] Abbreviation U := (bits BaseT).
#[local] Abbreviation Ws := (WidthArr FirstField Fields).
#[local] Abbreviation FB := (FieldBeginArr BaseT FirstField Fields).

(** Two distinct fields of non-zero width that live in the same unit
    have disjoint masks. *)
Lemma fields_disjoint_bits Ms I J fI fJ k :
  MaskArr BaseT FirstField Fields = Ok Ms ->
  all_fields FirstField Fields !! I = Some fI ->
  all_fields FirstField Fields !! J = Some fJ ->
  I <> J -> 0 < Width fI -> 0 < Width fJ ->
  FB !!! I / U = FB !!! J / U ->
  mask_bit (FB !!! I mod U) (Z.min (Width fI) U) k
  && mask_bit (FB !!! J mod U) (Z.min (Width fJ) U) k = false.
Proof.
  intros HM HI HJ Hne PI PJ Eq.
  pose proof (field_placed BaseT FirstField Fields BaseT_pos layout_fits
                Ms I fI HM HI PI) as PlI.
  pose proof (field_placed BaseT FirstField Fields BaseT_pos layout_fits
                Ms J fJ HM HJ PJ) as PlJ.
  destruct (FieldBeginArr_lookup BaseT FirstField Fields I fI HI) as [LI EI].
  destruct (FieldBeginArr_lookup BaseT FirstField Fields J fJ HJ) as [LJ EJ].
  rewrite <- EI in LI. rewrite <- EJ in LJ.
  pose proof (WidthArr_lookup FirstField Fields I fI HI) as WI.
  pose proof (WidthArr_lookup FirstField Fields J fJ HJ) as WJ.
  destruct (Nat.lt_ge_cases I J) as [l|g].
  - eapply mask_bit_disjoint; eauto.
    eapply (same_unit_shift U BaseT_pos Ws I J); eauto.
  - rewrite andb_comm. eapply mask_bit_disjoint; eauto.
    eapply (same_unit_shift U BaseT_pos Ws J I); eauto. lia.
Qed.

Lemma modify_inv m p D D' :
  modify BaseT m p D = Ok D' ->
  exists u u',
    D !! p_unit p = Some u /\
    FieldProxy.apply BaseT (p_const p) (p_Shift p) (p_Mask p) m u = Ok u' /\
    D' = <[p_unit p := u']> D.
Proof.
  unfold modify. intros H. inv_bind H.
  destruct (D !! p_unit p) as [u|]; [|discriminate].
  inv_bind H. inversion H; subst. eauto.
Qed.

(** A modifying operator applied to field [I] keeps the masked pattern of
    every other field [J] of non-zero width, in the same unit or not. *)
Lemma modify_frame Ms I J fJ p m D D' :
  MaskArr BaseT FirstField Fields = Ok Ms ->
  get_at disallow_oversized BaseT FirstField Fields false I = Ok p ->
  all_fields FirstField Fields !! J = Some fJ ->
  I <> J -> 0 < Width fJ ->
  modify BaseT m p D = Ok D' ->
  length D' = length D /\
  forall u, D !! Z.to_nat (FB !!! J / U) = Some u ->
    exists u', D' !! Z.to_nat (FB !!! J / U) = Some u' /\
      Z.land (wrap BaseT u') (wrap BaseT (Ms !!! J)) =
        Z.land (wrap BaseT u) (wrap BaseT (Ms !!! J)).
Proof.
  intros HM HG HJ Hne PJ HMod.
  destruct (get_at_inv disallow_oversized BaseT FirstField Fields BaseT_pos
              layout_fits false I p HG)
    as (fI & Ms' & HI & HM' & -> & PI & Mpos & PlI).
  rewrite HM in HM'. inversion HM'; subst Ms'. clear HM'.
  destruct (modify_inv m _ D D' HMod) as (u0 & u0' & Hu0 & Happ & ->).
  cbn [p_unit p_const p_Shift p_Mask] in *.
  split; [apply length_insert|].
  intros u Hu.
  destruct (apply_frame BaseT _ _ _ BaseT_pos PlI _ _ _ _ Happ)
    as (_ & Hw & Hf).
  destruct (Nat.eq_dec (Z.to_nat (FB !!! I / U)) (Z.to_nat (FB !!! J / U)))
    as [e|ne].
  - rewrite e in Hu0. rewrite Hu in Hu0. inversion Hu0; subst u0.
    exists u0'. split.
    + rewrite e. apply list_lookup_insert_eq. eapply lookup_lt_Some; eauto.
    + pose proof (field_placed BaseT FirstField Fields BaseT_pos layout_fits
                    Ms J fJ HM HJ PJ) as PlJ.
      eapply frame_pattern; eauto.
      intros k. eapply fields_disjoint_bits; eauto.
      pose proof (FieldBeginArr_nonneg BaseT FirstField Fields BaseT_pos
                    layout_fits I fI HI).
      pose proof (FieldBeginArr_nonneg BaseT FirstField Fields BaseT_pos
                    layout_fits J fJ HJ).
      lia.
  - exists u. split; [|reflexivity].
    rewrite list_lookup_insert_ne by exact ne. exact Hu.
Qed.

End LayoutFrame.

(** * Reading back what was stored *)

(** On a sound base type the conversion operator returns the bits of the
    field, read in the field's logical type. *)
Lemma read_sound UT Sh n M u :
  sound_base UT -> placed UT Sh n M -> 0 < wrap UT M ->
  FieldProxy.read UT Sh M u = Ok (wrap (field_type UT n) (Z.shiftr u Sh)).
Proof.
  intros [[HT HN] HS] HP HM. destruct UT as [b [|]]; simpl in *.
  - specialize (HS eq_refl). subst b. apply read_int; assumption.
  - apply read_unsigned; auto.
Qed.

(** A unit whose masked bits are those of [V] reads as [V] reduced to the
    width of the field. *)
Lemma read_stored UT Sh n M u V :
  sound_base UT -> placed UT Sh n M -> 0 < wrap UT M ->
  (forall k, 0 <= k < bits UT -> mask_bit Sh n k = true ->
     Z.testbit u k = Z.testbit V (k - Sh)) ->
  FieldProxy.read UT Sh M u = Ok (wrap (field_type UT n) V).
Proof.
  intros HS HP HM Hb. rewrite (read_sound UT Sh n M u HS HP HM). f_equal.
  destruct HS as [[HT _] _]. pose proof HP as [H0 H1 H2 _].
  apply wrap_ext; [exact H1|]. simpl bits. intros k Hk.
  rewrite Z.shiftr_spec by lia.
  rewrite Hb by (try apply (mask_bit_field UT Sh n M HP); lia).
  f_equal. lia.
Qed.


(** * Construction burns the defaults in *)

Section Construction.

Variable BaseT : IntType.
Variable FirstField : Field.
Variable Fields : list Field.
Variable Ms : list Z.

Hypothesis BaseT_pos : 0 < bits BaseT.
Hypothesis layout_fits :
  fits (bits BaseT) 0 (WidthArr FirstField Fields).
Hypothesis masks : MaskArr BaseT FirstField Fields = Ok Ms.

#[local] Abbreviation U := (bits BaseT).
#[local] Abbreviation FB := (FieldBeginArr BaseT FirstField Fields).
#[local] Abbreviation fields := (all_fields FirstField Fields).

Lemma width_cases I f :
  fields !! I = Some f -> Width f = 0 \/ 0 < Width f.
Proof.
  intros Hf. destruct layout_fits as (_ & F & _).
  rewrite Forall_forall in F.
  assert (0 <= Width f); [|lia]. apply F.
  eapply list_elem_of_lookup_2. eapply WidthArr_lookup; eauto.
Qed.

Lemma zero_width_mask I f :
  fields !! I = Some f -> Width f = 0 -> Ms !!! I = 0.
Proof.
  intros Hf HW.
  pose proof (MaskArr_lookup BaseT FirstField Fields Ms I f masks Hf) as E.
  rewrite HW in E. unfold Mask1 in E.
  replace (Z.to_nat (Z.min 0 U)) with 0%nat in E by lia.
  simpl in E. inversion E. reflexivity.
Qed.

(** Masks of two fields in one unit never meet, whatever the width of
    the first. *)
Lemma masks_pairwise I J fI fJ b :
  fields !! I = Some fI -> fields !! J = Some fJ ->
  I <> J -> 0 < Width fJ -> FB !!! I / U = FB !!! J / U ->
  0 <= b < U ->
  Z.testbit (Ms !!! I) b && Z.testbit (Ms !!! J) b = false.
Proof.
  intros HI HJ Hne PJ Eq Hb.
  destruct (width_cases I fI HI) as [Z|PI].
  - rewrite (zero_width_mask I fI HI Z), Z.bits_0. reflexivity.
  - pose proof (field_placed BaseT FirstField Fields BaseT_pos layout_fits
                  Ms I fI masks HI PI) as PlI.
    pose proof (field_placed BaseT FirstField Fields BaseT_pos layout_fits
                  Ms J fJ masks HJ PJ) as PlJ.
    rewrite (mask_bits BaseT _ _ _ BaseT_pos PlI) by exact Hb.
    rewrite (mask_bits BaseT _ _ _ BaseT_pos PlJ) by exact Hb.
    eapply fields_disjoint_bits; eauto.
Qed.

Lemma DefaultValueArr_lookup I f :
  fields !! I = Some f ->
  DefaultValueArr BaseT FirstField Fields !!! I = wrap BaseT (DefaultValue f).
Proof.
  intros Hf. apply list_lookup_total_correct.
  unfold DefaultValueArr. rewrite lookup_map, Hf. reflexivity.
Qed.

(** One iteration of the initialiser keeps what is burned and adds the
    default of field [I]. *)
Lemma Data_step_burned D0 D1 I f :
  fields !! I = Some f ->
  Data_step BaseT FirstField Fields Ms D0 I = Ok D1 ->
  burned BaseT FirstField Fields Ms I D0 ->
  length D1 = length D0 /\ burned BaseT FirstField Fields Ms (S I) D1.
Proof.
  intros Hf HS HB. unfold Data_step in HS. cbv zeta in HS.
  unfold FieldTypeBits in HS.
  destruct (D0 !! Z.to_nat (FB !!! I / U)) as [u|] eqn:Eu; [|discriminate].
  inv_bind HS. inversion HS; subst D1; clear HS.
  rewrite (DefaultValueArr_lookup I f Hf) in E.
  split; [apply length_insert|].
  pose proof (bits_promote BaseT) as BP.
  destruct (low_shl (promote BaseT) ltac:(lia) _ _ _ 0 E ltac:(lia)) as [Hs _].
  assert (NB : forall b, 0 <= b < U ->
            Z.testbit
              (wrap BaseT
                 (or (promote BaseT)
                    (and (promote BaseT) (wrap BaseT u)
                       (not (promote BaseT) (wrap BaseT (Ms !!! I))))
                    (and (promote BaseT) a (wrap BaseT (Ms !!! I))))) b =
              if Z.testbit (Ms !!! I) b
              then Z.testbit (DefaultValue f) (b - FB !!! I mod U)
              else Z.testbit u b).
  { intros b Hb. lowbits BaseT.
    destruct (low_shl (promote BaseT) ltac:(lia) _ _ _ b E ltac:(lia)) as [_ ->].
    destruct (Z.testbit (Ms !!! I) b) eqn:Em.
    - rewrite andb_false_r, andb_true_r. cbn [orb].
      destruct (Z_lt_le_dec (b - FB !!! I mod U) 0).
      + rewrite !Z.testbit_neg_r by lia. reflexivity.
      + lowbits BaseT. reflexivity.
    - rewrite andb_false_r, andb_true_r, orb_false_r. reflexivity. }
  intros J fJ HJ HfJ PJ B.
  destruct (Nat.eq_dec J I) as [->|ne].
  - rewrite Hf in HfJ. inversion HfJ; subst fJ. unfold B.
    eexists. split.
    + apply list_lookup_insert_eq. eapply lookup_lt_Some; eauto.
    + intros b Hb Hm. rewrite NB, Hm by exact Hb. reflexivity.
  - destruct (HB J fJ ltac:(lia) HfJ PJ) as (uJ & HuJ & HbJ). fold B in HuJ, HbJ.
    destruct (Nat.eq_dec (Z.to_nat (FB !!! I / U)) (Z.to_nat (B / U))) as [e|n'].
    + rewrite e in Eu. rewrite Eu in HuJ. inversion HuJ; subst uJ.
      eexists. split.
      * rewrite e. apply list_lookup_insert_eq. eapply lookup_lt_Some; eauto.
      * intros b Hb Hm. rewrite NB by exact Hb.
        assert (Eq : FB !!! I / U = B / U).
        { pose proof (FieldBeginArr_nonneg BaseT FirstField Fields BaseT_pos
                        layout_fits I f Hf).
          pose proof (FieldBeginArr_nonneg BaseT FirstField Fields BaseT_pos
                        layout_fits J fJ HfJ). fold B in H0. lia. }
        pose proof (masks_pairwise I J f fJ b Hf HfJ ltac:(lia) PJ Eq Hb) as Dj.
        rewrite Hm, andb_true_r in Dj. rewrite Dj. apply HbJ; assumption.
    + exists uJ. split; [|exact HbJ].
      rewrite list_lookup_insert_ne by exact n'. exact HuJ.
Qed.

Lemma fold_Data_burned len : forall a D0 D,
  (a + len <= length fields)%nat ->
  fold_result (Data_step BaseT FirstField Fields Ms) (seq a len) D0 = Ok D ->
  burned BaseT FirstField Fields Ms a D0 ->
  length D = length D0 /\ burned BaseT FirstField Fields Ms (a + len) D.
Proof.
  induction len as [|len IH]; intros a D0 D Hlen HF HB.
  - simpl in HF. inversion HF; subst. rewrite Nat.add_0_r. auto.
  - cbn [seq fold_result] in HF. inv_bind HF.
    assert (is_Some (fields !! a)) as [f Hf] by (apply lookup_lt_is_Some; lia).
    destruct (Data_step_burned D0 a0 a f Hf E HB) as [L1 B1].
    destruct (IH (S a) a0 D ltac:(lia) HF B1) as [L2 B2].
    split; [congruence|]. replace (a + S len)%nat with (S a + len)%nat by lia.
    exact B2.
Qed.

End Construction.

(** After construction every field holds its default. *)
Lemma Data_burned disallow BaseT FirstField Fields Ms D :
  0 < bits BaseT ->
  fits (bits BaseT) 0 (WidthArr FirstField Fields) ->
  MaskArr BaseT FirstField Fields = Ok Ms ->
  Data disallow BaseT FirstField Fields = Ok D ->
  length D = Z.to_nat (storage_size BaseT FirstField Fields) /\
  burned BaseT FirstField Fields Ms (NFields FirstField Fields) D.
Proof.
  intros HT HF HM HD. unfold Data in HD. inv_bind HD.
  inversion HM; subst a0.
  destruct (fold_Data_burned BaseT FirstField Fields Ms HT HF E0
              (NFields FirstField Fields) 0 _ D ltac:(unfold NFields; lia) HD)
    as [L B].
  - intros J f HJ. lia.
  - rewrite L, length_replicate. split; [reflexivity|exact B].
Qed.

(** A value of the unit type is unchanged by integral promotion. *)
Lemma wrap_promote UT z :
  0 < bits UT -> wrap (promote UT) (wrap UT z) = wrap UT z.
Proof.
  intros HT. destruct (Z.ltb_spec (bits UT) 32) as [l|g].
  - rewrite promote_narrow by exact l. apply wrap_small; [reflexivity|].
    pose proof (wrap_bounds UT HT z) as B. unfold min_val, max_val in *.
    simpl bits. simpl is_signed.
    assert (2 ^ bits UT <= 2 ^ 31) by (apply Z.pow_le_mono_r; lia).
    pose proof (pow_bits_half UT HT). pose proof (pow_bits_pos UT HT).
    change (2 ^ (32 - 1)) with (2 ^ 31).
    destruct (is_signed UT); lia.
  - rewrite promote_wide by exact g. apply wrap_wrap. exact HT.
Qed.


(** * The operators against the contract, on sound base types *)

Section Refinement.

Variable UT : IntType.
Variables Sh n M : Z.
Hypothesis HS : sound_base UT.
Hypothesis HP : placed UT Sh n M.
Hypothesis HM : 0 < wrap UT M.

#[local] Abbreviation PT := (promote UT).

Lemma sound_pos : 0 < bits UT.
Proof. destruct HS as [[H _] _]. exact H. Qed.

Lemma sound_narrow : bits UT <= 32.
Proof. destruct HS as [[_ H] _]. exact H. Qed.

Lemma sound_promote_bits : bits PT = 32.
Proof.
  pose proof sound_pos. pose proof sound_narrow.
  destruct (Z.ltb_spec (bits UT) 32).
  - rewrite promote_narrow by lia. reflexivity.
  - rewrite promote_wide by lia. lia.
Qed.

(** The mask has exactly the bits of the field. *)
Lemma exact_mask_bit k :
  0 <= k < bits UT -> mask_bit Sh n k = (Sh <=? k) && (k <? Sh + n).
Proof.
  intros Hk. pose proof sound_narrow. unfold mask_bit. bool_cases.
Qed.

Lemma spec_mask_bits k :
  0 <= k -> Z.testbit (spec_mask Sh n) k = (Sh <=? k) && (k <? Sh + n).
Proof.
  intros Hk. destruct HP as [H0 H1 _ _]. unfold spec_mask.
  rewrite Z.shiftl_spec by lia.
  destruct (Z.leb_spec Sh k).
  - rewrite Z.ones_spec by lia. case_bool_decide; bool_cases.
  - rewrite Z.testbit_neg_r by lia. reflexivity.
Qed.

Lemma spec_read_bits u j :
  0 <= j ->
  Z.testbit (spec_read UT Sh n u) j =
    if j <? n then Z.testbit u (j + Sh)
    else is_signed UT && Z.testbit u (n - 1 + Sh).
Proof.
  intros Hj. destruct HP as [H0 H1 _ _]. unfold spec_read.
  rewrite testbit_wrap by (simpl; lia). unfold field_type. simpl bits.
  simpl is_signed. rewrite !Z.shiftr_spec by lia. reflexivity.
Qed.

(** The value read is a value of the unit type. *)
Lemma spec_read_wrapped u : wrap UT (spec_read UT Sh n u) = spec_read UT Sh n u.
Proof.
  pose proof sound_pos as HT. destruct HP as [H0 H1 H2 _].
  apply wrap_small; [exact HT|].
  pose proof (wrap_bounds (field_type UT n) H1 (Z.shiftr u Sh)) as B.
  unfold spec_read. unfold min_val, max_val, field_type in *.
  simpl bits in B. simpl is_signed in B.
  assert (2 ^ n <= 2 ^ bits UT) by (apply Z.pow_le_mono_r; lia).
  assert (2 ^ (n - 1) <= 2 ^ (bits UT - 1)) by (apply Z.pow_le_mono_r; lia).
  destruct (is_signed UT); lia.
Qed.

Lemma spec_read_promoted u :
  wrap PT (spec_read UT Sh n u) = spec_read UT Sh n u.
Proof.
  rewrite <- (spec_read_wrapped u) at 1.
  rewrite wrap_promote by apply sound_pos. apply spec_read_wrapped.
Qed.

Lemma read_spec u : FieldProxy.read UT Sh M u = Ok (spec_read UT Sh n u).
Proof. apply read_sound; assumption. Qed.

(** Storing [X] is the write rule applied to any [r] with the same bits
    under the field. *)
Lemma store_spec u XT X r :
  (forall k, Sh <= k < Sh + n -> Z.testbit X k = Z.testbit r (k - Sh)) ->
  FieldProxy.store UT M u XT X = spec_write UT Sh n u r.
Proof.
  intros HX. pose proof sound_pos as HT. pose proof HP as [H0 H1 H2 _].
  rewrite <- (store_wrapped UT M HT u XT X). unfold spec_write.
  apply wrap_ext; [exact HT|]. intros k Hk.
  rewrite (store_bits UT Sh n M HT HP) by exact Hk.
  rewrite exact_mask_bit by exact Hk.
  rewrite Z.lor_spec, !Z.land_spec, Z.lnot_spec, Z.shiftl_spec by lia.
  rewrite spec_mask_bits by lia.
  destruct ((Sh <=? k) && (k <? Sh + n)) eqn:Em.
  - apply andb_true_iff in Em as [A B]. apply Z.leb_le in A.
    apply Z.ltb_lt in B. rewrite HX by lia.
    cbn [negb]. rewrite andb_false_r, andb_true_r. reflexivity.
  - cbn [negb]. rewrite andb_true_r, andb_false_r, orb_false_r. reflexivity.
Qed.

Lemma spec_write_bits u r k :
  0 <= k < bits UT ->
  Z.testbit (spec_write UT Sh n u r) k =
    if (Sh <=? k) && (k <? Sh + n) then Z.testbit r (k - Sh)
    else Z.testbit u k.
Proof.
  intros Hk. pose proof sound_pos as HT. unfold spec_write.
  rewrite testbit_wrap_low by lia.
  rewrite Z.lor_spec, !Z.land_spec, Z.lnot_spec, Z.shiftl_spec by lia.
  rewrite spec_mask_bits by lia.
  destruct ((Sh <=? k) && (k <? Sh + n)); cbn [negb].
  - rewrite andb_false_r, andb_true_r. reflexivity.
  - rewrite andb_true_r, andb_false_r, orb_false_r. reflexivity.
Qed.

Lemma shift_ok : 0 <= Sh < bits PT.
Proof. apply (shift_in_PT UT Sh n M HP). Qed.

Lemma assign_refines u Rhs :
  FieldProxy.assign UT false Sh M u Rhs = Ok (spec_write UT Sh n u Rhs).
Proof.
  pose proof sound_pos as HT. pose proof HP as [H0 H1 H2 _].
  pose proof (bits_promote UT).
  unfold FieldProxy.assign, FieldProxy.writable, FieldProxy.PT. cbn [bind].
  rewrite shl_defined by apply shift_ok. cbn [bind]. f_equal.
  apply store_spec. intros k Hk.
  rewrite testbit_wrap_low, Z.shiftl_spec, testbit_wrap_low by lia.
  reflexivity.
Qed.

(** [+= -= *= /= %=] with an operand that is converted to the promoted
    type of the field without change. *)
Lemma arith_refines o RhsT u Rhs :
  common PT (promote RhsT) = PT -> wrap PT Rhs = Rhs ->
  FieldProxy.arith_assign UT false Sh M o RhsT u Rhs =
    let* r := FieldProxy.apply_arith o PT (spec_read UT Sh n u) Rhs in
    Ok (spec_write UT Sh n u r).
Proof.
  intros HC HR. pose proof HP as [H0 H1 H2 _]. pose proof (bits_promote UT).
  unfold FieldProxy.arith_assign, FieldProxy.writable, FieldProxy.PT.
  cbn [bind]. rewrite read_spec. cbn [bind]. cbv zeta.
  rewrite HC, spec_read_promoted, HR.
  destruct (FieldProxy.apply_arith o PT (spec_read UT Sh n u) Rhs) as [r|];
    [|reflexivity].
  cbn [bind]. rewrite shl_defined by apply shift_ok. cbn [bind]. f_equal.
  apply store_spec. intros k Hk.
  rewrite testbit_wrap_low, Z.shiftl_spec by lia. reflexivity.
Qed.

Lemma and_refines u Rhs :
  FieldProxy.and_assign UT false Sh M u Rhs =
    Ok (spec_write UT Sh n u (and PT (spec_read UT Sh n u) Rhs)).
Proof.
  pose proof sound_pos as HT. pose proof HP as [H0 H1 H2 _].
  pose proof (bits_promote UT).
  unfold FieldProxy.and_assign, FieldProxy.writable, FieldProxy.PT.
  cbn [bind]. rewrite shl_defined by apply shift_ok. cbn [bind]. f_equal.
  unfold spec_write at 1.
  apply wrap_ext; [exact HT|]. intros k Hk.
  pose proof (spec_write_bits u (and PT (spec_read UT Sh n u) Rhs) k Hk) as SB.
  unfold spec_write in SB. rewrite testbit_wrap_low in SB by lia.
  rewrite SB. clear SB. lowbits UT.
  rewrite (mask_bits UT Sh n M HT HP), exact_mask_bit by exact Hk.
  rewrite Z.shiftl_spec by lia.
  destruct ((Sh <=? k) && (k <? Sh + n)) eqn:Em; cbn [negb].
  - apply andb_true_iff in Em as [A B]. apply Z.leb_le in A.
    apply Z.ltb_lt in B. rewrite orb_false_r. lowbits UT.
    rewrite spec_read_bits by lia.
    destruct (Z.ltb_spec (k - Sh) n); [|lia].
    replace (k - Sh + Sh) with k by lia. reflexivity.
  - rewrite orb_true_r. apply andb_true_r.
Qed.

Lemma or_refines u Rhs :
  FieldProxy.or_assign UT false Sh M u Rhs =
    Ok (spec_write UT Sh n u (or PT (spec_read UT Sh n u) Rhs)).
Proof.
  pose proof sound_pos as HT. pose proof HP as [H0 H1 H2 _].
  pose proof (bits_promote UT).
  unfold FieldProxy.or_assign, FieldProxy.writable, FieldProxy.PT.
  cbn [bind]. rewrite shl_defined by apply shift_ok. cbn [bind]. f_equal.
  unfold spec_write at 1.
  apply wrap_ext; [exact HT|]. intros k Hk.
  pose proof (spec_write_bits u (or PT (spec_read UT Sh n u) Rhs) k Hk) as SB.
  unfold spec_write in SB. rewrite testbit_wrap_low in SB by lia.
  rewrite SB. clear SB. lowbits UT.
  rewrite (mask_bits UT Sh n M HT HP), exact_mask_bit by exact Hk.
  rewrite Z.shiftl_spec by lia.
  destruct ((Sh <=? k) && (k <? Sh + n)) eqn:Em.
  - apply andb_true_iff in Em as [A B]. apply Z.leb_le in A.
    apply Z.ltb_lt in B. rewrite andb_true_r. lowbits UT.
    rewrite spec_read_bits by lia.
    destruct (Z.ltb_spec (k - Sh) n); [|lia].
    replace (k - Sh + Sh) with k by lia. reflexivity.
  - rewrite andb_false_r. apply orb_false_r.
Qed.

Lemma xor_refines u Rhs :
  FieldProxy.xor_assign UT false Sh M u Rhs =
    Ok (spec_write UT Sh n u (xor PT (spec_read UT Sh n u) Rhs)).
Proof.
  pose proof sound_pos as HT. pose proof HP as [H0 H1 H2 _].
  pose proof (bits_promote UT).
  unfold FieldProxy.xor_assign, FieldProxy.writable, FieldProxy.PT.
  cbn [bind]. rewrite shl_defined by apply shift_ok. cbn [bind]. f_equal.
  unfold spec_write at 1.
  apply wrap_ext; [exact HT|]. intros k Hk.
  pose proof (spec_write_bits u (xor PT (spec_read UT Sh n u) Rhs) k Hk) as SB.
  unfold spec_write in SB. rewrite testbit_wrap_low in SB by lia.
  rewrite SB. clear SB. lowbits UT.
  rewrite (mask_bits UT Sh n M HT HP), exact_mask_bit by exact Hk.
  rewrite Z.shiftl_spec by lia.
  destruct ((Sh <=? k) && (k <? Sh + n)) eqn:Em; cbn [negb].
  - apply andb_true_iff in Em as [A B]. apply Z.leb_le in A.
    apply Z.ltb_lt in B. rewrite andb_false_r, andb_true_r. cbn [orb].
    lowbits UT. rewrite spec_read_bits by lia.
    destruct (Z.ltb_spec (k - Sh) n); [|lia].
    replace (k - Sh + Sh) with k by lia. reflexivity.
  - rewrite andb_false_r, andb_true_r. apply orb_false_r.
Qed.

Lemma shl_refines u Rhs :
  FieldProxy.shl_assign UT false M u Rhs =
    let* r := shl PT (spec_read UT Sh n u) Rhs in
    Ok (spec_write UT Sh n u r).
Proof.
  pose proof sound_pos as HT. pose proof HP as [H0 H1 H2 _].
  pose proof (bits_promote UT).
  unfold FieldProxy.shl_assign, FieldProxy.writable, FieldProxy.PT.
  cbn [bind]. unfold shl.
  destruct (Z.leb_spec 0 Rhs); [|reflexivity].
  destruct (Z.ltb_spec Rhs (bits PT)); [|reflexivity]. cbn [andb bind].
  f_equal. apply store_spec. intros k Hk.
  rewrite !testbit_wrap_low, !Z.shiftl_spec by lia.
  destruct (Z_lt_le_dec (k - Rhs) 0) as [l|g].
  - rewrite !Z.testbit_neg_r by lia. reflexivity.
  - lowbits UT. rewrite (mask_bits UT Sh n M HT HP), exact_mask_bit by lia.
    destruct (Z_lt_le_dec (k - Sh - Rhs) 0) as [l'|g'].
    + rewrite (Z.testbit_neg_r _ (k - Sh - Rhs)) by lia.
      bool_cases; apply andb_false_r.
    + rewrite spec_read_bits by lia.
      destruct (Z.ltb_spec (k - Sh - Rhs) n); [|lia].
      replace (k - Sh - Rhs + Sh) with (k - Rhs) by lia.
      bool_cases; apply andb_true_r.
Qed.

Lemma shr_unsigned_refines u Rhs :
  is_signed UT = false ->
  FieldProxy.shr_assign UT false Sh M u Rhs =
    let* r := shr PT (spec_read UT Sh n u) Rhs in
    Ok (spec_write UT Sh n u r).
Proof.
  intros HU. pose proof sound_pos as HT. pose proof sound_narrow as HN.
  pose proof HP as [H0 H1 H2 _]. pose proof (bits_promote UT).
  unfold FieldProxy.shr_assign, FieldProxy.writable, FieldProxy.PT.
  cbn [bind]. rewrite HU. cbn [negb]. unfold shr.
  destruct (Z.leb_spec 0 Rhs); [|reflexivity].
  destruct (Z.ltb_spec Rhs (bits PT)); [|reflexivity]. cbn [andb bind].
  f_equal. apply store_spec. intros k Hk.
  rewrite !Z.shiftr_spec by lia.
  rewrite (and_unsigned UT HT HU), Z.land_spec.
  rewrite !testbit_wrap by lia. rewrite HU. cbn [andb].
  rewrite spec_read_bits by lia. rewrite HU. cbn [andb].
  replace (k - Sh + Rhs + Sh) with (k + Rhs) by lia.
  destruct (Z.ltb_spec (k + Rhs) (bits UT)).
  - rewrite (mask_bits UT Sh n M HT HP), exact_mask_bit by lia.
    bool_cases; rewrite ?andb_true_r, ?andb_false_r; reflexivity.
  - bool_cases.
Qed.

End Refinement.

Lemma sound_int32 : sound_base int32_t.
Proof. split; [split; [reflexivity|discriminate]|reflexivity]. Qed.

Lemma shr_int_refines Sh n M u Rhs :
  placed int32_t Sh n M -> 0 < wrap int32_t M ->
  FieldProxy.shr_assign int32_t false Sh M u Rhs =
    let* r := shr (promote int32_t) (spec_read int32_t Sh n u) Rhs in
    Ok (spec_write int32_t Sh n u r).
Proof.
  intros HP HM. pose proof (int_top Sh n M HP HM) as T.
  pose proof HP as [H0 H1 _ _].
  unfold FieldProxy.shr_assign, FieldProxy.writable, FieldProxy.PT.
  cbn [bind]. simpl is_signed. cbn [negb].
  rewrite (read_spec int32_t Sh n M sound_int32 HP HM). cbn [bind].
  change (promote int32_t) with int32_t.
  rewrite shl_defined by (simpl; lia). cbn [bind]. unfold shr.
  destruct (Z.leb_spec 0 Rhs); [|reflexivity].
  destruct (Z.ltb_spec Rhs (bits int32_t)) as [HR|]; [|reflexivity].
  cbn [andb bind]. simpl in HR.
  f_equal. apply (store_spec int32_t Sh n M sound_int32 HP).
  intros k Hk. rewrite !Z.shiftr_spec by lia.
  rewrite testbit_wrap by (simpl; lia). simpl bits. simpl is_signed.
  cbn [andb]. rewrite !Z.shiftl_spec by lia.
  rewrite !(spec_read_bits int32_t Sh n M HP) by lia. simpl is_signed.
  cbn [andb].
  destruct (Z.ltb_spec (k + Rhs) 32).
  - replace (k + Rhs - Sh) with (k - Sh + Rhs) by lia. reflexivity.
  - bool_cases.
Qed.

Lemma common_int P : bits P = 32 -> common P (promote int) = P.
Proof.
  intros H. change (promote int) with int. unfold common. simpl bits.
  rewrite H. simpl. rewrite andb_true_r. destruct P; simpl in *; subst.
  reflexivity.
Qed.

(** On a sound base type every modifying operator of the accessor does
    what the contract says: read, apply the operator, write back. *)
Lemma update_refines_spec UT Sh n M m u :
  sound_base UT -> placed UT Sh n M -> 0 < wrap UT M ->
  typed_operand UT m ->
  FieldProxy.apply UT false Sh M m u = spec_update UT Sh n m u.
Proof.
  intros HS HP HM HO. pose proof (sound_pos UT HS) as HT.
  pose proof (sound_promote_bits UT HS) as HB.
  assert (W1 : wrap (promote UT) 1 = 1).
  { apply wrap_small; [lia|]. unfold min_val, max_val. rewrite HB.
    destruct (is_signed (promote UT)); simpl; lia. }
  assert (INC : forall o,
            FieldProxy.arith_assign UT false Sh M o int u 1 =
              let* r := FieldProxy.apply_arith o (promote UT)
                          (spec_read UT Sh n u) 1 in
              Ok (spec_write UT Sh n u r)).
  { intros o. apply arith_refines; auto. apply common_int. exact HB. }
  unfold spec_update. destruct m; cbn [FieldProxy.apply spec_operator bind].
  - apply assign_refines; assumption.
  - destruct HO as [-> HR]. apply arith_refines; auto.
    + apply common_same.
    + rewrite <- HR. apply wrap_promote. exact HT.
  - apply and_refines; assumption.
  - apply or_refines; assumption.
  - apply xor_refines; assumption.
  - apply shl_refines; assumption.
  - destruct UT as [b [|]].
    + destruct HS as [_ Hb]. simpl in Hb. specialize (Hb eq_refl). subst b.
      apply shr_int_refines; assumption.
    + apply shr_unsigned_refines; auto.
  - apply (INC FieldProxy.Add).
  - apply (INC FieldProxy.Sub).
  - unfold FieldProxy.post_increment, FieldProxy.writable. cbn [bind].
    rewrite (read_spec UT Sh n M HS HP HM). cbn [bind].
    unfold FieldProxy.pre_increment. rewrite (INC FieldProxy.Add).
    cbn [FieldProxy.apply_arith].
    destruct (add (promote UT) (spec_read UT Sh n u) 1); reflexivity.
  - unfold FieldProxy.post_decrement, FieldProxy.writable. cbn [bind].
    rewrite (read_spec UT Sh n M HS HP HM). cbn [bind].
    unfold FieldProxy.pre_decrement. rewrite (INC FieldProxy.Sub).
    cbn [FieldProxy.apply_arith].
    destruct (sub (promote UT) (spec_read UT Sh n u) 1); reflexivity.
Qed.

(** On a sound base type the computed mask of an accessible field is the
    mask of the contract: [n] consecutive bits from [Sh] on. *)
Lemma mask_is_spec_mask UT Sh n M :
  sound_base UT -> placed UT Sh n M -> 0 < wrap UT M -> M = spec_mask Sh n.
Proof.
  intros HS HP HM. pose proof (sound_pos UT HS) as HT.
  pose proof (sound_narrow UT HS) as HN. pose proof HP as [H0 H1 H2 _].
  pose proof (mask_wrapped UT Sh n M HT HP) as W.
  apply Z.bits_inj'. intros k Hk.
  rewrite (spec_mask_bits UT Sh n M HP) by exact Hk.
  rewrite <- W at 1. rewrite testbit_wrap by lia.
  destruct (Z.ltb_spec k (bits UT)).
  - rewrite (mask_bits UT Sh n M HT HP) by lia.
    apply (exact_mask_bit UT Sh n HS). lia.
  - destruct UT as [b [|]]; simpl in *.
    + destruct HS as [_ Hb]. simpl in Hb. specialize (Hb eq_refl). subst b.
      rewrite (int_mask_bits Sh n M HP HM) by lia.
      pose proof (int_top Sh n M HP HM). bool_cases.
    + bool_cases.
Qed.

(** * What holds of the accessors on sound base types *)

(** The unit of a field of non-zero width exists in a storage of
    [dataSize()] units. *)
Lemma unit_in_storage BaseT FirstField Fields I f (D : list Z) :
  0 < bits BaseT ->
  fits (bits BaseT) 0 (WidthArr FirstField Fields) ->
  all_fields FirstField Fields !! I = Some f -> 0 < Width f ->
  length D = Z.to_nat (storage_size BaseT FirstField Fields) ->
  is_Some (D !! Z.to_nat (FieldBeginArr BaseT FirstField Fields !!! I
                          / bits BaseT)).
Proof.
  intros HT HF Hf HW HL. apply lookup_lt_is_Some. rewrite HL.
  destruct (FieldBeginArr_lookup BaseT FirstField Fields I f Hf) as [LI EI].
  rewrite <- EI in LI.
  pose proof (WidthArr_lookup FirstField Fields I f Hf) as WI.
  pose proof (FieldBegin_last (bits BaseT) (WidthArr FirstField Fields)) as LE.
  assert (HI : (I < length (WidthArr FirstField Fields))%nat)
    by (eapply lookup_lt_Some; eauto).
  destruct (FieldBegin_separated (bits BaseT) HT _ I _ _ _ _ HF HI LI LE WI)
    as [B0 B1].
  pose proof (dataSize_ceil (bits BaseT) HT _ HF) as C. cbv zeta in C.
  unfold storage_size, FieldTypeBits.
  set (b := FieldBeginArr BaseT FirstField Fields !!! I) in *.
  set (E := cursor (bits BaseT) (WidthArr FirstField Fields)
              (length (WidthArr FirstField Fields))) in *.
  set (N := dataSize (bits BaseT) (WidthArr FirstField Fields)) in *.
  assert (b / bits BaseT < N).
  { apply Z.div_lt_upper_bound; lia. }
  assert (0 <= b / bits BaseT) by (apply Z.div_pos; lia).
  lia.
Qed.

(** * Construction is defined *)

Lemma map_result_defined {A B : Type} (f : A -> result B) (l : list A) :
  (forall a, a ∈ l -> is_Ok (f a) = true) -> is_Ok (map_result f l) = true.
Proof.
  induction l as [|a l IH]; intros H; [reflexivity|].
  cbn [map_result]. pose proof (H a ltac:(left)) as Ha.
  destruct (f a) as [b|]; [|discriminate]. cbn [bind].
  assert (Hl : is_Ok (map_result f l) = true)
    by (apply IH; intros x Hx; apply H; right; exact Hx).
  destruct (map_result f l); [reflexivity|discriminate].
Qed.

(** On a base type no wider than [int] every mask is computed. *)
Lemma MaskArr_defined BaseT FirstField Fields :
  0 < bits BaseT <= 32 ->
  fits (bits BaseT) 0 (WidthArr FirstField Fields) ->
  is_Ok (MaskArr BaseT FirstField Fields) = true.
Proof.
  intros [HT HN] HF. unfold MaskArr. apply map_result_defined.
  intros I HI. apply elem_of_seq in HI as [_ HI]. cbn in HI.
  assert (is_Some (all_fields FirstField Fields !! I)) as [f Hf]
    by (apply lookup_lt_is_Some; exact HI).
  rewrite (list_lookup_total_correct _ _ _ (WidthArr_lookup _ _ _ _ Hf)).
  unfold Mask1.
  pose proof (Z.mod_pos_bound (FieldBeginArr BaseT FirstField Fields !!! I)
                (bits BaseT) HT) as HB.
  apply Mask_loop_defined; [lia|].
  destruct (width_cases BaseT FirstField Fields HF I f Hf) as [Z|P].
  - rewrite Z. replace (Z.min 0 (bits BaseT)) with 0 by lia. simpl. lia.
  - destruct (FieldBeginArr_lookup BaseT FirstField Fields I f Hf) as [_ EB].
    destruct (cursor_fits (bits BaseT) HT _ I (Width f) HF
                (WidthArr_lookup _ _ _ _ Hf)) as (C0 & C1 & C2).
    destruct (place (bits BaseT)
                (cursor (bits BaseT) (WidthArr FirstField Fields) I) (Width f))
      as [b c'] eqn:EP.
    pose proof (place_shift_fit (bits BaseT) HT _ _ b c' C0 P C2 EP) as S.
    rewrite EB. cbn [fst]. lia.
Qed.




(** * Accessors on the base type [bool] *)

Lemma bool_cast_cases z : BoolBase.cast z = 0 \/ BoolBase.cast z = 1.
Proof. unfold BoolBase.cast. destruct (z =? 0); auto. Qed.

(** On [bool] the mask of a field of non-zero width is [true] wherever
    the field lies. *)
Lemma bool_mask n : forall Sh M,
  0 <= Sh -> Sh + Z.of_nat (S n) <= 32 ->
  BoolBase.Mask_loop (S n) Sh M = Ok 1.
Proof.
  induction n as [|n IH]; intros Sh M H0 H1.
  - cbn [BoolBase.Mask_loop]. rewrite (shl_defined int) by (simpl; lia).
    cbn [bind]. f_equal.
    assert (B : BoolBase.cast (wrap int (Z.shiftl 1 Sh)) = 1).
    { unfold BoolBase.cast.
      destruct (Z.eqb_spec (wrap int (Z.shiftl 1 Sh)) 0) as [e|ne];
        [|reflexivity]. exfalso.
      apply (f_equal (fun x => Z.testbit x Sh)) in e.
      rewrite Z.bits_0, testbit_wrap_low in e by (simpl; lia).
      rewrite Z.shiftl_1_l, Z.pow2_bits_true in e by lia. discriminate. }
    rewrite B. unfold BoolBase.cast.
    destruct (Z.eqb_spec (or int M 1) 0) as [e|ne]; [|reflexivity]. exfalso.
    apply (f_equal (fun x => Z.testbit x 0)) in e.
    rewrite Z.bits_0, low_or in e by (simpl; lia).
    rewrite orb_true_r in e. discriminate.
  - change (BoolBase.Mask_loop (S (S n)) Sh M)
      with (let* b := shl int 1 Sh in
            BoolBase.Mask_loop (S n) (sz (Sh + 1))
              (BoolBase.cast (or int M (BoolBase.cast b)))).
    rewrite (shl_defined int) by (simpl; lia). cbn [bind].
    rewrite sz_word by lia. apply IH; lia.
Qed.

(** On [bool], a field that does not start at bit 0 of its unit cannot
    hold anything: assigning to it stores [false] in the unit, whatever
    the unit held and whatever is assigned, and it reads [false]; a field
    at bit 0 is the whole unit. *)
Lemma bool_field Shift Field Rhs :
  0 <= Shift < 32 ->
  (0 < Shift ->
   BoolBase.assign Shift 1 Field Rhs = Ok 0 /\
   BoolBase.read Shift 1 Field = Ok 0) /\
  (Shift = 0 ->
   BoolBase.assign Shift 1 Field Rhs = Ok (BoolBase.cast Rhs) /\
   BoolBase.read Shift 1 Field = Ok (BoolBase.cast Field)).
Proof.
  intros HS. unfold BoolBase.assign, BoolBase.read.
  rewrite (shl_defined int), (shr_defined int) by (simpl; lia). cbn [bind].
  change (BoolBase.cast 1) with 1.
  split.
  - intros HP.
    assert (E : and int (wrap int (Z.shiftl (BoolBase.cast Rhs) Shift)) 1 = 0).
    { unfold and.
      replace (Z.land (wrap int (Z.shiftl (BoolBase.cast Rhs) Shift)) 1)
        with 0; [reflexivity|].
      symmetry. apply Z.bits_inj'. intros j Hj.
      rewrite Z.bits_0, Z.land_spec.
      destruct (Z.eq_dec j 0) as [->|nj].
      - rewrite testbit_wrap_low by (simpl; lia).
        rewrite Z.shiftl_spec_low by lia. reflexivity.
      - assert (B1 : Z.testbit 1 j = false)
          by (apply (Z.pow2_bits_false 0); lia).
        rewrite B1. apply andb_false_r. }
    rewrite E.
    assert (R : forall c, c = 0 \/ c = 1 ->
                Z.shiftr (and int c 1) Shift = 0).
    { intros c [-> | ->].
      - change (and int 0 1) with 0. apply Z.shiftr_0_l.
      - change (and int 1 1) with 1. apply Z.shiftr_eq_0; cbn; lia. }
    split.
    + destruct (bool_cast_cases Field) as [-> | ->]; reflexivity.
    + rewrite (R _ (bool_cast_cases Field)). reflexivity.
  - intros ->. rewrite Z.shiftl_0_r, Z.shiftr_0_r.
    destruct (bool_cast_cases Field) as [-> | ->],
      (bool_cast_cases Rhs) as [-> | ->]; split; reflexivity.
Qed.

(** [BitField<bool, Field<A, 1>, Field<B, 1>>]: [B] is at bit 1 of the
    only unit; with [A] holding [true], [B = true] leaves [false] in the
    unit, so that [B] reads [false] and [A] too. *)
Lemma bool_base_write_lost :
  FieldBegin 8 [1; 1] = [0; 1; 2] /\ dataSize 8 [1; 1] = 1 /\
  BoolBase.Mask_loop 1 0 0 = Ok 1 /\ BoolBase.Mask_loop 1 1 0 = Ok 1 /\
  BoolBase.instantiate 1 = Ok tt /\
  BoolBase.assign 1 1 1 1 = Ok 0 /\
  BoolBase.read 1 1 0 = Ok 0 /\ BoolBase.read 0 1 0 = Ok 0.
Proof. repeat split. Qed.

(** * Assignment and read-back *)


(** On [int64_t] the conversion operator is never defined: the search
    for the most significant mask bit starts with [1 << 63], an [int]
    shift. *)
(** On [int64_t] the conversion operator is undefined on every field:
    its [MaskMsbOffset] starts with the [int] expression [1 << 63]. *)
Lemma read_int64_undefined Sh M u :
  FieldProxy.read int64_t Sh M u = Fail UB.
Proof. reflexivity. Qed.




(** Every modifying operator on a fixed field is rejected, whatever the
    storage and the operand. *)
Lemma fixed_rejected disallow BaseT FirstField Fields self_const I p f m D :
  get_at disallow BaseT FirstField Fields self_const I = Ok p ->
  all_fields FirstField Fields !! I = Some f -> Fixed f = true ->
  modify BaseT m p D = Fail (Rejected ReadOnlyMember).
Proof.
  intros HG Hf HFx. unfold get_at in HG. inv_bind HG. rewrite Hf in HG.
  inv_bind HG. inversion HG; subst. unfold modify. cbn [p_const].
  rewrite HFx, orb_true_r. reflexivity.
Qed.

(** No accessor is handed out for a zero-width field. *)
Lemma zero_width_rejected disallow BaseT FirstField Fields self_const I f :
  is_Ok (oversized_check disallow BaseT FirstField Fields) = true ->
  is_Ok (MaskArr BaseT FirstField Fields) = true ->
  all_fields FirstField Fields !! I = Some f -> Width f = 0 ->
  get_at disallow BaseT FirstField Fields self_const I =
    Fail (Rejected SizeZeroMember).
Proof.
  intros HO HM Hf HW. unfold get_at.
  destruct (oversized_check disallow BaseT FirstField Fields); [|discriminate].
  destruct (MaskArr BaseT FirstField Fields) as [Ms|] eqn:EM; [|discriminate].
  cbn [bind]. rewrite Hf.
  pose proof (MaskArr_lookup BaseT FirstField Fields Ms I f EM Hf) as E.
  rewrite HW in E. unfold Mask1 in E.
  replace (Z.to_nat (Z.min 0 (bits BaseT))) with 0%nat in E by lia.
  simpl in E. inversion E as [E'].
  unfold FieldProxy.instantiate. unfold wrap.
  rewrite Zmod_0_l. destruct (is_signed BaseT && _); [|reflexivity].
  pose proof (Z.pow_nonneg 2 (bits BaseT) ltac:(lia)).
  destruct (Z.ltb_spec 0 (0 - 2 ^ bits BaseT)); [lia|reflexivity].
Qed.

(** On an unsigned base type every field of non-zero width that is not
    fixed has a writable accessor. *)
Lemma unsigned_accessor disallow BaseT FirstField Fields I f :
  0 < bits BaseT -> is_signed BaseT = false ->
  fits (bits BaseT) 0 (WidthArr FirstField Fields) ->
  is_Ok (oversized_check disallow BaseT FirstField Fields) = true ->
  is_Ok (MaskArr BaseT FirstField Fields) = true ->
  all_fields FirstField Fields !! I = Some f ->
  0 < Width f -> Fixed f = false ->
  exists p, get_at disallow BaseT FirstField Fields false I = Ok p /\
            p_const p = false.
Proof.
  intros HT HU HF HO HM Hf HW HFx. unfold get_at.
  destruct (oversized_check disallow BaseT FirstField Fields); [|discriminate].
  destruct (MaskArr BaseT FirstField Fields) as [Ms|] eqn:EM; [|discriminate].
  cbn [bind]. rewrite Hf.
  pose proof (field_placed BaseT FirstField Fields HT HF Ms I f EM Hf HW) as Pl.
  assert (Mpos : 0 < wrap BaseT (Ms !!! I)).
  { rewrite (mask_wrapped BaseT _ _ _ HT Pl).
    pose proof (mask_wrapped BaseT _ _ _ HT Pl) as W.
    pose proof (wrap_bounds BaseT HT (Ms !!! I)) as B. rewrite W in B.
    unfold min_val in B. rewrite HU in B.
    destruct (Z.eq_dec (Ms !!! I) 0) as [e|ne]; [|lia]. exfalso.
    pose proof Pl as [P0 P1 P2 _].
    assert (HSh : 0 <= FieldBeginArr BaseT FirstField Fields !!! I
                        mod bits BaseT < bits BaseT)
      by (apply Z.mod_pos_bound; lia).
    pose proof (mask_bits BaseT _ _ _ HT Pl _ HSh) as MB.
    rewrite e, Z.bits_0 in MB.
    pose proof (mask_bit_field BaseT _ _ _ Pl 0 ltac:(lia)) as MF.
    rewrite Z.add_0_l in MF. rewrite MF in MB. discriminate. }
  unfold FieldProxy.instantiate.
  destruct (Z.ltb_spec 0 (wrap BaseT (Ms !!! I))); [|lia]. cbn [bind].
  eexists. split; [reflexivity|]. cbn [p_const]. rewrite HFx. reflexivity.
Qed.

(** * The layout planner: alignment, padding, invariants *)

(** C3 (amended).  In a layout whose cursor does not overflow
    [std::size_t] ([fits]: the widths [W_i] satisfy
    [(W_0 + U) + ... + (W_k + U) + U <= 2 ^ 64]), a field of non-zero
    width that would straddle a unit boundary at the current cursor
    begins at the next unit boundary, a field that would not begins at
    the cursor; the number of storage units is the ceiling of the final
    cursor over the unit width.  Fields of 3, 1 and 5 bits over
    [uint8_t] take two units, and writing 2, 0 and 10 leaves the units
    [0b00000010; 0b00001010]. *)
Theorem alignment_and_size (U : Z) (Ws : list Z) (i : nat) (W : Z) :
  0 < U -> fits U 0 Ws -> Ws !! i = Some W -> 0 < W ->
  let c := cursor U Ws i in
  (c / U <> (c + W - 1) / U ->
     exists b, FieldBegin U Ws !! i = Some b /\ b mod U = 0 /\ c <= b < c + U) /\
  (c / U = (c + W - 1) / U -> FieldBegin U Ws !! i = Some c) /\
  (exists E, FieldBegin U Ws !! length Ws = Some E /\
     (dataSize U Ws - 1) * U < E <= dataSize U Ws * U) /\
  (let A := mkField 0 3 0 false in
   let B := mkField 1 1 0 false in
   let C := mkField 2 5 0 false in
   storage_size uint8_t A [B; C] = 2 /\
   (let* D0 := Data false uint8_t A [B; C] in
    let* D1 := set false uint8_t A [B; C] 0 2 D0 in
    let* D2 := set false uint8_t A [B; C] 1 0 D1 in
    set false uint8_t A [B; C] 2 10 D2) = Ok [2; 10]).
Proof.
  intros HU HF HW Hpos c.
  destruct (cursor_fits U HU Ws i W HF HW) as (C0 & C1 & C2). fold c in C0, C2.
  pose proof (FieldBegin_lookup U Ws i W HW) as L. fold c in L.
  rewrite (place_pos U HU) in L by lia. cbv zeta in L. cbn [fst] in L.
  split; [|split; [|split]].
  - intros N. apply Z.eqb_neq in N. rewrite N in L. cbn [negb] in L.
    exists (up U c). split; [exact L|]. split; [apply up_mod; lia|].
    apply up_bounds. lia.
  - intros E. apply Z.eqb_eq in E. rewrite E in L. exact L.
  - exists (cursor U Ws (length Ws)). split; [apply FieldBegin_last|].
    apply dataSize_ceil; assumption.
  - split; reflexivity.
Qed.

Lemma alignment_and_size_witness :
  let c := cursor 8 [3; 1; 5] 2 in
  (c / 8 <> (c + 5 - 1) / 8 ->
     exists b, FieldBegin 8 [3; 1; 5] !! 2%nat = Some b /\ b mod 8 = 0 /\
               c <= b < c + 8) /\
  (c / 8 = (c + 5 - 1) / 8 -> FieldBegin 8 [3; 1; 5] !! 2%nat = Some c) /\
  (exists E, FieldBegin 8 [3; 1; 5] !! length [3; 1; 5] = Some E /\
     (dataSize 8 [3; 1; 5] - 1) * 8 < E <= dataSize 8 [3; 1; 5] * 8) /\
  (let A := mkField 0 3 0 false in
   let B := mkField 1 1 0 false in
   let C := mkField 2 5 0 false in
   storage_size uint8_t A [B; C] = 2 /\
   (let* D0 := Data false uint8_t A [B; C] in
    let* D1 := set false uint8_t A [B; C] 0 2 D0 in
    let* D2 := set false uint8_t A [B; C] 1 0 D1 in
    set false uint8_t A [B; C] 2 10 D2) = Ok [2; 10]).
Proof.
  apply (alignment_and_size 8 [3; 1; 5] 2 5);
    [lia | solve_fits | reflexivity | lia].
Defined.

(** C3, as stated, fails when the cursor overflows [std::size_t]: over
    8-bit units a field of [2 ^ 64 - 4] bits at cursor 5 straddles unit
    boundaries, yet the test for it wraps around and the field begins at
    bit 5 (the next field then begins at bit 1, inside the first one);
    and a single field of [2 ^ 64 - 1] bits gets no storage unit at
    all. *)
Lemma alignment_and_size_counterexample :
  (let Ws := [5; 2 ^ 64 - 4; 2] in
   cursor 8 Ws 1 = 5 /\
   5 / 8 <> (5 + (2 ^ 64 - 4) - 1) / 8 /\
   FieldBegin 8 Ws = [0; 5; 1; 3] /\ 5 mod 8 <> 0 /\
   ~ fits 8 0 Ws) /\
  (let Ws := [2 ^ 64 - 1] in
   FieldBegin 8 Ws = [0; 2 ^ 64 - 1] /\
   dataSize 8 Ws = 0 /\
   ~ (2 ^ 64 - 1 <= dataSize 8 Ws * 8) /\
   ~ fits 8 0 Ws).
Proof.
  cbv zeta. repeat split; try (vm_compute; congruence).
  all: unfold fits; intros (_ & _ & H); vm_compute in H; congruence.
Qed.

(** C4 (amended).  In a layout whose cursor does not overflow
    [std::size_t] ([fits]: the widths [W_i] satisfy
    [(W_0 + U) + ... + (W_k + U) + U <= 2 ^ 64]), a zero-width
    descriptor moves the cursor up to the next multiple of the unit
    width and nowhere if it already is one; its own mask is empty;
    whatever the width of the descriptor after it, that one begins at
    the aligned cursor. *)
Theorem zero_width_padding (U : Z) (Ws : list Z) (i : nat) :
  0 < U -> fits U 0 Ws -> Ws !! i = Some 0 ->
  let c := cursor U Ws i in
  let c' := cursor U Ws (S i) in
  (c' mod U = 0 /\ c <= c' < c + U) /\
  (c mod U = 0 -> c' = c) /\
  FieldBegin U Ws !! i = Some c /\
  (forall UT b, Mask1 UT b 0 = Ok 0) /\
  (forall W, Ws !! S i = Some W -> FieldBegin U Ws !! S i = Some c') /\
  (let A := mkField 0 3 0 false in
   let B := mkField 1 1 0 false in
   let P := Padding 2147483647 0 in
   let C := mkField 2 1 0 false in
   FieldBeginArr uint8_t A [B; P; C] = [0; 3; 4; 8; 9] /\
   storage_size uint8_t A [B; P; C] = 2 /\
   (let* D0 := Data false uint8_t A [B; P; C] in
    let* D1 := set false uint8_t A [B; P; C] 0 2 D0 in
    let* D2 := set false uint8_t A [B; P; C] 1 0 D1 in
    set false uint8_t A [B; P; C] 2 1 D2) = Ok [2; 1]).
Proof.
  intros HU HF HW c c'.
  destruct (cursor_fits U HU Ws i 0 HF HW) as (C0 & _ & C2). fold c in C0, C2.
  assert (E' : c' = up U c).
  { unfold c'. rewrite (cursor_S U Ws i 0 HW). fold c.
    rewrite (place_zero U HU) by lia. reflexivity. }
  pose proof (up_bounds U HU c) as UB. pose proof (up_mod U HU c) as UM.
  split; [rewrite E'; split; [exact UM|lia]|].
  split; [intros A; rewrite E'; apply up_aligned; assumption|].
  split.
  { rewrite (FieldBegin_lookup U Ws i 0 HW). fold c.
    rewrite (place_zero U HU) by lia. reflexivity. }
  split.
  { intros UT b. unfold Mask1.
    replace (Z.to_nat (Z.min 0 (bits UT))) with 0%nat by lia. reflexivity. }
  split; [|repeat split].
  intros W HW'.
  destruct (cursor_fits U HU Ws (S i) W HF HW') as (D0 & D1 & D2).
  fold c' in D0, D2.
  rewrite (FieldBegin_lookup U Ws (S i) W HW'). fold c'. f_equal.
  assert (A' : c' mod U = 0) by (rewrite E'; exact UM).
  destruct (Z.eq_dec W 0) as [->|n].
  - rewrite (place_zero U HU) by lia. reflexivity.
  - rewrite (place_pos U HU) by lia. cbv zeta. cbn [fst].
    destruct (negb (c' / U =? (c' + W - 1) / U)); [|reflexivity].
    apply up_aligned; assumption.
Qed.

Lemma zero_width_padding_witness :
  let c := cursor 8 [3; 1; 0; 1] 2 in
  let c' := cursor 8 [3; 1; 0; 1] 3 in
  (c' mod 8 = 0 /\ c <= c' < c + 8) /\
  (c mod 8 = 0 -> c' = c) /\
  FieldBegin 8 [3; 1; 0; 1] !! 2%nat = Some c /\
  (forall UT b, Mask1 UT b 0 = Ok 0) /\
  (forall W, [3; 1; 0; 1] !! 3%nat = Some W ->
     FieldBegin 8 [3; 1; 0; 1] !! 3%nat = Some c') /\
  (let A := mkField 0 3 0 false in
   let B := mkField 1 1 0 false in
   let P := Padding 2147483647 0 in
   let C := mkField 2 1 0 false in
   FieldBeginArr uint8_t A [B; P; C] = [0; 3; 4; 8; 9] /\
   storage_size uint8_t A [B; P; C] = 2 /\
   (let* D0 := Data false uint8_t A [B; P; C] in
    let* D1 := set false uint8_t A [B; P; C] 0 2 D0 in
    let* D2 := set false uint8_t A [B; P; C] 1 0 D1 in
    set false uint8_t A [B; P; C] 2 1 D2) = Ok [2; 1]).
Proof.
  apply (zero_width_padding 8 [3; 1; 0; 1] 2); [lia | solve_fits | reflexivity].
Defined.

(** C4, as stated, fails when the cursor overflows [std::size_t]: over
    8-bit units, after a field of [2 ^ 64 - 3] bits a zero-width
    descriptor sends the cursor to 0 instead of up to the next multiple
    of 8, and the field after it begins at bit 0, where the first field
    begins. *)
Lemma zero_width_padding_counterexample :
  let Ws := [2 ^ 64 - 3; 0; 1] in
  Ws !! 1%nat = Some 0 /\
  FieldBegin 8 Ws = [0; 2 ^ 64 - 3; 0; 1] /\
  cursor 8 Ws 1 = 2 ^ 64 - 3 /\ cursor 8 Ws 2 = 0 /\
  ~ (cursor 8 Ws 1 <= cursor 8 Ws 2) /\
  ~ fits 8 0 Ws.
Proof.
  cbv zeta. repeat split; try (vm_compute; congruence).
  unfold fits; intros (_ & _ & H); vm_compute in H; congruence.
Qed.

(** C6 (amended).  In a layout whose cursor does not overflow
    [std::size_t] ([fits]: the widths [W_i] satisfy
    [(W_0 + U) + ... + (W_k + U) + U <= 2 ^ 64]), the begin positions of
    the layout table never decrease, the bit ranges of two fields of
    non-zero width never overlap, and a field of non-zero width no
    larger than the unit lies within one storage unit.  A field wider
    than the unit is accepted unless
    [ORDERED_BIT_FIELD_DISALLOW_OVERSIZED_FIELD] is set (then every
    accepted field of non-zero width lies within one unit); when
    accepted it begins on a unit boundary and runs past that unit. *)
Theorem layout_invariants (disallow : bool) (BaseT : IntType)
    (FirstField : Field) (Fields : list Field) :
  0 < bits BaseT ->
  fits (bits BaseT) 0 (WidthArr FirstField Fields) ->
  let U := FieldTypeBits BaseT in
  let Ws := WidthArr FirstField Fields in
  let B := FieldBeginArr BaseT FirstField Fields in
  (forall i j bi bj, (i <= j)%nat ->
     B !! i = Some bi -> B !! j = Some bj -> bi <= bj) /\
  (forall i j bi bj Wi Wj, i <> j ->
     B !! i = Some bi -> B !! j = Some bj ->
     Ws !! i = Some Wi -> Ws !! j = Some Wj -> 0 < Wi -> 0 < Wj ->
     bi + Wi <= bj \/ bj + Wj <= bi) /\
  (forall i b W, B !! i = Some b -> Ws !! i = Some W ->
     0 < W <= U -> b / U = (b + W - 1) / U) /\
  (disallow = true ->
   oversized_check disallow BaseT FirstField Fields = Ok tt ->
   forall i b W, B !! i = Some b -> Ws !! i = Some W ->
     0 < W -> b / U = (b + W - 1) / U) /\
  (disallow = false ->
   oversized_check disallow BaseT FirstField Fields = Ok tt) /\
  (forall i b W, B !! i = Some b -> Ws !! i = Some W ->
     U < W -> b mod U = 0 /\ b / U < (b + W - 1) / U).
Proof.
  intros HU HF U Ws B.
  assert (S5 : forall i b W, B !! i = Some b -> Ws !! i = Some W ->
             U < W -> b mod U = 0 /\ b / U < (b + W - 1) / U).
  { intros i b W Hb HW HWU. unfold B, FieldBeginArr in Hb. fold U Ws in Hb.
    rewrite (FieldBegin_lookup U Ws i W HW) in Hb.
    destruct (cursor_fits U HU Ws i W HF HW) as (C0 & C1 & C2).
    rewrite (place_pos U HU) in Hb by (unfold U, FieldTypeBits in *; lia).
    cbv zeta in Hb. cbn [fst] in Hb.
    assert (N : cursor U Ws i / U <> (cursor U Ws i + W - 1) / U).
    { assert (cursor U Ws i / U + 1 <= (cursor U Ws i + W - 1) / U); [|lia].
      replace (cursor U Ws i / U + 1) with ((cursor U Ws i + 1 * U) / U)
        by (rewrite Z.div_add by (unfold U, FieldTypeBits in *; lia);
            reflexivity).
      apply Z.div_le_mono; unfold U, FieldTypeBits in *; lia. }
    apply Z.eqb_neq in N. rewrite N in Hb. cbn [negb] in Hb.
    inversion Hb; subst b. split; [apply up_mod; exact HU|].
    pose proof (up_mod U HU (cursor U Ws i)) as UM.
    set (b := up U (cursor U Ws i)) in *.
    assert (b / U + 1 <= (b + W - 1) / U); [|lia].
    replace (b / U + 1) with ((b + 1 * U) / U)
      by (rewrite Z.div_add by (unfold U, FieldTypeBits in *; lia);
          reflexivity).
    apply Z.div_le_mono; unfold U, FieldTypeBits in *; lia. }
  revert S5. unfold B, FieldBeginArr, FieldBegin. fold U Ws. intros S5.
  pose proof (FieldBegin_loop_length U Ws 0) as HL.
  destruct (FieldBegin_loop U Ws 0) as [Bs E] eqn:EL. cbn [fst] in HL.
  destruct (FieldBegin_loop_inv U HU Ws 0 Bs E HF EL) as (I1 & I2 & I3 & I4).
  assert (WN : forall i W, Ws !! i = Some W -> 0 <= W).
  { destruct HF as (_ & F & _). intros i W H.
    rewrite Forall_forall in F. apply F.
    eapply list_elem_of_lookup_2; eauto. }
  assert (LK : forall i b, (Bs ++ [E]) !! i = Some b ->
             ((i < length Ws)%nat /\ Bs !! i = Some b) \/
             (i = length Ws /\ b = E)).
  { intros i b H. destruct (Nat.lt_ge_cases i (length Bs)) as [l|g].
    - rewrite lookup_app_l in H by exact l. left. split; [lia|exact H].
    - rewrite lookup_app_r in H by exact g.
      destruct (i - length Bs)%nat as [|k] eqn:Ek; simpl in H; [|discriminate].
      inversion H; subst. right. split; [lia|reflexivity]. }
  assert (WK : forall i, (i < length Ws)%nat -> exists W, Ws !! i = Some W).
  { intros i Hi. apply lookup_lt_is_Some in Hi. destruct Hi as [W HW]. eauto. }
  assert (S3 : forall i b W, (Bs ++ [E]) !! i = Some b -> Ws !! i = Some W ->
             0 < W <= U -> b / U = (b + W - 1) / U).
  { intros i b W Hb HW HWU. destruct (LK _ _ Hb) as [[_ Hb']|[-> ->]].
    - destruct (I3 i b W Hb' HW) as (_ & _ & S). apply S. exact HWU.
    - apply lookup_lt_Some in HW. lia. }
  split; [|split; [|split; [|split; [|split]]]].
  - intros i j bi bj Hij Hi Hj.
    destruct (LK _ _ Hi) as [[Li Hi']|[-> ->]];
      destruct (LK _ _ Hj) as [[Lj Hj']|[-> ->]]; try lia.
    + destruct (WK i Li) as [Wi HWi]. pose proof (WN _ _ HWi).
      destruct (Nat.eq_dec i j) as [->|ne];
        [rewrite Hi' in Hj'; inversion Hj'; lia|].
      pose proof (I4 i j bi bj Wi ltac:(lia) Hi' Hj' HWi). lia.
    + destruct (WK i Li) as [Wi HWi]. pose proof (WN _ _ HWi).
      destruct (I3 i bi Wi Hi' HWi) as (_ & ? & _). lia.
  - intros i j bi bj Wi Wj Hne Hi Hj HWi HWj Pi Pj.
    destruct (LK _ _ Hi) as [[Li Hi']|[-> ->]];
      [|apply lookup_lt_Some in HWi; lia].
    destruct (LK _ _ Hj) as [[Lj Hj']|[-> ->]];
      [|apply lookup_lt_Some in HWj; lia].
    destruct (Nat.lt_ge_cases i j) as [l|g].
    + left. eapply (I4 i j); eauto.
    + right. eapply (I4 j i); eauto. lia.
  - exact S3.
  - intros -> HC i b W Hb HW HWp. apply (S3 i b W Hb HW). split; [exact HWp|].
    unfold oversized_check in HC. cbn [andb] in HC.
    destruct (forallb (fun f => Width f <=? FieldTypeBits BaseT)
                (all_fields FirstField Fields)) eqn:EF; [|discriminate].
    rewrite forallb_forall in EF. unfold Ws, WidthArr in HW.
    rewrite lookup_map in HW.
    destruct (all_fields FirstField Fields !! i) as [f|] eqn:Ef; [|discriminate].
    simpl in HW. inversion HW; subst.
    apply Z.leb_le. apply EF. eapply list_elem_of_In.
    eapply list_elem_of_lookup_2; eauto.
  - intros ->. reflexivity.
  - exact S5.
Qed.

Lemma layout_invariants_witness :
  let BaseT := uint8_t in
  let FirstField := mkField 0 3 0 false in
  let Fields := [mkField 1 1 0 false; mkField 2 5 0 false] in
  let U := FieldTypeBits BaseT in
  let Ws := WidthArr FirstField Fields in
  let B := FieldBeginArr BaseT FirstField Fields in
  (forall i j bi bj, (i <= j)%nat ->
     B !! i = Some bi -> B !! j = Some bj -> bi <= bj) /\
  (forall i j bi bj Wi Wj, i <> j ->
     B !! i = Some bi -> B !! j = Some bj ->
     Ws !! i = Some Wi -> Ws !! j = Some Wj -> 0 < Wi -> 0 < Wj ->
     bi + Wi <= bj \/ bj + Wj <= bi) /\
  (forall i b W, B !! i = Some b -> Ws !! i = Some W ->
     0 < W <= U -> b / U = (b + W - 1) / U) /\
  (true = true ->
   oversized_check true BaseT FirstField Fields = Ok tt ->
   forall i b W, B !! i = Some b -> Ws !! i = Some W ->
     0 < W -> b / U = (b + W - 1) / U) /\
  (true = false ->
   oversized_check true BaseT FirstField Fields = Ok tt) /\
  (forall i b W, B !! i = Some b -> Ws !! i = Some W ->
     U < W -> b mod U = 0 /\ b / U < (b + W - 1) / U).
Proof.
  apply (layout_invariants true uint8_t (mkField 0 3 0 false)
           [mkField 1 1 0 false; mkField 2 5 0 false]);
    [reflexivity | solve_fits].
Defined.

(** C6, as stated, fails on a field wider than the unit, which the
    default configuration accepts: a 9-bit field over [uint8_t] begins at
    bit 0 and ends in the second unit. *)
Lemma layout_invariants_counterexample :
  let F := mkField 0 9 0 false in
  Data false uint8_t F [] = Ok [0; 0] /\
  fits 8 0 (WidthArr F []) /\
  FieldBeginArr uint8_t F [] !! 0%nat = Some 0 /\
  WidthArr F [] !! 0%nat = Some 9 /\
  0 / 8 <> (0 + 9 - 1) / 8.
Proof.
  cbv zeta. split; [reflexivity|]. split; [solve_fits|].
  split; [reflexivity|]. split; [reflexivity|]. discriminate.
Qed.

(** * Accessors: disjointness and frame *)

(** C2 (amended).  Over an integer base type other than [bool], in a
    layout whose cursor does not overflow [std::size_t] ([fits]: the
    widths [W_i] satisfy [(W_0 + U) + ... + (W_k + U) + U <= 2 ^ 64])
    and whose masks are defined, two distinct fields of non-zero width
    occupy disjoint bit ranges and their masks, each taken in the unit
    of its field, select disjoint bits of the storage (in particular the
    masks of two fields that share a unit have no bit in common);
    assignment and every compound operator applied to one of them leaves
    the masked pattern of the other as it was, in the same unit or in
    another one, so that the other field reads as before. *)
Theorem disjoint_fields_frame (disallow : bool) (BaseT : IntType)
    (FirstField : Field) (Fields : list Field)
    (Ms : list Z) (I J : nat) (fI fJ : Field) :
  0 < bits BaseT ->
  fits (bits BaseT) 0 (WidthArr FirstField Fields) ->
  MaskArr BaseT FirstField Fields = Ok Ms ->
  all_fields FirstField Fields !! I = Some fI ->
  all_fields FirstField Fields !! J = Some fJ ->
  I <> J -> 0 < Width fI -> 0 < Width fJ ->
  let U := FieldTypeBits BaseT in
  let bI := FieldBeginArr BaseT FirstField Fields !!! I in
  let bJ := FieldBeginArr BaseT FirstField Fields !!! J in
  (bI + Width fI <= bJ \/ bJ + Width fJ <= bI) /\
  (bI / U = bJ / U -> Z.land (Ms !!! I) (Ms !!! J) = 0) /\
  (forall k,
     selects BaseT FirstField Fields Ms I k
     && selects BaseT FirstField Fields Ms J k = false) /\
  (forall p m D D',
     get_at disallow BaseT FirstField Fields false I = Ok p ->
     modify BaseT m p D = Ok D' ->
     length D' = length D /\
     (forall u, D !! Z.to_nat (bJ / U) = Some u ->
        exists u', D' !! Z.to_nat (bJ / U) = Some u' /\
          Z.land (wrap BaseT u') (Ms !!! J) = Z.land (wrap BaseT u) (Ms !!! J)) /\
     (forall self_const q,
        get_at disallow BaseT FirstField Fields self_const J = Ok q ->
        load BaseT q D' = load BaseT q D)).
Proof.
  intros HT HF HM HI HJ Hne PI PJ U bI bJ.
  pose proof (field_placed BaseT FirstField Fields HT HF Ms I fI HM HI PI) as PlI.
  pose proof (field_placed BaseT FirstField Fields HT HF Ms J fJ HM HJ PJ) as PlJ.
  destruct (FieldBeginArr_lookup BaseT FirstField Fields I fI HI) as [LI EI].
  destruct (FieldBeginArr_lookup BaseT FirstField Fields J fJ HJ) as [LJ EJ].
  rewrite <- EI in LI. rewrite <- EJ in LJ. fold bI in LI. fold bJ in LJ.
  pose proof (WidthArr_lookup FirstField Fields I fI HI) as WI.
  pose proof (WidthArr_lookup FirstField Fields J fJ HJ) as WJ.
  pose proof (mask_wrapped BaseT _ _ _ HT PlJ) as MW.
  split; [|split; [|split]].
  - destruct (Nat.lt_ge_cases I J) as [l|g].
    + left. eapply (FieldBegin_separated (bits BaseT) HT _ I J); eauto.
    + right. eapply (FieldBegin_separated (bits BaseT) HT _ J I); eauto. lia.
  - intros Eq. eapply (masks_disjoint BaseT); eauto.
    intros k. eapply fields_disjoint_bits; eauto.
  - intros k. unfold selects, FieldTypeBits. fold bI bJ.
    destruct (Z.eqb_spec (k / bits BaseT) (bI / bits BaseT)) as [e1|n1];
      [|reflexivity].
    destruct (Z.eqb_spec (k / bits BaseT) (bJ / bits BaseT)) as [e2|n2];
      [|apply andb_false_r].
    cbn [andb].
    pose proof (Z.mod_pos_bound k (bits BaseT) HT) as Hk.
    rewrite (mask_bits BaseT _ _ _ HT PlI), (mask_bits BaseT _ _ _ HT PlJ)
      by exact Hk.
    eapply fields_disjoint_bits; eauto. fold bI bJ. congruence.
  - intros p m D D' HG HMod.
    destruct (modify_frame disallow BaseT FirstField Fields HT HF
                Ms I J fJ p m D D' HM HG HJ Hne PJ HMod) as [HLen HPat].
    rewrite MW in HPat. split; [exact HLen|]. split; [exact HPat|].
    intros sc q HGq.
    destruct (get_at_inv disallow BaseT FirstField Fields HT HF sc J q HGq)
      as (fJ' & Ms' & HJ' & HM' & -> & _ & _ & _).
    rewrite HM in HM'. inversion HM'; subst Ms'.
    unfold load. cbn [p_unit p_Shift p_Mask].
    destruct (D !! Z.to_nat (FieldBeginArr BaseT FirstField Fields !!! J
                              / bits BaseT)) as [u|] eqn:Eu.
    + destruct (HPat u eq_refl) as (u' & -> & EP).
      apply read_pattern. rewrite MW. exact EP.
    + apply lookup_ge_None in Eu. rewrite <- HLen in Eu.
      apply lookup_ge_None in Eu. fold U bJ in Eu. fold U bJ.
      rewrite Eu. reflexivity.
Qed.

Lemma disjoint_fields_frame_witness :
  let BaseT := uint8_t in
  let FirstField := mkField 0 3 0 false in
  let Fields := [mkField 1 1 0 false; mkField 2 5 0 false] in
  let Ms := [7; 8; 31] in
  let fI := mkField 0 3 0 false in
  let fJ := mkField 1 1 0 false in
  let U := FieldTypeBits BaseT in
  let bI := FieldBeginArr BaseT FirstField Fields !!! 0%nat in
  let bJ := FieldBeginArr BaseT FirstField Fields !!! 1%nat in
  (bI + Width fI <= bJ \/ bJ + Width fJ <= bI) /\
  (bI / U = bJ / U -> Z.land (Ms !!! 0%nat) (Ms !!! 1%nat) = 0) /\
  (forall k,
     selects BaseT FirstField Fields Ms 0 k
     && selects BaseT FirstField Fields Ms 1 k = false) /\
  (forall p m D D',
     get_at false BaseT FirstField Fields false 0 = Ok p ->
     modify BaseT m p D = Ok D' ->
     length D' = length D /\
     (forall u, D !! Z.to_nat (bJ / U) = Some u ->
        exists u', D' !! Z.to_nat (bJ / U) = Some u' /\
          Z.land (wrap BaseT u') (Ms !!! 1%nat) =
            Z.land (wrap BaseT u) (Ms !!! 1%nat)) /\
     (forall self_const q,
        get_at false BaseT FirstField Fields self_const 1 = Ok q ->
        load BaseT q D' = load BaseT q D)).
Proof.
  apply (disjoint_fields_frame false uint8_t (mkField 0 3 0 false)
           [mkField 1 1 0 false; mkField 2 5 0 false] [7; 8; 31] 0 1
           (mkField 0 3 0 false) (mkField 1 1 0 false));
    [ reflexivity | solve_fits | reflexivity | reflexivity | reflexivity
    | discriminate | reflexivity | reflexivity ].
Defined.

(** C2, as stated, fails when the cursor overflows [std::size_t]: in
    [BitField<uint8_t, Field<A, 5>, Field<B, 2 ^ 64 - 4>, Field<C, 2>>]
    the cursor is 1 after [B], so that [C] takes bits 1 and 2 of the
    unit, inside [A]; the masks of [A] and [C] share these bits, and
    assigning 0 to [A] makes [C], which held 3, read 0.  (It fails as
    well on the base type [bool], where every mask is [true], see
    [bool_base_write_lost].) *)
Lemma disjoint_fields_frame_counterexample :
  let A := mkField 0 5 0 false in
  let B := mkField 1 (2 ^ 64 - 4) 0 false in
  let C := mkField 2 2 0 false in
  FieldBeginArr uint8_t A [B; C] = [0; 5; 1; 3] /\
  MaskArr uint8_t A [B; C] = Ok [31; 224; 6] /\
  Z.land 31 6 = 6 /\
  (let* D0 := Data false uint8_t A [B; C] in
   let* D1 := set false uint8_t A [B; C] 2 3 D0 in
   value false uint8_t A [B; C] 2 D1) = Ok 3 /\
  (let* D0 := Data false uint8_t A [B; C] in
   let* D1 := set false uint8_t A [B; C] 2 3 D0 in
   let* D2 := set false uint8_t A [B; C] 0 0 D1 in
   value false uint8_t A [B; C] 2 D2) = Ok 0 /\
  ~ fits 8 0 (WidthArr A [B; C]).
Proof.
  cbv zeta. repeat split; try (vm_compute; congruence).
  unfold fits; intros (_ & _ & H); vm_compute in H; congruence.
Qed.

(** * Default materialisation *)




(** * Accessors on a signed base type narrower than [int] *)

(** On [BitField<int8_t, Field<A, 4>, Field<B, 4>>] the value [-3] is
    representable in the four bits of [A], yet assigning it and reading
    [A] back yields [13]: the conversion operator shifts in [int], so the
    sign bit of the field is never restored.  The same steps on
    [int32_t] give [-3] back, and [13] is read back on [uint8_t]. *)
Lemma narrow_signed_read_back :
  let A := mkField 0 4 0 false in
  let B := mkField 1 4 0 false in
  let read_back BaseT V :=
    let* D0 := Data false BaseT A [B] in
    let* D1 := set false BaseT A [B] 0 V D0 in
    value false BaseT A [B] 0 D1 in
  in_range (field_type int8_t 4) (-3) = true /\
  read_back int8_t (-3) = Ok 13 /\
  read_back int16_t (-3) = Ok 13 /\
  read_back int32_t (-3) = Ok (-3) /\
  read_back uint8_t 13 = Ok 13.
Proof. repeat split. Qed.

(** C7.  On [BitField<int8_t, Field<A, 4>, Field<B, 4>>] with [A] holding
    the pattern of [-3], [A /= 2] stores [6]: the operator divides the
    value it reads, [13], whereas the contract divides the sign-extended
    value [-3] and stores the pattern of [-1], which is [15].  On
    [int32_t] the operator stores [15]. *)
Theorem compound_divide_narrow_signed :
  let A := mkField 0 4 0 false in
  let B := mkField 1 4 0 false in
  let halve := FieldProxy.ArithAssign FieldProxy.Div in
  (let* p := get false int8_t A [B] false 0 in
   modify int8_t (halve int8_t 2) p [13]) = Ok [6] /\
  FieldProxy.read int8_t 0 15 13 = Ok 13 /\
  spec_read int8_t 0 4 13 = -3 /\
  spec_update int8_t 0 4 (halve int8_t 2) 13 = Ok 15 /\
  (let* p := get false int32_t A [B] false 0 in
   modify int32_t (halve int32_t 2) p [13]) = Ok [15].
Proof. repeat split. Qed.

(** C8.  On the same layout with [A] holding the pattern of [-4],
    [A >>= 1] stores [6], a logical shift of the four bits, whereas the
    contract shifts the sign-extended value [-4] arithmetically and
    stores the pattern of [-2], which is [14].  On [int32_t] the operator
    stores [14]; on [uint8_t] the raw pattern [12] is shifted to [6]. *)
Theorem shift_right_narrow_signed :
  let A := mkField 0 4 0 false in
  let B := mkField 1 4 0 false in
  let shift BaseT :=
    let* p := get false BaseT A [B] false 0 in
    modify BaseT (FieldProxy.ShrAssign 1) p [12] in
  shift int8_t = Ok [6] /\
  spec_read int8_t 0 4 12 = -4 /\
  Z.shiftr (-4) 1 = -2 /\
  spec_update int8_t 0 4 (FieldProxy.ShrAssign 1) 12 = Ok 14 /\
  shift int32_t = Ok [14] /\
  shift uint8_t = Ok [6].
Proof. repeat split. Qed.

(** C9.  [BitField<int8_t, Field<A, 8>>] is accepted and constructed,
    its only field is neither fixed nor of width zero, and [get<A>] is
    rejected by the assertion meant for members of size zero: the mask
    [0xFF] is [-1] in [int8_t], which is not [> 0]. *)
Theorem accessor_rejected_on_sign_bit :
  let A := mkField 0 8 0 false in
  Data false int8_t A [] = Ok [0] /\
  MaskArr int8_t A [] = Ok [-1] /\
  Width A = 8 /\ Fixed A = false /\
  get false int8_t A [] false 0 = Fail (Rejected SizeZeroMember) /\
  is_Ok (get false uint8_t A [] false 0) = true.
Proof. repeat split. Qed.

(** * Assignment of an arbitrary value *)

(** C10 (amended).  Over an integer base type other than [bool] that
    is no wider than [int] and is unsigned or has the width of [int], in
    a layout whose cursor does not overflow [std::size_t] ([fits]: the
    widths [W_i] satisfy [(W_0 + U) + ... + (W_k + U) + U <= 2 ^ 64]),
    for every accessible, writable field of width [W] over units of [U]
    bits and every value [V], assignment stores
    [(unit & ~mask) | ((V << shift) & mask)] in the unit of the field,
    where the mask is [min(W, U)] consecutive bits from the shift on:
    the bits of [V] beyond them are discarded and no bit outside the
    mask changes; the field then reads [V] reduced to its low
    [min(W, U)] bits, as a signed value for a signed type. *)
Theorem truncating_write (disallow : bool) (BaseT : IntType)
    (FirstField : Field) (Fields : list Field)
    (I : nat) (p : proxy) (f : Field) (D : list Z) (V : Z) :
  sound_base BaseT ->
  fits (bits BaseT) 0 (WidthArr FirstField Fields) ->
  get_at disallow BaseT FirstField Fields false I = Ok p ->
  all_fields FirstField Fields !! I = Some f -> Fixed f = false ->
  length D = Z.to_nat (storage_size BaseT FirstField Fields) ->
  let n := Z.min (Width f) (FieldTypeBits BaseT) in
  let mask := p_Mask p in
  let shift := p_Shift p in
  mask = spec_mask shift n /\
  exists unit,
    D !! p_unit p = Some unit /\
    let unit' := wrap BaseT (Z.lor (Z.land unit (Z.lnot mask))
                                   (Z.land (Z.shiftl V shift) mask)) in
    modify BaseT (FieldProxy.Assign V) p D = Ok (<[p_unit p := unit']> D) /\
    (forall k, 0 <= k < bits BaseT -> Z.testbit mask k = false ->
       Z.testbit unit' k = Z.testbit unit k) /\
    load BaseT p (<[p_unit p := unit']> D) =
      Ok (wrap (field_type BaseT n) V).
Proof.
  intros HS HF HG Hf HFx HL n mask shift.
  pose proof (sound_pos BaseT HS) as HT.
  destruct (get_at_inv disallow BaseT FirstField Fields HT HF false I p HG)
    as (f' & Ms & Hf' & HM & Ep & PW & Mpos & Pl).
  rewrite Hf in Hf'. inversion Hf'; subst f'.
  destruct (unit_in_storage BaseT FirstField Fields I f D HT HF Hf PW HL)
    as [u Hu].
  assert (EM : mask = spec_mask shift n).
  { unfold mask, shift. rewrite Ep. cbn [p_Mask p_Shift].
    apply (mask_is_spec_mask BaseT _ _ _ HS Pl Mpos). }
  split; [exact EM|]. exists u.
  assert (Eu : D !! p_unit p = Some u) by (rewrite Ep; exact Hu).
  split; [exact Eu|]. cbv zeta.
  assert (EW : wrap BaseT (Z.lor (Z.land u (Z.lnot mask))
                             (Z.land (Z.shiftl V shift) mask))
               = spec_write BaseT shift n u V).
  { unfold spec_write. rewrite EM. reflexivity. }
  rewrite EW.
  assert (EA : FieldProxy.assign BaseT false shift mask u V
               = Ok (spec_write BaseT shift n u V)).
  { unfold mask, shift. rewrite Ep. cbn [p_Mask p_Shift].
    apply (assign_refines BaseT _ _ _ HS Pl). }
  split; [|split].
  - unfold modify. rewrite Eu.
    assert (Ec : p_const p = false) by (rewrite Ep; cbn; rewrite HFx; reflexivity).
    rewrite Ec. cbn [FieldProxy.writable bind FieldProxy.apply].
    fold shift mask. rewrite EA. reflexivity.
  - intros k Hk Hm.
    assert (Pl' : placed BaseT shift n mask)
      by (unfold mask, shift; rewrite Ep; exact Pl).
    rewrite (spec_write_bits BaseT shift n mask HS Pl') by exact Hk.
    rewrite EM in Hm. rewrite (spec_mask_bits BaseT shift n mask Pl') in Hm by lia.
    rewrite Hm. reflexivity.
  - unfold load. rewrite list_lookup_insert_eq by (eapply lookup_lt_Some; eauto).
    fold shift mask.
    assert (Pl' : placed BaseT shift n mask)
      by (unfold mask, shift; rewrite Ep; exact Pl).
    assert (Mpos' : 0 < wrap BaseT mask)
      by (unfold mask; rewrite Ep; exact Mpos).
    apply (read_stored BaseT shift n mask _ V HS Pl' Mpos').
    intros k Hk Hm.
    rewrite (spec_write_bits BaseT shift n mask HS Pl') by exact Hk.
    rewrite (exact_mask_bit BaseT shift n HS) in Hm by exact Hk.
    rewrite Hm. reflexivity.
Qed.

Lemma truncating_write_witness :
  let BaseT := int32_t in
  let FirstField := mkField 0 4 0 false in
  let Fields := [mkField 1 4 0 false] in
  let p := mkProxy false 4 240 0 in
  let f := mkField 1 4 0 false in
  let D := [13] in
  let V := 29 in
  let n := Z.min (Width f) (FieldTypeBits BaseT) in
  let mask := p_Mask p in
  let shift := p_Shift p in
  mask = spec_mask shift n /\
  exists unit,
    D !! p_unit p = Some unit /\
    let unit' := wrap BaseT (Z.lor (Z.land unit (Z.lnot mask))
                                   (Z.land (Z.shiftl V shift) mask)) in
    modify BaseT (FieldProxy.Assign V) p D = Ok (<[p_unit p := unit']> D) /\
    (forall k, 0 <= k < bits BaseT -> Z.testbit mask k = false ->
       Z.testbit unit' k = Z.testbit unit k) /\
    load BaseT p (<[p_unit p := unit']> D) =
      Ok (wrap (field_type BaseT n) V).
Proof.
  apply (truncating_write false int32_t (mkField 0 4 0 false)
           [mkField 1 4 0 false] 1 (mkProxy false 4 240 0)
           (mkField 1 4 0 false) [13] 29);
    [ apply sound_int32 | solve_fits | reflexivity | reflexivity
    | reflexivity | reflexivity ].
Defined.

(** C10, as stated, fails on a field wider than the unit, which the
    default configuration accepts with its mask clipped to the unit: a
    9-bit field over [uint8_t] assigned 300 reads 44, the low 8 bits,
    while 300 reduced to 9 bits is 300. *)
Lemma truncating_write_counterexample :
  let F := mkField 0 9 0 false in
  (let* D0 := Data false uint8_t F [] in
   let* D1 := set false uint8_t F [] 0 300 D0 in
   value false uint8_t F [] 0 D1) = Ok 44 /\
  Width F = 9 /\
  wrap (field_type uint8_t 9) 300 = 300 /\
  wrap (field_type uint8_t (Z.min 9 8)) 300 = 44.
Proof. repeat split. Qed.

(** * Further properties of the header *)

Lemma wrap_zero T : 0 < bits T -> wrap T 0 = 0.
Proof.
  intros HT. apply wrap_small; [exact HT|]. unfold min_val, max_val.
  assert (0 < 2 ^ (bits T - 1)) by (apply Z.pow_pos_nonneg; lia).
  pose proof (pow_bits_half T HT). destruct (is_signed T); lia.
Qed.

(** ** The layout planner *)


(** X1.  Appending descriptors to a layout never moves the fields that
    are already there: the first [length Ws] entries of [FieldBegin]
    are those computed for [Ws] alone. *)
Theorem layout_prefix_stable (U : Z) (Ws Ws' : list Z) :
  take (length Ws) (FieldBegin U (Ws ++ Ws')) = fst (FieldBegin_loop U Ws 0) /\
  take (length Ws) (FieldBegin U (Ws ++ Ws')) =
    take (length Ws) (FieldBegin U Ws).
Proof.
  assert (H : forall Ws', take (length Ws) (FieldBegin U (Ws ++ Ws'))
                          = fst (FieldBegin_loop U Ws 0)).
  { intros Vs. unfold FieldBegin. rewrite FieldBegin_loop_app.
    pose proof (FieldBegin_loop_length U Ws 0) as L.
    destruct (FieldBegin_loop U Ws 0) as [B1 c1]. cbn [fst] in *.
    destruct (FieldBegin_loop U Vs c1) as [B2 E].
    rewrite <- L, <- app_assoc. apply take_app_length. }
  split; [apply H|].
  rewrite H. pose proof (H []) as H0. rewrite app_nil_r in H0.
  rewrite H0. reflexivity.
Qed.

Lemma total_width_nonneg Ws : Forall (fun W => 0 <= W) Ws -> 0 <= total_width Ws.
Proof. induction 1; simpl; lia. Qed.

Lemma packed_loop U Ws : forall c,
  0 < U -> fits U c Ws -> Forall (fun W => 0 < W) Ws ->
  c + total_width Ws <= U ->
  FieldBegin_loop U Ws c =
    (map (fun i => c + total_width (take i Ws)) (seq 0 (length Ws)),
     c + total_width Ws).
Proof.
  induction Ws as [|W Ws IH]; intros c HU HF HP HT.
  - simpl. f_equal. lia.
  - rewrite FieldBegin_loop_cons.
    inversion HP as [|? ? PW PWs]; subst.
    destruct (place U c W) as [b c'] eqn:EP.
    destruct (fits_cons U HU c W Ws b c' HF EP) as (W0 & B & HF').
    pose proof HF as (C0 & _ & _).
    assert (T0 : 0 <= total_width Ws).
    { apply total_width_nonneg. eapply Forall_impl; [exact PWs|].
      intros; simpl in *; lia. }
    cbn [total_width foldr] in HT. fold (total_width Ws) in HT.
    rewrite (place_pos U HU) in EP by lia. cbv zeta in EP.
    assert (Q1 : c / U = 0) by (apply Z.div_small; lia).
    assert (Q2 : (c + W - 1) / U = 0) by (apply Z.div_small; lia).
    rewrite Q1, Q2 in EP. cbn in EP. inversion EP; subst b c'.
    rewrite (IH (c + W) HU HF' PWs ltac:(lia)).
    cbn [length seq map take total_width foldr]. f_equal.
    + f_equal; [lia|]. rewrite <- seq_shift, map_map. apply map_ext.
      intros i. cbn [take total_width foldr]. fold (total_width (take i Ws)). lia.
    + fold (total_width Ws). lia.
Qed.

(** X2.  When every width is positive and the widths add up to at most
    one unit, the fields are packed back to back from bit 0 ([FieldBegin]
    holds the running sums of the widths) and [dataSize()] is 1. *)
Theorem contiguous_packing (U : Z) (Ws : list Z) :
  0 < U -> fits U 0 Ws -> Forall (fun W => 0 < W) Ws ->
  total_width Ws <= U ->
  FieldBegin U Ws =
    map (fun i => total_width (take i Ws)) (seq 0 (S (length Ws))) /\
  (Ws <> [] -> dataSize U Ws = 1).
Proof.
  intros HU HF HP HT.
  pose proof (packed_loop U Ws 0 HU HF HP ltac:(lia)) as E.
  split.
  - unfold FieldBegin. rewrite E. rewrite seq_S, map_app. cbn [map Nat.add].
    rewrite firstn_all. reflexivity.
  - intros NE. pose proof (dataSize_ceil U HU Ws HF) as C. cbv zeta in C.
    rewrite cursor_length, E in C. cbn [snd] in C.
    assert (0 < total_width Ws).
    { destruct Ws as [|W Ws']; [congruence|]. inversion HP; subst.
      cbn [total_width foldr]. fold (total_width Ws').
      assert (0 <= total_width Ws'); [|lia].
      apply total_width_nonneg. eapply Forall_impl; [eassumption|].
      intros; simpl in *; lia. }
    nia.
Qed.

Lemma contiguous_packing_witness :
  FieldBegin 8 [3; 1; 4] =
    map (fun i => total_width (take i [3; 1; 4])) (seq 0 4) /\
  ([3; 1; 4] <> [] -> dataSize 8 [3; 1; 4] = 1).
Proof.
  apply (contiguous_packing 8 [3; 1; 4]);
    [ lia | solve_fits | repeat constructor | vm_compute; discriminate ].
Defined.

(** X3.  In a layout whose cursor does not overflow [std::size_t]
    ([fits]: the widths [W_i] satisfy
    [(W_0 + U) + ... + (W_k + U) + U <= 2 ^ 64]), the bit range
    [[begin, begin + width)] of every descriptor, oversized ones
    included, lies inside the [dataSize()] units of the storage. *)
Theorem fields_inside_storage (U : Z) (Ws : list Z) (i : nat) (b W : Z) :
  0 < U -> fits U 0 Ws ->
  FieldBegin U Ws !! i = Some b -> Ws !! i = Some W ->
  0 <= b /\ b + W <= dataSize U Ws * U.
Proof.
  intros HU HF Hb HW.
  pose proof (FieldBegin_last U Ws) as LE.
  pose proof (dataSize_ceil U HU Ws HF) as C. cbv zeta in C.
  unfold FieldBegin in Hb, LE.
  pose proof (FieldBegin_loop_length U Ws 0) as HL.
  pose proof (cursor_length U Ws) as CL.
  destruct (FieldBegin_loop U Ws 0) as [Bs E] eqn:EL. cbn [fst snd] in *.
  destruct (FieldBegin_loop_inv U HU Ws 0 Bs E HF EL) as (_ & _ & I3 & _).
  pose proof (lookup_lt_Some _ _ _ HW) as Li.
  rewrite lookup_app_l in Hb by lia.
  destruct (I3 i b W Hb HW) as (P0 & P1 & _). rewrite CL in C. lia.
Qed.

Lemma fields_inside_storage_witness :
  0 <= 8 /\ 8 + 5 <= dataSize 8 [3; 1; 5] * 8.
Proof.
  apply (fields_inside_storage 8 [3; 1; 5] 2 8 5);
    [ lia | solve_fits | reflexivity | reflexivity ].
Defined.

Lemma units_step U c W b c' :
  0 < U -> 0 <= c -> 0 <= W <= U -> c + W + U <= 2 ^ 64 ->
  place U c W = (b, c') ->
  (c' + U - 1) / U <= (c + U - 1) / U + 1.
Proof.
  intros HU H0 HW HB EP.
  destruct (place_bounds U HU c W b c' H0 ltac:(lia) HB EP)
    as (_ & _ & _ & Z & P).
  assert (G : up U c / U = (c + U - 1) / U).
  { unfold up. apply Z.div_mul. lia. }
  destruct (Z.eq_dec W 0) as [->|NZ].
  - destruct (Z eq_refl) as [_ ->].
    replace (up U c + U - 1) with (U - 1 + (c + U - 1) / U * U)
      by (unfold up; lia).
    rewrite Z.div_add by lia. rewrite (Z.div_small (U - 1)) by lia. lia.
  - destruct (P ltac:(lia)) as [-> Hb].
    pose proof (place_one_unit U HU c W b (b + W) H0 ltac:(lia) HB EP) as One.
    replace (b + W + U - 1) with (b + W - 1 + 1 * U) by lia.
    rewrite Z.div_add by lia. rewrite <- One.
    assert (b / U <= (c + U - 1) / U); [|lia].
    destruct Hb as [->| ->].
    + apply Z.div_le_mono; lia.
    + rewrite G. lia.
Qed.

Lemma units_loop U Ws : forall c Bs E,
  0 < U -> fits U c Ws -> Forall (fun W => W <= U) Ws ->
  FieldBegin_loop U Ws c = (Bs, E) ->
  (E + U - 1) / U <= (c + U - 1) / U + Z.of_nat (length Ws).
Proof.
  induction Ws as [|W Ws IH]; intros c Bs E HU HF HW EL.
  - simpl in EL. inversion EL; subst. simpl. lia.
  - rewrite FieldBegin_loop_cons in EL.
    destruct (place U c W) as [b c'] eqn:EP.
    destruct (FieldBegin_loop U Ws c') as [Bs' E'] eqn:EL'.
    inversion EL; subst Bs E; clear EL.
    destruct (fits_cons U HU c W Ws b c' HF EP) as (W0 & B & HF').
    inversion HW as [|? ? HW1 HWs]; subst.
    pose proof HF as (C0 & _ & _).
    pose proof (units_step U c W b c' HU C0 ltac:(lia) B EP).
    pose proof (IH c' Bs' E' HU HF' HWs EL').
    cbn [length]. lia.
Qed.

(** X4.  When no field is wider than the unit, [dataSize()] is at most
    the number of descriptors. *)
Theorem one_unit_per_descriptor (U : Z) (Ws : list Z) :
  0 < U -> fits U 0 Ws -> Forall (fun W => W <= U) Ws ->
  0 <= dataSize U Ws <= Z.of_nat (length Ws).
Proof.
  intros HU HF HW.
  pose proof (dataSize_ceil U HU Ws HF) as C. cbv zeta in C.
  destruct (cursor_end_fits U HU Ws HF) as [E0 _].
  rewrite cursor_length in C, E0.
  destruct (FieldBegin_loop U Ws 0) as [Bs E] eqn:EL. cbn [snd] in *.
  pose proof (units_loop U Ws 0 Bs E HU HF HW EL) as L.
  rewrite (Z.div_small (0 + U - 1)) in L by lia.
  assert (dataSize U Ws <= (E + U - 1) / U).
  { apply Z.div_le_lower_bound; lia. }
  split; [nia|lia].
Qed.

Lemma one_unit_per_descriptor_witness :
  0 <= dataSize 8 [3; 1; 5; 0; 8] <= Z.of_nat (length [3; 1; 5; 0; 8]).
Proof.
  apply (one_unit_per_descriptor 8 [3; 1; 5; 0; 8]);
    [ lia | solve_fits | repeat constructor; lia ].
Defined.

Lemma zero_loop U Ws : forall c,
  0 < U -> fits U c Ws -> c mod U = 0 -> Forall (fun W => W = 0) Ws ->
  snd (FieldBegin_loop U Ws c) = c.
Proof.
  induction Ws as [|W Ws IH]; intros c HU HF HA HZ; [reflexivity|].
  rewrite FieldBegin_loop_cons.
  inversion HZ as [|? ? -> HZs]; subst.
  destruct (place U c 0) as [b c'] eqn:EP.
  destruct (fits_cons U HU c 0 Ws b c' HF EP) as (_ & B & HF').
  pose proof HF as (C0 & _ & _).
  rewrite (place_zero U HU) in EP by lia. inversion EP; subst b c'.
  rewrite (up_aligned U HU c HA) in *.
  specialize (IH c HU HF' HA HZs).
  destruct (FieldBegin_loop U Ws c). exact IH.
Qed.

(** X5.  In a layout whose cursor does not overflow [std::size_t]
    ([fits]: the widths [W_i] satisfy
    [(W_0 + U) + ... + (W_k + U) + U <= 2 ^ 64]), [dataSize()] is 0
    exactly when every descriptor has width 0. *)
Theorem empty_storage_iff (U : Z) (Ws : list Z) :
  0 < U -> fits U 0 Ws ->
  (dataSize U Ws = 0 <-> Forall (fun W => W = 0) Ws).
Proof.
  intros HU HF. split.
  - intros D0. apply Forall_lookup. intros i W HW.
    assert (is_Some (FieldBegin U Ws !! i)) as [b Hb].
    { apply lookup_lt_is_Some. rewrite FieldBegin_length.
      apply lookup_lt_Some in HW. lia. }
    destruct HF as (F0 & FW & FB). pose proof FW as FW'.
    rewrite Forall_lookup in FW'. specialize (FW' i W HW). simpl in FW'.
    assert (HF : fits U 0 Ws) by (repeat split; assumption).
    pose proof (FieldBegin_last U Ws) as LE.
    pose proof (dataSize_ceil U HU Ws HF) as C. cbv zeta in C.
    unfold FieldBegin in Hb.
    pose proof (FieldBegin_loop_length U Ws 0) as HL.
    pose proof (cursor_length U Ws) as CL.
    destruct (FieldBegin_loop U Ws 0) as [Bs E] eqn:EL. cbn [fst snd] in *.
    destruct (FieldBegin_loop_inv U HU Ws 0 Bs E HF EL) as (_ & _ & I3 & _).
    pose proof (lookup_lt_Some _ _ _ HW) as Li.
    rewrite lookup_app_l in Hb by lia.
    destruct (I3 i b W Hb HW) as (P0 & P1 & _). rewrite CL, D0 in C. lia.
  - intros HZ.
    pose proof (dataSize_ceil U HU Ws HF) as C. cbv zeta in C.
    rewrite cursor_length in C.
    rewrite (zero_loop U Ws 0 HU HF (Zmod_0_l U) HZ) in C. nia.
Qed.

Lemma empty_storage_iff_witness :
  dataSize 8 [0; 0] = 0 <-> Forall (fun W => W = 0) [0; 0].
Proof. apply (empty_storage_iff 8 [0; 0]); [ lia | solve_fits ]. Defined.

Lemma cursor_app U Ws Ws' I :
  (I <= length Ws)%nat -> cursor U (Ws ++ Ws') I = cursor U Ws I.
Proof. intros H. unfold cursor. rewrite take_app_le by exact H. reflexivity. Qed.

Lemma oversized_check_prefix disallow BaseT FirstField Fields Fields' :
  is_Ok (oversized_check disallow BaseT FirstField (Fields ++ Fields')) = true ->
  is_Ok (oversized_check disallow BaseT FirstField Fields) = true.
Proof.
  unfold oversized_check, all_fields. destruct disallow; [|reflexivity].
  cbn [andb]. rewrite app_comm_cons, forallb_app.
  destruct (forallb _ (FirstField :: Fields)); [reflexivity|].
  cbn. discriminate.
Qed.

(** X24.  On a base type no wider than [int], appending descriptors
    to a layout changes neither the position nor the accessor (shift,
    mask, unit, constness) of a field that was already there. *)
Theorem accessor_stable_under_extension (disallow : bool) (BaseT : IntType)
    (FirstField : Field) (Fields Fields' : list Field)
    (self_const : bool) (I : nat) :
  0 < bits BaseT <= 32 ->
  fits (bits BaseT) 0 (WidthArr FirstField (Fields ++ Fields')) ->
  is_Ok (oversized_check disallow BaseT FirstField (Fields ++ Fields')) = true ->
  (I < NFields FirstField Fields)%nat ->
  FieldBeginArr BaseT FirstField (Fields ++ Fields') !!! I
    = FieldBeginArr BaseT FirstField Fields !!! I /\
  get_at disallow BaseT FirstField (Fields ++ Fields') self_const I
    = get_at disallow BaseT FirstField Fields self_const I.
Proof.
  intros HT HF' HO' HI. unfold NFields in HI.
  assert (WA : WidthArr FirstField (Fields ++ Fields')
               = WidthArr FirstField Fields ++ map Width Fields').
  { unfold WidthArr, all_fields. rewrite app_comm_cons, map_app. reflexivity. }
  assert (HF : fits (bits BaseT) 0 (WidthArr FirstField Fields)).
  { rewrite WA in HF'. eapply fits_prefix; [lia|exact HF']. }
  pose proof (oversized_check_prefix _ _ _ _ _ HO') as HO.
  assert (is_Some (all_fields FirstField Fields !! I)) as [f Hf]
    by (apply lookup_lt_is_Some; exact HI).
  assert (Hf' : all_fields FirstField (Fields ++ Fields') !! I = Some f).
  { unfold all_fields in *. rewrite app_comm_cons.
    rewrite lookup_app_l by exact HI. exact Hf. }
  destruct (FieldBeginArr_lookup BaseT FirstField Fields I f Hf) as [_ EB].
  destruct (FieldBeginArr_lookup BaseT FirstField _ I f Hf') as [_ EB'].
  assert (EQ : FieldBeginArr BaseT FirstField (Fields ++ Fields') !!! I
               = FieldBeginArr BaseT FirstField Fields !!! I).
  { rewrite EB, EB', WA. rewrite cursor_app; [reflexivity|].
    unfold WidthArr. rewrite length_map. lia. }
  split; [exact EQ|].
  pose proof (MaskArr_defined BaseT FirstField Fields HT HF) as HM.
  pose proof (MaskArr_defined BaseT FirstField _ HT HF') as HM'.
  destruct (MaskArr BaseT FirstField Fields) as [Ms|] eqn:EM; [|discriminate].
  destruct (MaskArr BaseT FirstField (Fields ++ Fields')) as [Ms'|] eqn:EM';
    [|discriminate].
  pose proof (MaskArr_lookup BaseT FirstField Fields Ms I f EM Hf) as L.
  pose proof (MaskArr_lookup BaseT FirstField _ Ms' I f EM' Hf') as L'.
  rewrite EQ, L in L'. injection L' as L'.
  unfold get_at. rewrite EM, EM', Hf, Hf'.
  destruct (oversized_check disallow BaseT FirstField Fields); [|discriminate].
  destruct (oversized_check disallow BaseT FirstField (Fields ++ Fields'));
    [|discriminate].
  cbn [bind]. unfold FieldTypeBits. rewrite EQ, L'. reflexivity.
Qed.

Lemma accessor_stable_under_extension_witness :
  let A := mkField 0 3 0 false in
  let B := mkField 1 1 0 false in
  let C := mkField 2 5 0 false in
  FieldBeginArr uint8_t A ([B] ++ [C]) !!! 1%nat
    = FieldBeginArr uint8_t A [B] !!! 1%nat /\
  get_at false uint8_t A ([B] ++ [C]) false 1
    = get_at false uint8_t A [B] false 1.
Proof.
  apply (accessor_stable_under_extension false uint8_t (mkField 0 3 0 false)
           [mkField 1 1 0 false] [mkField 2 5 0 false] false 1);
    [ simpl; lia | solve_fits | reflexivity | unfold NFields; simpl; lia ].
Defined.


(** ** Masks *)

Lemma testbit_ones_shl n Sh k :
  0 <= n -> 0 <= Sh -> 0 <= k ->
  Z.testbit (Z.shiftl (Z.ones n) Sh) k = (Sh <=? k) && (k <? Sh + n).
Proof.
  intros Hn HS Hk. rewrite Z.shiftl_spec by exact Hk.
  destruct (Z.leb_spec Sh k) as [l|g].
  - rewrite Z.testbit_ones_nonneg by lia. cbn [andb].
    destruct (Z.ltb_spec (k - Sh) n), (Z.ltb_spec k (Sh + n)); try reflexivity; lia.
  - rewrite Z.testbit_neg_r by lia. reflexivity.
Qed.

(** X6.  On a base type no wider than [int], the mask computed for any
    descriptor, accessible or not, is the [min(W, U)] consecutive bits
    from its shift on, converted to the base type (0 for a zero-width
    descriptor). *)
Theorem mask_closed_form (BaseT : IntType) (FirstField : Field)
    (Fields : list Field) (Ms : list Z) (I : nat) (f : Field) :
  0 < bits BaseT <= 32 ->
  fits (bits BaseT) 0 (WidthArr FirstField Fields) ->
  MaskArr BaseT FirstField Fields = Ok Ms ->
  all_fields FirstField Fields !! I = Some f ->
  Ms !!! I =
    wrap BaseT
      (Z.shiftl (Z.ones (Z.min (Width f) (bits BaseT)))
                (FieldBeginArr BaseT FirstField Fields !!! I mod bits BaseT)).
Proof.
  intros [HT HN] HF HM Hf.
  destruct (width_cases BaseT FirstField Fields HF I f Hf) as [Z|P].
  - rewrite (zero_width_mask BaseT FirstField Fields Ms HT HM I f Hf Z), Z.
    replace (Z.min 0 (bits BaseT)) with 0 by lia.
    cbn [Z.ones]. rewrite Z.shiftl_0_l. unfold wrap.
    rewrite Zmod_0_l. destruct (is_signed BaseT && _) eqn:E; [|reflexivity].
    apply andb_true_iff in E as [_ E]. apply Z.leb_le in E.
    assert (0 < 2 ^ (bits BaseT - 1)) by (apply Z.pow_pos_nonneg; lia). lia.
  - pose proof (field_placed BaseT FirstField Fields HT HF Ms I f HM Hf P) as Pl.
    rewrite <- (mask_wrapped BaseT _ _ _ HT Pl) at 1.
    apply wrap_ext; [exact HT|]. intros k Hk.
    rewrite (mask_bits BaseT _ _ _ HT Pl) by exact Hk.
    destruct Pl as [S0 N0 _ _].
    rewrite testbit_ones_shl by lia. unfold mask_bit.
    destruct (Z.leb_spec 32 k); [lia|]. cbn [andb]. rewrite orb_false_r.
    reflexivity.
Qed.

Lemma mask_closed_form_witness :
  [7; 8; 31] !!! 2%nat =
    wrap uint8_t
      (Z.shiftl (Z.ones (Z.min 5 (bits uint8_t)))
         (FieldBeginArr uint8_t (mkField 0 3 0 false)
            [mkField 1 1 0 false; mkField 2 5 0 false] !!! 2%nat
          mod bits uint8_t)).
Proof.
  apply (mask_closed_form uint8_t (mkField 0 3 0 false)
           [mkField 1 1 0 false; mkField 2 5 0 false] [7; 8; 31] 2
           (mkField 2 5 0 false));
    [ simpl; lia | solve_fits | reflexivity | reflexivity ].
Defined.

Lemma Mask_loop_fail UT n : forall Sh M e,
  Mask_loop UT n Sh M = Fail e -> e = UB.
Proof.
  induction n as [|n IH]; intros Sh M e H; [discriminate|].
  cbn [Mask_loop] in H. unfold shl at 1 in H.
  destruct (_ && _); cbn [bind] in H; [|congruence].
  eapply IH; eauto.
Qed.

Lemma Mask_loop_overflow UT n : forall Sh M,
  0 <= Sh -> 32 < Sh + Z.of_nat n -> Sh <= 32 ->
  Mask_loop UT n Sh M = Fail UB.
Proof.
  induction n as [|n IH]; intros Sh M H0 H1 H2; [simpl in H1; lia|].
  cbn [Mask_loop]. unfold shl at 1. simpl bits.
  destruct (Z.ltb_spec Sh 32) as [l|g].
  - destruct (Z.leb_spec 0 Sh); [|lia]. cbn [andb bind].
    rewrite sz_word by lia. apply IH; lia.
  - rewrite andb_false_r. reflexivity.
Qed.

Lemma map_result_fail {A B : Type} (f : A -> result B) (l : list A) e :
  (forall a e', a ∈ l -> f a = Fail e' -> e' = e) ->
  (exists a, a ∈ l /\ f a = Fail e) ->
  map_result f l = Fail e.
Proof.
  induction l as [|a l IH]; intros Ha (x & Hx & Fx).
  - inversion Hx.
  - cbn [map_result]. destruct (f a) as [b|e'] eqn:Ea.
    + cbn [bind]. rewrite IH; [reflexivity| |].
      * intros y e' Hy. apply Ha. right. exact Hy.
      * exists x. split; [|exact Fx].
        inversion Hx; subst; [congruence|assumption].
    + cbn [bind]. f_equal. eapply Ha; [left|exact Ea].
Qed.

(** X7.  On a base type wider than [int], a layout with a
    non-zero-width field that reaches bit 32 or above of its unit has no
    defined masks ([1 << S] is an [int] shift), so neither the storage
    nor any accessor can be obtained. *)
Theorem wide_base_high_field_undefined (disallow : bool) (BaseT : IntType)
    (FirstField : Field) (Fields : list Field) (I : nat) (f : Field) :
  32 < bits BaseT ->
  fits (bits BaseT) 0 (WidthArr FirstField Fields) ->
  all_fields FirstField Fields !! I = Some f -> 0 < Width f ->
  32 < FieldBeginArr BaseT FirstField Fields !!! I mod bits BaseT
       + Z.min (Width f) (bits BaseT) ->
  MaskArr BaseT FirstField Fields = Fail UB /\
  is_Ok (Data disallow BaseT FirstField Fields) = false /\
  (forall self_const J,
     is_Ok (get_at disallow BaseT FirstField Fields self_const J) = false).
Proof.
  intros HT HF Hf HW HB.
  assert (HM : MaskArr BaseT FirstField Fields = Fail UB).
  { unfold MaskArr. apply map_result_fail.
    - intros J e _ HJ. unfold Mask1 in HJ. eapply Mask_loop_fail; eauto.
    - exists I. split.
      + apply elem_of_seq. apply lookup_lt_Some in Hf. unfold NFields. lia.
      + rewrite (list_lookup_total_correct _ _ _
                   (WidthArr_lookup _ _ _ _ Hf)).
        unfold Mask1.
        pose proof (Z.mod_pos_bound
                      (FieldBeginArr BaseT FirstField Fields !!! I)
                      (bits BaseT) ltac:(lia)) as MB.
        revert HB MB.
        generalize (FieldBeginArr BaseT FirstField Fields !!! I mod bits BaseT).
        intros Sh HB MB.
        destruct (Z_le_gt_dec Sh 32) as [l|g].
        * apply Mask_loop_overflow; lia.
        * destruct (Z.to_nat (Z.min (Width f) (bits BaseT))) as [|n] eqn:En;
            [lia|].
          cbn [Mask_loop]. unfold shl at 1. simpl bits.
          destruct (Z.ltb_spec Sh 32); [lia|].
          rewrite andb_false_r. reflexivity. }
  split; [exact HM|]. split.
  - unfold Data. rewrite HM. destruct (oversized_check _ _ _ _); reflexivity.
  - intros sc J. unfold get_at. rewrite HM.
    destruct (oversized_check _ _ _ _); reflexivity.
Qed.

Lemma wide_base_high_field_undefined_witness :
  let A := mkField 0 32 0 false in
  let B := mkField 1 32 0 false in
  MaskArr uint64_t A [B] = Fail UB /\
  is_Ok (Data false uint64_t A [B]) = false /\
  (forall self_const J,
     is_Ok (get_at false uint64_t A [B] self_const J) = false).
Proof.
  apply (wide_base_high_field_undefined false uint64_t (mkField 0 32 0 false)
           [mkField 1 32 0 false] 1 (mkField 1 32 0 false));
    [ simpl; lia | solve_fits | reflexivity | simpl; lia
    | vm_compute; reflexivity ].
Defined.

Lemma wide_read_back UT Sh n M u V :
  32 < bits UT -> is_signed UT = false ->
  placed UT Sh n M -> Sh + n = 32 ->
  exists u', FieldProxy.assign UT false Sh M u V = Ok u' /\
    FieldProxy.read UT Sh M u' = Ok (V mod 2 ^ (bits UT - Sh)).
Proof.
  intros HT HU Pl HE. assert (HP : 0 < bits UT) by lia.
  destruct (assign_spec UT Sh n M HP Pl u V) as (u' & EA & Wu & Bu).
  exists u'. split; [exact EA|].
  pose proof Pl as [S0 N0 _ _].
  assert (MB : forall k, 0 <= k < bits UT -> mask_bit Sh n k = (Sh <=? k)).
  { intros k Hk. unfold mask_bit.
    destruct (Z.leb_spec Sh k), (Z.ltb_spec k (Sh + n)), (Z.leb_spec 32 k),
      (Z.leb_spec Sh 31), (Z.ltb_spec 31 (Sh + n)); simpl; try reflexivity; lia. }
  unfold FieldProxy.read, FieldProxy.PT. rewrite HU. cbn [negb].
  rewrite promote_wide by lia.
  rewrite (shr_defined UT) by lia. cbn [bind]. f_equal.
  apply Z.bits_inj'. intros j Hj.
  rewrite (testbit_wrap UT HP) by exact Hj. rewrite HU. cbn [andb].
  destruct (Z.ltb_spec j (bits UT)) as [l|g].
  - rewrite Z.shiftr_spec by exact Hj.
    destruct (Z.ltb_spec j (bits UT - Sh)) as [l'|g'].
    + rewrite Z.mod_pow2_bits_low by lia.
      rewrite (low_and UT HP) by lia.
      rewrite !(testbit_wrap_low UT HP) by lia.
      rewrite (mask_bits UT _ _ _ HP Pl) by lia.
      rewrite Bu, MB by lia.
      destruct (Z.leb_spec Sh (j + Sh)); [|lia]. rewrite andb_true_r.
      f_equal. lia.
    + rewrite Z.mod_pow2_bits_high by lia.
      unfold and. rewrite (testbit_wrap UT HP) by lia. rewrite HU.
      destruct (Z.ltb_spec (j + Sh) (bits UT)); [lia|]. reflexivity.
  - rewrite Z.mod_pow2_bits_high by lia. reflexivity.
Qed.

(** X8.  On an unsigned base type wider than [int], a field that ends
    exactly at bit 32 of its unit gets a mask that runs up to the top of
    the unit ([1 << 31] is negative and is sign-extended by the
    conversion), so assigning [V] and reading back gives [V] reduced to
    all the bits from the shift to the top of the unit. *)
Theorem wide_base_field_widened (disallow : bool) (BaseT : IntType)
    (FirstField : Field) (Fields : list Field)
    (I : nat) (p : proxy) (f : Field) (D : list Z) (V : Z) :
  32 < bits BaseT -> is_signed BaseT = false ->
  fits (bits BaseT) 0 (WidthArr FirstField Fields) ->
  get_at disallow BaseT FirstField Fields false I = Ok p ->
  all_fields FirstField Fields !! I = Some f -> Fixed f = false ->
  p_Shift p + Width f = 32 ->
  length D = Z.to_nat (storage_size BaseT FirstField Fields) ->
  p_Mask p = Z.shiftl (Z.ones (bits BaseT - p_Shift p)) (p_Shift p) /\
  exists D',
    modify BaseT (FieldProxy.Assign V) p D = Ok D' /\
    load BaseT p D' = Ok (V mod 2 ^ (bits BaseT - p_Shift p)).
Proof.
  intros HT HU HF HG Hf HFx HE HL. assert (HP : 0 < bits BaseT) by lia.
  destruct (get_at_inv disallow BaseT FirstField Fields HP HF false I p HG)
    as (f' & Ms & Hf' & HM & -> & PW & Mpos & Pl).
  rewrite Hf in Hf'. inversion Hf'; subst f'.
  cbn [p_Shift p_Mask] in *.
  pose proof (Z.mod_pos_bound (FieldBeginArr BaseT FirstField Fields !!! I)
                (bits BaseT) HP) as SB.
  set (Sh := FieldBeginArr BaseT FirstField Fields !!! I mod bits BaseT) in *.
  replace (Z.min (Width f) (bits BaseT)) with (Width f) in Pl by lia.
  split.
  - rewrite <- (mask_wrapped BaseT _ _ _ HP Pl).
    assert (E : wrap BaseT (Z.shiftl (Z.ones (bits BaseT - Sh)) Sh)
                = Z.shiftl (Z.ones (bits BaseT - Sh)) Sh).
    { apply wrap_small; [exact HP|]. unfold min_val, max_val. rewrite HU.
      rewrite Z.shiftl_mul_pow2, Z.ones_equiv by lia.
      assert (2 ^ bits BaseT = 2 ^ (bits BaseT - Sh) * 2 ^ Sh).
      { rewrite <- Z.pow_add_r by lia. f_equal. lia. }
      assert (0 < 2 ^ Sh) by (apply Z.pow_pos_nonneg; lia).
      assert (0 < 2 ^ (bits BaseT - Sh)) by (apply Z.pow_pos_nonneg; lia).
      nia. }
    rewrite <- E. apply wrap_ext; [exact HP|]. intros k Hk.
    rewrite (mask_bits BaseT _ _ _ HP Pl) by exact Hk.
    rewrite Z.shiftl_spec by lia.
    unfold mask_bit.
    destruct (Z.leb_spec Sh k) as [l|g].
    + rewrite Z.testbit_ones_nonneg by lia.
      destruct (Z.ltb_spec k (Sh + Width f)), (Z.leb_spec 32 k),
        (Z.leb_spec Sh 31), (Z.ltb_spec 31 (Sh + Width f)),
        (Z.ltb_spec (k - Sh) (bits BaseT - Sh)); simpl; try reflexivity; lia.
    + rewrite Z.testbit_neg_r by lia. cbn [andb].
      destruct (Z.leb_spec 32 k); [lia|]. reflexivity.
  - destruct (unit_in_storage BaseT FirstField Fields I f D HP HF Hf PW HL)
      as [u Hu].
    destruct (wide_read_back BaseT _ _ _ u V HT HU Pl HE) as (u' & EA & ER).
    unfold modify, load. cbn [p_const p_unit p_Shift p_Mask].
    rewrite HFx. cbn [orb FieldProxy.writable bind]. rewrite Hu.
    cbn [FieldProxy.apply]. rewrite EA. cbn [bind].
    eexists. split; [reflexivity|].
    rewrite list_lookup_insert_eq by (eapply lookup_lt_Some; eauto).
    exact ER.
Qed.

Lemma wide_base_field_widened_witness :
  let A := mkField 0 32 0 false in
  let p := mkProxy false 0 18446744073709551615 0 in
  p_Mask p = Z.shiftl (Z.ones (bits uint64_t - p_Shift p)) (p_Shift p) /\
  exists D',
    modify uint64_t (FieldProxy.Assign (2 ^ 40)) p [0] = Ok D' /\
    load uint64_t p D' = Ok (2 ^ 40 mod 2 ^ (bits uint64_t - p_Shift p)).
Proof.
  apply (wide_base_field_widened false uint64_t (mkField 0 32 0 false) []
           0 (mkProxy false 0 18446744073709551615 0)
           (mkField 0 32 0 false) [0] (2 ^ 40));
    [ simpl; lia | reflexivity | solve_fits | reflexivity | reflexivity
    | reflexivity | reflexivity | reflexivity ].
Defined.

(** ** Accessors *)

Section ReadNarrowSigned.

Variable UT : IntType.
Variables Sh n M : Z.
Hypothesis UT_signed : is_signed UT = true.
Hypothesis UT_narrow : 0 < bits UT < 32.
Hypothesis HP : placed UT Sh n M.
Hypothesis HM : 0 < wrap UT M.

Lemma narrow_pos : 0 < bits UT.
Proof. lia. Qed.

Lemma narrow_mask_range : 0 < M < 2 ^ (bits UT - 1).
Proof.
  pose proof (mask_wrapped UT Sh n M narrow_pos HP) as W.
  pose proof (wrap_bounds UT narrow_pos M) as B. rewrite W in *.
  unfold min_val, max_val in B. rewrite UT_signed in B. lia.
Qed.

Lemma narrow_mask_bits k :
  0 <= k -> Z.testbit M k = (Sh <=? k) && (k <? Sh + n).
Proof.
  intros Hk. pose proof narrow_mask_range as R.
  assert (T : forall l, bits UT - 1 <= l -> Z.testbit M l = false).
  { apply (Z.bounded_iff_bits_nonneg (bits UT - 1)); lia. }
  pose proof (mask_bits UT Sh n M narrow_pos HP (bits UT - 1) ltac:(lia)) as E.
  rewrite T in E by lia. destruct HP as [H0 H1 H2 _].
  destruct (Z.ltb_spec k (bits UT - 1)).
  - rewrite (mask_bits UT Sh n M narrow_pos HP) by lia.
    unfold mask_bit in *. revert E. bool_cases.
  - rewrite T by lia. unfold mask_bit in E. revert E. bool_cases.
Qed.

Lemma narrow_top : Sh + n <= bits UT - 1.
Proof.
  pose proof (narrow_mask_bits (bits UT - 1) ltac:(lia)) as E.
  pose proof narrow_mask_range as R.
  rewrite (proj1 (Z.bounded_iff_bits_nonneg (bits UT - 1) M ltac:(lia)
                    ltac:(lia))) in E by lia.
  destruct HP as [H0 H1 H2 _]. revert E. bool_cases.
Qed.

Lemma MaskMsbOffset_loop_narrow f : forall o,
  Z.of_nat f + o = bits UT -> 0 <= o <= bits UT - Sh - n ->
  FieldProxy.MaskMsbOffset_loop UT M f o = Ok (bits UT - Sh - n).
Proof.
  pose proof narrow_top as T. destruct HP as [H0 H1 _ _].
  pose proof (mask_wrapped UT Sh n M narrow_pos HP) as W.
  induction f as [|f IH]; intros o Hf Ho; [simpl in Hf; lia|].
  cbn [FieldProxy.MaskMsbOffset_loop].
  rewrite (sz_word (bits UT - o)), (sz_word (bits UT - o - 1)) by lia.
  destruct (shl int 1 (bits UT - o - 1)) as [b|] eqn:Eb;
    [|unfold shl in Eb; simpl bits in Eb; revert Eb; bool_cases; discriminate].
  cbn [bind]. rewrite W. unfold FieldProxy.PT.
  rewrite promote_narrow by lia.
  assert (Bb : forall k, 0 <= k ->
             Z.testbit (wrap UT b) k =
               if k <? bits UT then k =? bits UT - o - 1 else o =? 0).
  { intros k Hk. rewrite (testbit_wrap UT narrow_pos) by lia.
    rewrite UT_signed. cbn [andb].
    destruct (testbit_one_int _ _ k Eb Hk) as [_ ->].
    destruct (testbit_one_int _ _ (bits UT - 1) Eb ltac:(lia)) as [_ ->].
    bool_cases. }
  destruct (Z.eq_dec o (bits UT - Sh - n)) as [e|ne].
  - destruct (Z.eqb_spec (and int M (wrap UT b)) 0)
      as [z|nz]; [|simpl; f_equal; exact e].
    exfalso. apply (f_equal (fun x => Z.testbit x (bits UT - o - 1))) in z.
    rewrite Z.bits_0 in z.
    rewrite (low_and int) in z by (simpl; lia).
    rewrite narrow_mask_bits, Bb in z by lia. revert z. bool_cases.
  - assert (Z : and int M (wrap UT b) = 0).
    { unfold and. replace (Z.land M (wrap UT b)) with 0; [reflexivity|].
      symmetry. apply Z.bits_inj'. intros k Hk.
      rewrite Z.bits_0, Z.land_spec, narrow_mask_bits, Bb by lia. bool_cases. }
    rewrite Z. simpl negb. cbv iota. rewrite sz_word by lia.
    apply IH; lia.
Qed.

Lemma MaskMsbOffset_narrow :
  FieldProxy.MaskMsbOffset UT M = Ok (bits UT - Sh - n).
Proof.
  unfold FieldProxy.MaskMsbOffset. apply MaskMsbOffset_loop_narrow.
  - lia.
  - pose proof narrow_top. lia.
Qed.

(** The conversion returns the bits of the field without extending the
    sign. *)
Lemma read_narrow u :
  FieldProxy.read UT Sh M u = Ok (Z.land (Z.shiftr u Sh) (Z.ones n)).
Proof.
  pose proof narrow_top as T. destruct HP as [H0 H1 _ _].
  pose proof (mask_wrapped UT Sh n M narrow_pos HP) as W.
  unfold FieldProxy.read. rewrite UT_signed. cbn [negb].
  rewrite MaskMsbOffset_narrow. cbn [bind]. unfold FieldProxy.PT.
  rewrite promote_narrow by lia.
  rewrite (shl_defined int) by (simpl; lia). cbn [bind].
  rewrite sz_word by lia.
  replace (Sh + (bits UT - Sh - n)) with (bits UT - n) by lia.
  rewrite (shr_defined int) by (simpl; lia). cbn [bind]. f_equal.
  rewrite W.
  assert (X : forall k, 0 <= k ->
            Z.testbit (and int (wrap UT u) M) k =
              (Sh <=? k) && (k <? Sh + n) && Z.testbit u k).
  { intros k Hk. unfold and.
    rewrite (testbit_wrap int) by (simpl; lia). simpl bits. simpl is_signed.
    cbn [andb]. rewrite !Z.land_spec, !narrow_mask_bits by lia.
    destruct (Z.ltb_spec k 32).
    - destruct (Z.leb_spec Sh k), (Z.ltb_spec k (Sh + n)); cbn [andb];
        rewrite ?andb_false_r; try reflexivity.
      rewrite (testbit_wrap_low UT narrow_pos) by lia. apply andb_true_r.
    - destruct (Z.leb_spec Sh (32 - 1)), (Z.ltb_spec (32 - 1) (Sh + n)),
        (Z.leb_spec Sh k), (Z.ltb_spec k (Sh + n)); cbn [andb];
        rewrite ?andb_false_r; try reflexivity; lia. }
  assert (L : forall i, 0 <= i ->
            Z.testbit (wrap int (Z.shiftl (and int (wrap UT u) M)
                                   (bits UT - Sh - n))) i =
              (i <? 32) && (bits UT - n <=? i) && (i <? bits UT)
              && Z.testbit u (i - (bits UT - Sh - n))).
  { intros i Hi. rewrite (testbit_wrap int) by (simpl; lia). simpl bits.
    simpl is_signed. cbn [andb]. rewrite !Z.shiftl_spec by lia.
    destruct (Z.ltb_spec i 32).
    - destruct (Z_lt_le_dec (i - (bits UT - Sh - n)) 0).
      + rewrite Z.testbit_neg_r by lia.
        destruct (Z.leb_spec (bits UT - n) i); [lia|]. reflexivity.
      + rewrite X by lia. bool_cases.
    - rewrite X by lia. bool_cases. }
  apply Z.bits_inj'. intros j Hj.
  rewrite (testbit_wrap UT narrow_pos) by lia. rewrite UT_signed. cbn [andb].
  rewrite !Z.shiftr_spec by lia. rewrite !L by lia.
  rewrite Z.land_spec, Z.shiftr_spec, Z.testbit_ones_nonneg by lia.
  destruct (Z.ltb_spec j (bits UT)).
  - destruct (Z.ltb_spec (j + (bits UT - n)) 32),
      (Z.leb_spec (bits UT - n) (j + (bits UT - n))),
      (Z.ltb_spec (j + (bits UT - n)) (bits UT)), (Z.ltb_spec j n);
      cbn [andb]; rewrite ?andb_false_r; try reflexivity; try lia.
    rewrite andb_true_r. f_equal. lia.
  - destruct (Z.ltb_spec (bits UT - 1 + (bits UT - n)) 32),
      (Z.leb_spec (bits UT - n) (bits UT - 1 + (bits UT - n))),
      (Z.ltb_spec (bits UT - 1 + (bits UT - n)) (bits UT)), (Z.ltb_spec j n);
      cbn [andb]; rewrite ?andb_false_r; try reflexivity; lia.
Qed.

End ReadNarrowSigned.

Lemma signed_negative_iff T z :
  is_signed T = true -> 0 < bits T ->
  (wrap T z < 0 <-> Z.testbit z (bits T - 1) = true).
Proof.
  intros HS HT. unfold wrap. rewrite HS. cbn [andb].
  pose proof (Z.mod_pos_bound z (2 ^ bits T) (pow_bits_pos T HT)) as B.
  pose proof (pow_bits_half T HT) as Hh.
  rewrite <- (Z.mod_pow2_bits_low z (bits T) (bits T - 1)) by lia.
  rewrite Z.testbit_true by lia.
  set (m := z mod 2 ^ bits T) in *.
  assert (P : 0 < 2 ^ (bits T - 1)) by (apply Z.pow_pos_nonneg; lia).
  destruct (Z.leb_spec (2 ^ (bits T - 1)) m) as [l|g].
  - assert (m / 2 ^ (bits T - 1) = 1) as ->.
    { symmetry. apply (Z.div_unique _ _ 1 (m - 2 ^ (bits T - 1))); lia. }
    split; [reflexivity|lia].
  - rewrite Z.div_small by lia. split; [lia|discriminate].
Qed.

Lemma get_at_defined disallow BaseT FirstField Fields Ms sc I f :
  is_Ok (oversized_check disallow BaseT FirstField Fields) = true ->
  MaskArr BaseT FirstField Fields = Ok Ms ->
  all_fields FirstField Fields !! I = Some f ->
  is_Ok (get_at disallow BaseT FirstField Fields sc I)
    = (0 <? wrap BaseT (Ms !!! I)).
Proof.
  intros HO HM Hf. unfold get_at. rewrite HM, Hf.
  destruct (oversized_check disallow BaseT FirstField Fields); [|discriminate].
  cbn [bind]. unfold FieldProxy.instantiate.
  destruct (0 <? wrap BaseT (Ms !!! I)); reflexivity.
Qed.

(** X9.  On an unsigned base type no wider than [int], [get<I>()] is
    rejected with the size-zero message exactly for descriptors of width
    0 and returns an accessor exactly for those of non-zero width. *)
Theorem unsigned_accessor_iff (disallow : bool) (BaseT : IntType)
    (FirstField : Field) (Fields : list Field)
    (self_const : bool) (I : nat) (f : Field) :
  is_signed BaseT = false -> 0 < bits BaseT <= 32 ->
  fits (bits BaseT) 0 (WidthArr FirstField Fields) ->
  is_Ok (oversized_check disallow BaseT FirstField Fields) = true ->
  all_fields FirstField Fields !! I = Some f ->
  (get_at disallow BaseT FirstField Fields self_const I
     = Fail (Rejected SizeZeroMember) <-> Width f = 0) /\
  (is_Ok (get_at disallow BaseT FirstField Fields self_const I) = true
     <-> 0 < Width f).
Proof.
  intros HU [HT HN] HF HO Hf.
  pose proof (MaskArr_defined BaseT FirstField Fields ltac:(lia) HF) as HM.
  destruct (MaskArr BaseT FirstField Fields) as [Ms|] eqn:EM; [|discriminate].
  pose proof (get_at_defined disallow BaseT FirstField Fields Ms self_const
                I f HO EM Hf) as GD.
  assert (ZR : Width f = 0 ->
               get_at disallow BaseT FirstField Fields self_const I
               = Fail (Rejected SizeZeroMember)).
  { intros Z. apply (zero_width_rejected disallow BaseT FirstField Fields
                       self_const I f HO); [rewrite EM; reflexivity|exact Hf|exact Z]. }
  assert (PA : 0 < Width f ->
               is_Ok (get_at disallow BaseT FirstField Fields self_const I)
               = true).
  { intros P. rewrite GD.
    pose proof (field_placed BaseT FirstField Fields HT HF Ms I f EM Hf P) as Pl.
    rewrite (mask_wrapped BaseT _ _ _ HT Pl).
    pose proof (wrap_bounds BaseT HT (Ms !!! I)) as B.
    rewrite (mask_wrapped BaseT _ _ _ HT Pl) in B.
    unfold min_val in B. rewrite HU in B.
    pose proof (mask_bits BaseT _ _ _ HT Pl
                  (FieldBeginArr BaseT FirstField Fields !!! I mod bits BaseT))
      as E.
    destruct Pl as [S0 N0 S1 _].
    assert (MB : mask_bit
                   (FieldBeginArr BaseT FirstField Fields !!! I mod bits BaseT)
                   (Z.min (Width f) (bits BaseT))
                   (FieldBeginArr BaseT FirstField Fields !!! I mod bits BaseT)
                 = true).
    { unfold mask_bit. apply orb_true_iff. left. apply andb_true_iff.
      split; [apply Z.leb_le|apply Z.ltb_lt]; lia. }
    rewrite MB in E.
    apply Z.ltb_lt.
    destruct (Z.eq_dec (Ms !!! I) 0) as [z|nz]; [|lia].
    rewrite z, Z.bits_0 in E. specialize (E ltac:(lia)). discriminate. }
  destruct (width_cases BaseT FirstField Fields HF I f Hf) as [Z|P].
  - split; split; intros H; try assumption; try lia.
    + apply ZR; exact Z.
    + rewrite (ZR Z) in H. discriminate.
  - split; split; intros H; try assumption; try lia.
    + rewrite H in PA. specialize (PA P). discriminate.
    + apply PA; exact P.
Qed.

Lemma unsigned_accessor_iff_witness :
  let A := mkField 0 3 0 false in
  let P := Padding 255 0 in
  let C := mkField 2 1 0 false in
  (get_at false uint8_t A [P; C] false 1 = Fail (Rejected SizeZeroMember)
     <-> Width P = 0) /\
  (is_Ok (get_at false uint8_t A [P; C] false 1) = true <-> 0 < Width P).
Proof.
  apply (unsigned_accessor_iff false uint8_t (mkField 0 3 0 false)
           [Padding 255 0; mkField 2 1 0 false] false 1 (Padding 255 0));
    [ reflexivity | simpl; lia | solve_fits | reflexivity | reflexivity ].
Defined.

(** X10.  On a signed base type no wider than [int], a field of
    non-zero width has an accessor exactly when it stops below the sign
    bit of its unit; when it covers the sign bit [get<I>()] is rejected
    with the size-zero message. *)
Theorem signed_accessor_iff (disallow : bool) (BaseT : IntType)
    (FirstField : Field) (Fields : list Field)
    (self_const : bool) (I : nat) (f : Field) :
  is_signed BaseT = true -> 0 < bits BaseT <= 32 ->
  fits (bits BaseT) 0 (WidthArr FirstField Fields) ->
  is_Ok (oversized_check disallow BaseT FirstField Fields) = true ->
  all_fields FirstField Fields !! I = Some f -> 0 < Width f ->
  let Sh := FieldBeginArr BaseT FirstField Fields !!! I mod bits BaseT in
  let n := Z.min (Width f) (bits BaseT) in
  (is_Ok (get_at disallow BaseT FirstField Fields self_const I) = true
     <-> Sh + n < bits BaseT) /\
  (get_at disallow BaseT FirstField Fields self_const I
     = Fail (Rejected SizeZeroMember) <-> Sh + n = bits BaseT).
Proof.
  intros HS [HT HN] HF HO Hf P Sh n.
  pose proof (MaskArr_defined BaseT FirstField Fields ltac:(lia) HF) as HM.
  destruct (MaskArr BaseT FirstField Fields) as [Ms|] eqn:EM; [|discriminate].
  pose proof (get_at_defined disallow BaseT FirstField Fields Ms self_const
                I f HO EM Hf) as GD.
  pose proof (field_placed BaseT FirstField Fields HT HF Ms I f EM Hf P) as Pl.
  fold Sh n in Pl.
  pose proof (mask_wrapped BaseT _ _ _ HT Pl) as W.
  pose proof Pl as [S0 N0 S1 _].
  assert (NZ : Ms !!! I <> 0).
  { intros z. pose proof (mask_bits BaseT _ _ _ HT Pl Sh ltac:(lia)) as E.
    rewrite z, Z.bits_0 in E. unfold mask_bit in E.
    destruct (Z.leb_spec Sh Sh); [|lia].
    destruct (Z.ltb_spec Sh (Sh + n)); [|lia]. discriminate. }
  assert (NEG : Ms !!! I < 0 <-> Sh + n = bits BaseT).
  { rewrite <- W at 1. rewrite (signed_negative_iff BaseT _ HS HT).
    rewrite (mask_bits BaseT _ _ _ HT Pl) by lia. unfold mask_bit.
    destruct (Z.leb_spec Sh (bits BaseT - 1)), (Z.leb_spec 32 (bits BaseT - 1)),
      (Z.ltb_spec (bits BaseT - 1) (Sh + n)); cbn [andb orb];
      split; intros; try discriminate; try reflexivity; lia. }
  assert (G : get_at disallow BaseT FirstField Fields self_const I =
              if 0 <? Ms !!! I
              then get_at disallow BaseT FirstField Fields self_const I
              else Fail (Rejected SizeZeroMember)).
  { destruct (Z.ltb_spec 0 (Ms !!! I)); [reflexivity|].
    unfold get_at. rewrite EM, Hf.
    destruct (oversized_check disallow BaseT FirstField Fields);
      [|discriminate]. cbn [bind]. unfold FieldProxy.instantiate. rewrite W.
    destruct (Z.ltb_spec 0 (Ms !!! I)); [lia|]. reflexivity. }
  rewrite W in GD. split.
  - rewrite GD. rewrite Z.ltb_lt. lia.
  - split.
    + intros E. rewrite E in GD. cbn in GD. symmetry in GD.
      apply Z.ltb_ge in GD. lia.
    + intros E. rewrite G. destruct (Z.ltb_spec 0 (Ms !!! I)); [lia|reflexivity].
Qed.

Lemma signed_accessor_iff_witness :
  let A := mkField 0 4 0 false in
  let B := mkField 1 4 0 false in
  let Sh := FieldBeginArr int8_t A [B] !!! 1%nat mod bits int8_t in
  let n := Z.min (Width B) (bits int8_t) in
  (is_Ok (get_at false int8_t A [B] false 1) = true <-> Sh + n < bits int8_t) /\
  (get_at false int8_t A [B] false 1 = Fail (Rejected SizeZeroMember)
     <-> Sh + n = bits int8_t).
Proof.
  apply (signed_accessor_iff false int8_t (mkField 0 4 0 false)
           [mkField 1 4 0 false] false 1 (mkField 1 4 0 false));
    [ reflexivity | simpl; lia | solve_fits | reflexivity | reflexivity
    | simpl; lia ].
Defined.



(** X12.  On a signed base type narrower than [int], the conversion
    returns the bits of the field without sign extension, a value in
    [[0, 2 ^ n)]; assigning [V] and reading back therefore gives
    [V mod 2 ^ n]. *)
Theorem narrow_signed_read_unsigned (disallow : bool) (BaseT : IntType)
    (FirstField : Field) (Fields : list Field)
    (self_const : bool) (I : nat) (p : proxy) (f : Field)
    (D : list Z) (u : Z) :
  is_signed BaseT = true -> 0 < bits BaseT < 32 ->
  fits (bits BaseT) 0 (WidthArr FirstField Fields) ->
  get_at disallow BaseT FirstField Fields self_const I = Ok p ->
  all_fields FirstField Fields !! I = Some f ->
  D !! p_unit p = Some u ->
  let n := Z.min (Width f) (bits BaseT) in
  load BaseT p D = Ok (Z.shiftr u (p_Shift p) mod 2 ^ n) /\
  0 <= Z.shiftr u (p_Shift p) mod 2 ^ n < 2 ^ n /\
  (p_const p = false ->
   forall V, exists D',
     modify BaseT (FieldProxy.Assign V) p D = Ok D' /\
     load BaseT p D' = Ok (V mod 2 ^ n)).
Proof.
  intros HS HT HF HG Hf Hu n. assert (HP : 0 < bits BaseT) by lia.
  destruct (get_at_inv disallow BaseT FirstField Fields HP HF
              self_const I p HG)
    as (f' & Ms & Hf' & HM & -> & PW & Mpos & Pl).
  rewrite Hf in Hf'. inversion Hf'; subst f'. cbn [p_unit p_Shift p_const] in *.
  fold n in Pl. pose proof Pl as [S0 N0 S1 _].
  assert (R : forall x,
            FieldProxy.read BaseT
              (FieldBeginArr BaseT FirstField Fields !!! I mod bits BaseT)
              (Ms !!! I) x
            = Ok (Z.shiftr x (FieldBeginArr BaseT FirstField Fields !!! I
                              mod bits BaseT) mod 2 ^ n)).
  { intros x. rewrite (read_narrow BaseT _ _ _ HS HT Pl Mpos).
    rewrite Z.land_ones by lia. reflexivity. }
  split; [|split].
  - unfold load. cbn [p_unit p_Shift p_Mask]. rewrite Hu. apply R.
  - apply Z.mod_pos_bound. apply Z.pow_pos_nonneg; lia.
  - intros Hc V.
    destruct (assign_spec BaseT _ _ _ HP Pl u V) as (u' & EA & _ & Bu).
    unfold modify, load. cbn [p_const p_unit p_Shift p_Mask].
    rewrite Hc. cbn [FieldProxy.writable bind]. rewrite Hu.
    cbn [FieldProxy.apply]. rewrite EA. cbn [bind].
    eexists. split; [reflexivity|].
    rewrite list_lookup_insert_eq by (eapply lookup_lt_Some; eauto).
    rewrite R. f_equal. apply Z.bits_inj'. intros j Hj.
    destruct (Z.ltb_spec j n) as [l|g].
    + rewrite !Z.mod_pow2_bits_low by lia.
      rewrite Z.shiftr_spec by lia. rewrite Bu by lia.
      rewrite (mask_bit_field BaseT _ _ _ Pl) by lia. f_equal. lia.
    + rewrite !Z.mod_pow2_bits_high by lia. reflexivity.
Qed.

Lemma narrow_signed_read_unsigned_witness :
  let A := mkField 0 4 0 false in
  let B := mkField 1 3 0 false in
  let p := mkProxy false 0 15 0 in
  let n := Z.min (Width A) (bits int8_t) in
  load int8_t p [0] = Ok (Z.shiftr 0 (p_Shift p) mod 2 ^ n) /\
  0 <= Z.shiftr 0 (p_Shift p) mod 2 ^ n < 2 ^ n /\
  (p_const p = false ->
   forall V, exists D',
     modify int8_t (FieldProxy.Assign V) p [0] = Ok D' /\
     load int8_t p D' = Ok (V mod 2 ^ n)).
Proof.
  apply (narrow_signed_read_unsigned false int8_t (mkField 0 4 0 false)
           [mkField 1 3 0 false] false 0 (mkProxy false 0 15 0)
           (mkField 0 4 0 false) [0] 0);
    [ reflexivity | simpl; lia | solve_fits | reflexivity | reflexivity
    | reflexivity ].
Defined.

(** X28.  Over an unsigned integer base type other than [bool], no
    wider than [int], in a layout whose cursor does not overflow
    [std::size_t] ([fits]), a writable field at least as wide as the
    unit starts at bit 0 of its unit with a mask of all ones: its
    accessor reads the whole unit (a value of the base type), and an
    assignment stores the value converted to the base type. *)
Theorem unit_wide_field_is_the_unit (disallow : bool) (BaseT : IntType)
    (FirstField : Field) (Fields : list Field)
    (I : nat) (p : proxy) (f : Field) (D : list Z) (u V : Z) :
  is_signed BaseT = false -> 0 < bits BaseT <= 32 ->
  fits (bits BaseT) 0 (WidthArr FirstField Fields) ->
  get_at disallow BaseT FirstField Fields false I = Ok p ->
  all_fields FirstField Fields !! I = Some f -> Fixed f = false ->
  bits BaseT <= Width f ->
  D !! p_unit p = Some u -> wrap BaseT u = u ->
  p_Shift p = 0 /\
  p_Mask p = 2 ^ bits BaseT - 1 /\
  load BaseT p D = Ok u /\
  modify BaseT (FieldProxy.Assign V) p D = Ok (<[p_unit p := wrap BaseT V]> D).
Proof.
  intros HU [HT HN] HF HG Hf HFx HW Hu Wu.
  destruct (get_at_inv disallow BaseT FirstField Fields HT HF false I p HG)
    as (f' & Ms & Hf' & HMs & -> & PW & Mpos & Pl).
  rewrite Hf in Hf'. inversion Hf'; subst f'.
  cbn [p_unit p_Shift p_Mask] in *.
  replace (Z.min (Width f) (bits BaseT)) with (bits BaseT) in Pl by lia.
  pose proof Pl as [S0 _ S1 _].
  assert (ES : FieldBeginArr BaseT FirstField Fields !!! I mod bits BaseT = 0)
    by lia.
  rewrite ES in *.
  assert (MB : forall k, 0 <= k < bits BaseT ->
                 mask_bit 0 (bits BaseT) k = true).
  { intros k Hk. unfold mask_bit. apply orb_true_iff. left.
    apply andb_true_iff. split; [apply Z.leb_le|apply Z.ltb_lt]; lia. }
  assert (WU : forall x, wrap BaseT x = x mod 2 ^ bits BaseT).
  { intros x. unfold wrap. rewrite HU. reflexivity. }
  split; [reflexivity|]. split; [|split].
  - rewrite <- (mask_wrapped BaseT _ _ _ HT Pl), WU.
    replace (2 ^ bits BaseT - 1) with (Z.ones (bits BaseT))
      by (rewrite Z.ones_equiv; lia).
    apply Z.bits_inj'. intros k Hk.
    rewrite Z.testbit_ones_nonneg by lia.
    destruct (Z.ltb_spec k (bits BaseT)).
    + rewrite Z.mod_pow2_bits_low by lia.
      rewrite (mask_bits BaseT _ _ _ HT Pl) by lia. apply MB. lia.
    + apply Z.mod_pow2_bits_high. lia.
  - unfold load. cbn [p_unit p_Shift p_Mask]. rewrite Hu.
    rewrite (read_unsigned BaseT _ _ _ HT HU HN Pl).
    rewrite Z.shiftr_0_r. f_equal. rewrite <- Wu at 2.
    unfold wrap, field_type. cbn [bits is_signed]. reflexivity.
  - destruct (assign_spec BaseT _ _ _ HT Pl u V) as (u' & EA & Wu' & Bu).
    unfold modify. cbn [p_const p_unit p_Shift p_Mask].
    rewrite HFx. cbn [orb FieldProxy.writable bind]. rewrite Hu.
    cbn [FieldProxy.apply]. rewrite EA. cbn [bind]. do 2 f_equal.
    rewrite <- Wu'. apply wrap_ext; [exact HT|]. intros k Hk.
    rewrite Bu, MB by exact Hk. f_equal. lia.
Qed.

Lemma unit_wide_field_is_the_unit_witness :
  let p := mkProxy false 0 255 0 in
  p_Shift p = 0 /\
  p_Mask p = 2 ^ bits uint8_t - 1 /\
  load uint8_t p [44; 0] = Ok 44 /\
  modify uint8_t (FieldProxy.Assign 300) p [44; 0]
    = Ok (<[p_unit p := wrap uint8_t 300]> [44; 0]).
Proof.
  apply (unit_wide_field_is_the_unit false uint8_t (mkField 0 9 0 false) []
           0 (mkProxy false 0 255 0) (mkField 0 9 0 false) [44; 0] 44 300);
    [ reflexivity | simpl; lia | solve_fits | reflexivity | reflexivity
    | reflexivity | simpl; lia | reflexivity | reflexivity ].
Defined.

(** ** How the operators compose *)

(** X13.  An assignment overwrites the field: after any modifying
    operator on a field, assigning [V] to it gives the storage that
    assigning [V] straight away gives, and that assignment is always
    defined. *)
Theorem assignment_overwrites (disallow : bool) (BaseT : IntType)
    (FirstField : Field) (Fields : list Field)
    (I : nat) (p : proxy) (m : FieldProxy.modifier) (D D1 : list Z) (V : Z) :
  0 < bits BaseT ->
  fits (bits BaseT) 0 (WidthArr FirstField Fields) ->
  get_at disallow BaseT FirstField Fields false I = Ok p ->
  modify BaseT m p D = Ok D1 ->
  modify BaseT (FieldProxy.Assign V) p D1
    = modify BaseT (FieldProxy.Assign V) p D /\
  is_Ok (modify BaseT (FieldProxy.Assign V) p D) = true.
Proof.
  intros HT HF HG HM.
  destruct (get_at_inv disallow BaseT FirstField Fields HT HF false I p HG)
    as (f & Ms & Hf & HMs & -> & PW & Mpos & Pl).
  destruct (modify_inv BaseT m _ D D1 HM) as (u & u1 & Hu & HA & ->).
  cbn [p_const p_Shift p_Mask p_unit] in *.
  destruct (apply_frame BaseT _ _ _ HT Pl _ m u u1 HA) as (Hc & Wu1 & Fr).
  unfold modify. cbn [p_const p_Shift p_Mask p_unit]. rewrite Hc.
  cbn [FieldProxy.writable bind].
  rewrite list_lookup_insert_eq by (eapply lookup_lt_Some; eauto).
  rewrite Hu. cbn [FieldProxy.apply].
  destruct (assign_spec BaseT _ _ _ HT Pl u1 V) as (a1 & E1 & W1 & B1).
  destruct (assign_spec BaseT _ _ _ HT Pl u V) as (a & E0 & W0 & B0).
  rewrite E1, E0. cbn [bind is_Ok]. split; [|reflexivity].
  rewrite list_insert_insert_eq. do 2 f_equal.
  rewrite <- W1, <- W0. apply wrap_ext; [exact HT|]. intros k Hk.
  rewrite B1, B0 by exact Hk.
  destruct (mask_bit _ _ k) eqn:Em; [reflexivity|].
  apply Fr; assumption.
Qed.

Lemma assignment_overwrites_witness :
  let A := mkField 0 4 0 false in
  let B := mkField 1 4 0 false in
  let p := mkProxy false 4 240 0 in
  modify uint8_t (FieldProxy.Assign 9) p [165]
    = modify uint8_t (FieldProxy.Assign 9) p [5] /\
  is_Ok (modify uint8_t (FieldProxy.Assign 9) p [5]) = true.
Proof.
  apply (assignment_overwrites false uint8_t (mkField 0 4 0 false)
           [mkField 1 4 0 false] 1 (mkProxy false 4 240 0)
           (FieldProxy.ArithAssign FieldProxy.Add uint8_t 10) [5] [165] 9);
    [ simpl; lia | solve_fits | reflexivity | reflexivity ].
Defined.

(** X14.  Over an integer base type other than [bool], in a layout
    whose cursor does not overflow [std::size_t] ([fits]), assignments
    through the accessors of two different fields commute: when they are
    defined in one order they are defined in the other, and in either
    order they give the same storage. *)
Theorem assignments_commute (disallow : bool) (BaseT : IntType)
    (FirstField : Field) (Fields : list Field)
    (I J : nat) (p q : proxy) (D D1 D2 : list Z) (V W : Z) :
  0 < bits BaseT ->
  fits (bits BaseT) 0 (WidthArr FirstField Fields) ->
  get_at disallow BaseT FirstField Fields false I = Ok p ->
  get_at disallow BaseT FirstField Fields false J = Ok q ->
  I <> J ->
  modify BaseT (FieldProxy.Assign V) p D = Ok D1 ->
  modify BaseT (FieldProxy.Assign W) q D1 = Ok D2 ->
  exists D1',
    modify BaseT (FieldProxy.Assign W) q D = Ok D1' /\
    modify BaseT (FieldProxy.Assign V) p D1' = Ok D2.
Proof.
  intros HT HF HGp HGq Hne HM1 HM2.
  destruct (get_at_inv disallow BaseT FirstField Fields HT HF false I p HGp)
    as (fI & Ms & HfI & HMs & -> & PWI & MposI & PlI).
  destruct (get_at_inv disallow BaseT FirstField Fields HT HF false J q HGq)
    as (fJ & Ms' & HfJ & HMs' & -> & PWJ & MposJ & PlJ).
  rewrite HMs in HMs'. inversion HMs'; subst Ms'; clear HMs'.
  destruct (modify_inv BaseT _ _ D D1 HM1) as (u & a & Hu & HA & ->).
  destruct (modify_inv BaseT _ _ _ D2 HM2) as (w & b & Hw & HB & ->).
  cbn [p_const p_Shift p_Mask p_unit FieldProxy.apply] in *.
  destruct (Fixed fI); [discriminate|]. destruct (Fixed fJ); [discriminate|].
  cbn [orb] in *.
  set (i := Z.to_nat (FieldBeginArr BaseT FirstField Fields !!! I / bits BaseT))
    in *.
  set (j := Z.to_nat (FieldBeginArr BaseT FirstField Fields !!! J / bits BaseT))
    in *.
  unfold modify. cbn [p_const p_Shift p_Mask p_unit orb FieldProxy.writable
                      bind FieldProxy.apply].
  destruct (assign_spec BaseT _ _ _ HT PlI u V) as (a0 & Ea & Wa & Ba).
  rewrite HA in Ea. inversion Ea; subst a0; clear Ea.
  destruct (assign_spec BaseT _ _ _ HT PlJ w W) as (b0 & Eb & Wb & Bb).
  rewrite HB in Eb. inversion Eb; subst b0; clear Eb.
  destruct (Nat.eq_dec i j) as [e|ne].
  - rewrite <- e in *.
    rewrite list_lookup_insert_eq in Hw by (eapply lookup_lt_Some; eauto).
    inversion Hw; subst w; clear Hw.
    destruct (assign_spec BaseT _ _ _ HT PlJ u W) as (a' & Ea' & Wa' & Ba').
    destruct (assign_spec BaseT _ _ _ HT PlI a' V) as (b' & Eb' & Wb' & Bb').
    rewrite Hu, Ea'. cbn [bind]. eexists. split; [reflexivity|].
    rewrite list_lookup_insert_eq by (eapply lookup_lt_Some; eauto).
    rewrite Eb'. cbn [bind]. rewrite !list_insert_insert_eq. do 2 f_equal.
    rewrite <- Wb', <- Wb. apply wrap_ext; [exact HT|]. intros k Hk.
    rewrite Bb', Bb, Ba', Ba by exact Hk.
    assert (Eq : FieldBeginArr BaseT FirstField Fields !!! I / bits BaseT
                 = FieldBeginArr BaseT FirstField Fields !!! J / bits BaseT).
    { pose proof (FieldBeginArr_nonneg BaseT FirstField Fields HT HF I fI HfI).
      pose proof (FieldBeginArr_nonneg BaseT FirstField Fields HT HF J fJ HfJ).
      unfold i, j in e. lia. }
    pose proof (fields_disjoint_bits BaseT FirstField Fields HT HF Ms I J fI fJ
                  k HMs HfI HfJ Hne PWI PWJ Eq) as Dj.
    destruct (mask_bit _ (Z.min (Width fI) _) k),
      (mask_bit _ (Z.min (Width fJ) _) k); try reflexivity; discriminate.
  - rewrite list_lookup_insert_ne in Hw by exact ne.
    rewrite Hw, HB. cbn [bind]. eexists. split; [reflexivity|].
    rewrite list_lookup_insert_ne by (intros E; apply ne; symmetry; exact E).
    rewrite Hu, HA. cbn [bind]. f_equal.
    apply list_insert_insert_ne. intros E; apply ne; exact E.
Qed.

Lemma assignments_commute_witness :
  let A := mkField 0 3 0 false in
  let B := mkField 1 1 0 false in
  let C := mkField 2 5 0 false in
  exists D1',
    modify uint8_t (FieldProxy.Assign 10) (mkProxy false 0 31 1) [0; 0]
      = Ok D1' /\
    modify uint8_t (FieldProxy.Assign 2) (mkProxy false 0 7 0) D1'
      = Ok [2; 10].
Proof.
  apply (assignments_commute false uint8_t (mkField 0 3 0 false)
           [mkField 1 1 0 false; mkField 2 5 0 false] 0 2
           (mkProxy false 0 7 0) (mkProxy false 0 31 1)
           [0; 0] [2; 0] [2; 10] 2 10);
    [ simpl; lia | solve_fits | reflexivity | reflexivity | discriminate
    | reflexivity | reflexivity ].
Defined.

(** X15.  Applying [^=] twice with the same operand gives back the
    storage it started from. *)
Theorem xor_assign_involution (BaseT : IntType) (p : proxy)
    (D D1 : list Z) (u Rhs : Z) :
  0 < bits BaseT ->
  D !! p_unit p = Some u -> wrap BaseT u = u ->
  modify BaseT (FieldProxy.XorAssign Rhs) p D = Ok D1 ->
  modify BaseT (FieldProxy.XorAssign Rhs) p D1 = Ok D.
Proof.
  intros HT Hu Wu HM.
  destruct (modify_inv BaseT _ _ D D1 HM) as (u0 & u1 & Hu0 & HA & ->).
  rewrite Hu in Hu0. inversion Hu0; subst u0; clear Hu0.
  unfold modify in *. rewrite Hu in HM.
  destruct (FieldProxy.writable (p_const p)) as [[]|] eqn:EW; [|discriminate].
  cbn [bind] in *.
  rewrite list_lookup_insert_eq by (eapply lookup_lt_Some; eauto).
  cbn [FieldProxy.apply] in *. unfold FieldProxy.xor_assign in *.
  destruct (FieldProxy.writable (p_const p)) as [[]|]; [|discriminate].
  cbn [bind] in *.
  destruct (shl (FieldProxy.PT BaseT) (wrap BaseT Rhs) (p_Shift p)) as [X|] eqn:EX;
    [|discriminate].
  cbn [bind] in *. inversion HA; subst u1; clear HA HM.
  rewrite list_insert_insert_eq. f_equal.
  rewrite <- (list_insert_id D (p_unit p) u Hu) at 2. f_equal.
  transitivity (wrap BaseT u); [|exact Wu].
  apply wrap_ext; [exact HT|]. intros k Hk.
  unfold FieldProxy.PT. lowbits BaseT.
  destruct (Z.testbit u k), (Z.testbit X k),
    (Z.testbit (p_Mask p) k); reflexivity.
Qed.

Lemma xor_assign_involution_witness :
  modify uint8_t (FieldProxy.XorAssign 5) (mkProxy false 4 240 0) [245]
    = Ok [165].
Proof.
  apply (xor_assign_involution uint8_t (mkProxy false 4 240 0)
           [165] [245] 165 5);
    [ simpl; lia | reflexivity | reflexivity | reflexivity ].
Defined.

Lemma tested_sound T : tested_base T -> sound_base T.
Proof.
  intros [->|[->|[->| ->]]]; (split; [simpl; lia|]); simpl; try discriminate;
    reflexivity.
Qed.

Lemma testbit_congr a b n j :
  a mod 2 ^ n = b mod 2 ^ n -> 0 <= j < n -> Z.testbit a j = Z.testbit b j.
Proof.
  intros E Hj. rewrite <- (Z.mod_pow2_bits_low a n j) by lia.
  rewrite <- (Z.mod_pow2_bits_low b n j) by lia. rewrite E. reflexivity.
Qed.

Section Step.

Variable UT : IntType.
Variables Sh n M : Z.
Hypothesis HB : tested_base UT.
Hypothesis HP : placed UT Sh n M.
Hypothesis HM : 0 < wrap UT M.

(** The value read from a field stays clear of the ends of [int]. *)
Lemma read_clear u :
  is_signed (promote UT) = true ->
  - 2 ^ 30 <= spec_read UT Sh n u < 2 ^ 30.
Proof.
  intros HS. pose proof HP as [S0 N0 S1 _].
  pose proof (wrap_bounds (field_type UT n) N0 (Z.shiftr u Sh)) as B.
  fold (spec_read UT Sh n u) in B. unfold min_val, max_val, field_type in B.
  simpl bits in B. simpl is_signed in B.
  destruct HB as [->|[->|[->| ->]]]; simpl in *; try discriminate.
  - assert (2 ^ n <= 2 ^ 8) by (apply Z.pow_le_mono_r; lia).
    change (2 ^ 8) with 256 in *. lia.
  - assert (2 ^ n <= 2 ^ 16) by (apply Z.pow_le_mono_r; lia).
    change (2 ^ 16) with 65536 in *. lia.
  - pose proof (int_top Sh n M HP HM) as T.
    assert (2 ^ (n - 1) <= 2 ^ 30) by (apply Z.pow_le_mono_r; lia).
    lia.
Qed.

(** Adding [d], one up or one down, to the value read. *)
Lemma step_defined u d :
  d = 1 \/ d = -1 ->
  exists r, arith (promote UT) (spec_read UT Sh n u + d) = Ok r /\
    forall j, 0 <= j < 32 ->
      Z.testbit r j = Z.testbit (spec_read UT Sh n u + d) j.
Proof.
  intros Hd. unfold arith.
  destruct (is_signed (promote UT)) eqn:ES.
  - pose proof (read_clear u ES) as R.
    assert (B : bits (promote UT) = 32).
    { destruct HB as [->|[->|[->| ->]]]; reflexivity. }
    unfold in_range, min_val, max_val. rewrite ES, B.
    change (2 ^ (32 - 1)) with 2147483648.
    change (2 ^ 30) with 1073741824 in R.
    repeat match goal with
      | |- context [?a <=? ?b] => destruct (Z.leb_spec a b); [|lia]
      end.
    eexists. split; [reflexivity|]. reflexivity.
  - eexists. split; [reflexivity|]. intros j Hj.
    apply testbit_wrap_low.
    + pose proof (bits_promote UT). lia.
    + destruct HB as [->|[->|[->| ->]]]; simpl in *; try discriminate; lia.
Qed.

Lemma step_spec u d :
  d = 1 \/ d = -1 ->
  exists r,
    arith (promote UT) (spec_read UT Sh n u + d) = Ok r /\
    FieldProxy.read UT Sh M (spec_write UT Sh n u r)
      = Ok (wrap (field_type UT n) (spec_read UT Sh n u + d)) /\
    (forall k, 0 <= k < bits UT ->
       Z.testbit (spec_write UT Sh n u r) k =
         if (Sh <=? k) && (k <? Sh + n)
         then Z.testbit (spec_read UT Sh n u + d) (k - Sh)
         else Z.testbit u k).
Proof.
  intros Hd. destruct (step_defined u d Hd) as (r & Er & Br).
  pose proof (tested_sound UT HB) as HS.
  pose proof HS as [[T0 T1] _]. pose proof HP as [S0 N0 S1 _].
  exists r. split; [exact Er|].
  assert (W : forall k, 0 <= k < bits UT ->
       Z.testbit (spec_write UT Sh n u r) k =
         if (Sh <=? k) && (k <? Sh + n)
         then Z.testbit (spec_read UT Sh n u + d) (k - Sh)
         else Z.testbit u k).
  { intros k Hk. rewrite (spec_write_bits UT Sh n M HS HP) by exact Hk.
    destruct (Z.leb_spec Sh k), (Z.ltb_spec k (Sh + n)); cbn [andb];
      try reflexivity. apply Br. lia. }
  split; [|exact W].
  apply (read_stored UT Sh n M _ _ HS HP HM). intros k Hk Hm.
  rewrite W by exact Hk.
  rewrite (exact_mask_bit UT Sh n HS k Hk) in Hm. rewrite Hm. reflexivity.
Qed.

End Step.

Lemma step_apply UT Sh n M u d m :
  tested_base UT -> placed UT Sh n M -> 0 < wrap UT M ->
  (d = 1 /\ m = FieldProxy.PreIncrement) \/
  (d = -1 /\ m = FieldProxy.PreDecrement) ->
  exists u',
    FieldProxy.apply UT false Sh M m u = Ok u' /\
    wrap UT u' = u' /\
    FieldProxy.read UT Sh M u'
      = Ok (wrap (field_type UT n) (spec_read UT Sh n u + d)) /\
    (forall k, 0 <= k < bits UT ->
       Z.testbit u' k =
         if (Sh <=? k) && (k <? Sh + n)
         then Z.testbit (spec_read UT Sh n u + d) (k - Sh)
         else Z.testbit u k).
Proof.
  intros HB HP HM Hd.
  pose proof (tested_sound UT HB) as HS. pose proof HS as [[T0 _] _].
  destruct (step_spec UT Sh n M HB HP HM u d ltac:(tauto))
    as (r & Er & Rr & Br).
  exists (spec_write UT Sh n u r).
  split; [|split; [apply wrap_wrap; exact T0|split; [exact Rr|exact Br]]].
  destruct Hd as [[-> ->]|[-> ->]].
  - rewrite (update_refines_spec UT Sh n M FieldProxy.PreIncrement u HS HP HM I).
    unfold spec_update, spec_operator, add. rewrite Er. reflexivity.
  - rewrite (update_refines_spec UT Sh n M FieldProxy.PreDecrement u HS HP HM I).
    unfold spec_update, spec_operator, sub.
    change (spec_read UT Sh n u - 1) with (spec_read UT Sh n u + -1).
    rewrite Er. reflexivity.
Qed.

(** X16.  On the tested base types [++] and [--] are always defined and
    wrap around within the range of the field: the field then reads the
    old value plus or minus one, reduced to the field's logical type. *)
Theorem increment_wraps (disallow : bool) (BaseT : IntType)
    (FirstField : Field) (Fields : list Field)
    (I : nat) (p : proxy) (f : Field) (D : list Z) (v : Z) :
  tested_base BaseT ->
  fits (bits BaseT) 0 (WidthArr FirstField Fields) ->
  get_at disallow BaseT FirstField Fields false I = Ok p ->
  all_fields FirstField Fields !! I = Some f -> Fixed f = false ->
  load BaseT p D = Ok v ->
  let T := field_type BaseT (Z.min (Width f) (bits BaseT)) in
  (exists D', modify BaseT FieldProxy.PreIncrement p D = Ok D' /\
     load BaseT p D' = Ok (wrap T (v + 1))) /\
  (exists D', modify BaseT FieldProxy.PreDecrement p D = Ok D' /\
     load BaseT p D' = Ok (wrap T (v - 1))).
Proof.
  intros HB HF HG Hf HFx HL T.
  pose proof (tested_sound BaseT HB) as HS. pose proof HS as [[HT _] _].
  destruct (get_at_inv disallow BaseT FirstField Fields HT HF false I p HG)
    as (f' & Ms & Hf' & HMs & -> & PW & Mpos & Pl).
  rewrite Hf in Hf'. inversion Hf'; subst f'.
  unfold load in HL. cbn [p_unit p_Shift p_Mask] in HL.
  destruct (D !! _) as [u|] eqn:Hu; [|discriminate].
  rewrite (read_spec BaseT _ _ _ HS Pl Mpos) in HL. inversion HL; subst v.
  assert (G : forall d m,
            (d = 1 /\ m = FieldProxy.PreIncrement) \/
            (d = -1 /\ m = FieldProxy.PreDecrement) ->
            exists D',
              modify BaseT m
                (mkProxy (false || Fixed f)
                   (FieldBeginArr BaseT FirstField Fields !!! I mod bits BaseT)
                   (Ms !!! I)
                   (Z.to_nat (FieldBeginArr BaseT FirstField Fields !!! I
                              / bits BaseT))) D = Ok D' /\
              load BaseT
                (mkProxy (false || Fixed f)
                   (FieldBeginArr BaseT FirstField Fields !!! I mod bits BaseT)
                   (Ms !!! I)
                   (Z.to_nat (FieldBeginArr BaseT FirstField Fields !!! I
                              / bits BaseT))) D'
              = Ok (wrap T (spec_read BaseT
                      (FieldBeginArr BaseT FirstField Fields !!! I mod bits BaseT)
                      (Z.min (Width f) (bits BaseT)) u + d))).
  { intros d m Hd.
    destruct (step_apply BaseT _ _ _ u d m HB Pl Mpos Hd)
      as (u' & EA & _ & ER & _).
    unfold modify, load. cbn [p_const p_unit p_Shift p_Mask].
    rewrite HFx. cbn [orb FieldProxy.writable bind]. rewrite Hu, EA.
    cbn [bind]. eexists. split; [reflexivity|].
    rewrite list_lookup_insert_eq by (eapply lookup_lt_Some; eauto).
    exact ER. }
  split.
  - apply (G 1 FieldProxy.PreIncrement). left. split; reflexivity.
  - apply (G (-1) FieldProxy.PreDecrement). right. split; reflexivity.
Qed.

Lemma increment_wraps_witness :
  let A := mkField 0 4 0 false in
  let B := mkField 1 4 0 false in
  let p := mkProxy false 4 240 0 in
  let T := field_type uint8_t (Z.min (Width B) (bits uint8_t)) in
  (exists D', modify uint8_t FieldProxy.PreIncrement p [245] = Ok D' /\
     load uint8_t p D' = Ok (wrap T (15 + 1))) /\
  (exists D', modify uint8_t FieldProxy.PreDecrement p [245] = Ok D' /\
     load uint8_t p D' = Ok (wrap T (15 - 1))).
Proof.
  apply (increment_wraps false uint8_t (mkField 0 4 0 false)
           [mkField 1 4 0 false] 1 (mkProxy false 4 240 0)
           (mkField 1 4 0 false) [245] 15);
    [ left; reflexivity | solve_fits | reflexivity | reflexivity
    | reflexivity | reflexivity ].
Defined.

(** X17.  On the tested base types [++] followed by [--], and [--]
    followed by [++], give back the storage they started from. *)
Theorem increment_decrement_inverse (disallow : bool) (BaseT : IntType)
    (FirstField : Field) (Fields : list Field)
    (I : nat) (p : proxy) (f : Field) (D : list Z) (u : Z) :
  tested_base BaseT ->
  fits (bits BaseT) 0 (WidthArr FirstField Fields) ->
  get_at disallow BaseT FirstField Fields false I = Ok p ->
  all_fields FirstField Fields !! I = Some f -> Fixed f = false ->
  D !! p_unit p = Some u -> wrap BaseT u = u ->
  (exists D', modify BaseT FieldProxy.PreIncrement p D = Ok D' /\
     modify BaseT FieldProxy.PreDecrement p D' = Ok D) /\
  (exists D', modify BaseT FieldProxy.PreDecrement p D = Ok D' /\
     modify BaseT FieldProxy.PreIncrement p D' = Ok D).
Proof.
  intros HB HF HG Hf HFx Hu Wu.
  pose proof (tested_sound BaseT HB) as HS. pose proof HS as [[HT _] _].
  destruct (get_at_inv disallow BaseT FirstField Fields HT HF false I p HG)
    as (f' & Ms & Hf' & HMs & -> & PW & Mpos & Pl).
  rewrite Hf in Hf'. inversion Hf'; subst f'.
  cbn [p_unit] in Hu.
  set (Sh := FieldBeginArr BaseT FirstField Fields !!! I mod bits BaseT) in *.
  set (n := Z.min (Width f) (bits BaseT)) in *.
  set (i := Z.to_nat (FieldBeginArr BaseT FirstField Fields !!! I / bits BaseT))
    in *.
  assert (G : forall d m d' m',
            (d = 1 /\ m = FieldProxy.PreIncrement) \/
            (d = -1 /\ m = FieldProxy.PreDecrement) ->
            (d' = 1 /\ m' = FieldProxy.PreIncrement) \/
            (d' = -1 /\ m' = FieldProxy.PreDecrement) ->
            d + d' = 0 ->
            exists D',
              modify BaseT m (mkProxy (false || Fixed f) Sh (Ms !!! I) i) D
                = Ok D' /\
              modify BaseT m' (mkProxy (false || Fixed f) Sh (Ms !!! I) i) D'
                = Ok D).
  { intros d m d' m' Hd Hd' Z.
    destruct (step_apply BaseT _ _ _ u d m HB Pl Mpos Hd)
      as (u1 & EA1 & _ & ER1 & B1).
    destruct (step_apply BaseT _ _ _ u1 d' m' HB Pl Mpos Hd')
      as (u2 & EA2 & W2 & _ & B2).
    unfold modify. cbn [p_const p_unit p_Shift p_Mask].
    rewrite HFx. cbn [orb FieldProxy.writable bind]. rewrite Hu, EA1.
    cbn [bind]. eexists. split; [reflexivity|].
    rewrite list_lookup_insert_eq by (eapply lookup_lt_Some; eauto).
    rewrite EA2. cbn [bind]. rewrite list_insert_insert_eq. f_equal.
    rewrite <- (list_insert_id D i u Hu) at 2. f_equal.
    rewrite <- W2, <- Wu. apply wrap_ext; [exact HT|]. intros k Hk.
    rewrite B2, B1 by exact Hk.
    destruct ((Sh <=? k) && (k <? Sh + n)) eqn:Em; [|reflexivity].
    apply andb_true_iff in Em as [Ea Eb]. apply Z.leb_le in Ea.
    apply Z.ltb_lt in Eb. pose proof Pl as [S0 N0 _ _].
    rewrite (read_spec BaseT _ _ _ HS Pl Mpos) in ER1.
    inversion ER1 as [E1]. rewrite E1.
    transitivity (Z.testbit (spec_read BaseT Sh n u) (k - Sh)).
    - apply (testbit_congr _ _ n); [|lia].
      pose proof (wrap_mod (field_type BaseT n) N0
                    (spec_read BaseT Sh n u + d)) as WM.
      simpl bits in WM.
      rewrite Zplus_mod, WM, <- Zplus_mod. f_equal. lia.
    - rewrite (spec_read_bits BaseT Sh n _ Pl) by lia.
      destruct (Z.ltb_spec (k - Sh) n); [|lia]. f_equal. lia. }
  split.
  - apply (G 1 FieldProxy.PreIncrement (-1) FieldProxy.PreDecrement);
      [left|right|]; try split; reflexivity.
  - apply (G (-1) FieldProxy.PreDecrement 1 FieldProxy.PreIncrement);
      [right|left|]; try split; reflexivity.
Qed.

Lemma increment_decrement_inverse_witness :
  let p := mkProxy false 4 240 0 in
  (exists D', modify uint8_t FieldProxy.PreIncrement p [245] = Ok D' /\
     modify uint8_t FieldProxy.PreDecrement p D' = Ok [245]) /\
  (exists D', modify uint8_t FieldProxy.PreDecrement p [245] = Ok D' /\
     modify uint8_t FieldProxy.PreIncrement p D' = Ok [245]).
Proof.
  apply (increment_decrement_inverse false uint8_t (mkField 0 4 0 false)
           [mkField 1 4 0 false] 1 (mkProxy false 4 240 0)
           (mkField 1 4 0 false) [245] 245);
    [ left; reflexivity | solve_fits | reflexivity | reflexivity
    | reflexivity | reflexivity | reflexivity ].
Defined.



(** X27.  Over an integer base type other than [bool], in a layout
    whose cursor does not overflow [std::size_t] ([fits]), on the
    accessor of a writable field whose unit holds a value of the base
    type, [|= 0], [^= 0], [&= -1], [<<= 0] and, on an unsigned base
    type, [>>= 0] leave the storage unchanged. *)
Theorem neutral_operands (disallow : bool) (BaseT : IntType)
    (FirstField : Field) (Fields : list Field)
    (I : nat) (p : proxy) (f : Field) (D : list Z) (u : Z) :
  0 < bits BaseT ->
  fits (bits BaseT) 0 (WidthArr FirstField Fields) ->
  get_at disallow BaseT FirstField Fields false I = Ok p ->
  all_fields FirstField Fields !! I = Some f -> Fixed f = false ->
  D !! p_unit p = Some u -> wrap BaseT u = u ->
  modify BaseT (FieldProxy.OrAssign 0) p D = Ok D /\
  modify BaseT (FieldProxy.XorAssign 0) p D = Ok D /\
  modify BaseT (FieldProxy.AndAssign (-1)) p D = Ok D /\
  modify BaseT (FieldProxy.ShlAssign 0) p D = Ok D /\
  (is_signed BaseT = false ->
   modify BaseT (FieldProxy.ShrAssign 0) p D = Ok D).
Proof.
  intros HT HF HG Hf HFx Hu Wu.
  destruct (get_at_inv disallow BaseT FirstField Fields HT HF false I p HG)
    as (f' & Ms & Hf' & HMs & -> & PW & Mpos & Pl).
  rewrite Hf in Hf'. inversion Hf'; subst f'.
  cbn [p_unit] in Hu.
  pose proof (shift_in_PT BaseT _ _ _ Pl) as SP.
  pose proof (bits_promote BaseT) as BP.
  pose proof Pl as [S0 N0 S1 _].
  set (Sh := FieldBeginArr BaseT FirstField Fields !!! I mod bits BaseT) in *.
  set (n := Z.min (Width f) (bits BaseT)) in *.
  set (i := Z.to_nat (FieldBeginArr BaseT FirstField Fields !!! I / bits BaseT))
    in *.
  assert (Done : forall x, wrap BaseT x = wrap BaseT u -> Ok (<[i := wrap BaseT x]> D) = Ok D).
  { intros x E. rewrite E, Wu, (list_insert_id D i u Hu). reflexivity. }
  assert (St : forall X,
            (forall k, 0 <= k < bits BaseT -> mask_bit Sh n k = true ->
                       Z.testbit X k = Z.testbit u k) ->
            Ok (<[i := FieldProxy.store BaseT (Ms !!! I) u (FieldProxy.PT BaseT) X]> D)
            = Ok D).
  { intros X HX.
    rewrite <- (store_wrapped BaseT _ HT u (FieldProxy.PT BaseT) X).
    apply Done. apply wrap_ext; [exact HT|]. intros k Hk.
    rewrite (store_bits BaseT _ _ _ HT Pl) by exact Hk.
    destruct (mask_bit Sh n k) eqn:Em; [|reflexivity]. apply HX; assumption. }
  unfold modify. cbn [p_const p_unit p_Shift p_Mask]. rewrite HFx.
  cbn [orb FieldProxy.writable bind]. rewrite Hu.
  cbn [FieldProxy.apply].
  unfold FieldProxy.or_assign, FieldProxy.xor_assign, FieldProxy.and_assign,
    FieldProxy.shl_assign, FieldProxy.shr_assign.
  cbn [FieldProxy.writable bind]. unfold FieldProxy.PT in *.
  rewrite !(shl_defined (promote BaseT)) by lia.
  cbn [bind].
  split; [|split; [|split; [|split]]].
  - apply Done. apply wrap_ext; [exact HT|]. intros k Hk. lowbits BaseT.
    rewrite (wrap_zero BaseT HT), Z.shiftl_0_l, Z.bits_0. cbn [andb].
    apply orb_false_r.
  - apply Done. apply wrap_ext; [exact HT|]. intros k Hk. lowbits BaseT.
    rewrite (wrap_zero BaseT HT), Z.shiftl_0_l, Z.bits_0, xorb_false_r.
    destruct (Z.testbit u k), (Z.testbit (Ms !!! I) k); reflexivity.
  - apply Done. apply wrap_ext; [exact HT|]. intros k Hk. lowbits BaseT.
    rewrite (mask_bits BaseT _ _ _ HT Pl) by exact Hk.
    destruct (mask_bit Sh n k) eqn:Em; cbn [negb];
      [|rewrite orb_true_r; apply andb_true_r].
    rewrite orb_false_r. rewrite Z.shiftl_spec by lia.
    pose proof (mask_bit_shift BaseT _ _ _ HT Pl k Em) as Hs.
    rewrite (testbit_wrap BaseT HT) by lia.
    destruct (Z.ltb_spec (k - Sh) (bits BaseT)); [|lia].
    change (-1) with (Z.lnot 0) at 1. rewrite Z.lnot_spec, Z.bits_0 by lia.
    apply andb_true_r.
  - rewrite Z.shiftl_0_r. apply St. intros k Hk Em. lowbits BaseT.
    rewrite (mask_bits BaseT _ _ _ HT Pl), Em by exact Hk.
    apply andb_true_r.
  - intros HU. rewrite HU. cbn [negb].
    rewrite (shr_defined (promote BaseT)) by lia. cbn [bind].
    rewrite Z.shiftr_0_r. apply St. intros k Hk Em. lowbits BaseT.
    rewrite (mask_bits BaseT _ _ _ HT Pl), Em by exact Hk.
    apply andb_true_r.
Qed.

Lemma neutral_operands_witness :
  let p := mkProxy false 4 240 0 in
  modify uint8_t (FieldProxy.OrAssign 0) p [165] = Ok [165] /\
  modify uint8_t (FieldProxy.XorAssign 0) p [165] = Ok [165] /\
  modify uint8_t (FieldProxy.AndAssign (-1)) p [165] = Ok [165] /\
  modify uint8_t (FieldProxy.ShlAssign 0) p [165] = Ok [165] /\
  (is_signed uint8_t = false ->
   modify uint8_t (FieldProxy.ShrAssign 0) p [165] = Ok [165]).
Proof.
  apply (neutral_operands false uint8_t (mkField 0 4 0 false)
           [mkField 1 4 0 false] 1 (mkProxy false 4 240 0)
           (mkField 1 4 0 false) [165] 165);
    [ simpl; lia | solve_fits | reflexivity | reflexivity | reflexivity
    | reflexivity | reflexivity ].
Defined.

(** ** Invariants of the storage *)

Lemma typed_insert BaseT D i u :
  typed BaseT D -> wrap BaseT u = u -> typed BaseT (<[i:=u]> D).
Proof.
  intros HD Hu. unfold typed in *. rewrite Forall_lookup in *.
  intros j x Hx. destruct (Nat.eq_dec i j) as [->|ne].
  - destruct (Nat.lt_ge_cases j (length D)).
    + rewrite list_lookup_insert_eq in Hx by assumption. congruence.
    + rewrite list_insert_ge in Hx by lia. eauto.
  - rewrite list_lookup_insert_ne in Hx by exact ne. eauto.
Qed.

Lemma Data_step_inv BaseT FirstField Fields Ms F F' I k :
  0 < bits BaseT ->
  Data_step BaseT FirstField Fields Ms F I = Ok F' ->
  (I < k)%nat ->
  typed BaseT F -> owned BaseT FirstField Fields Ms k F ->
  length F' = length F /\ typed BaseT F' /\
  owned BaseT FirstField Fields Ms k F'.
Proof.
  intros HT HS HI HTy HO. unfold Data_step in HS. cbv zeta in HS.
  unfold FieldTypeBits in HS.
  destruct (F !! _) as [u|] eqn:Eu; [|discriminate].
  inv_bind HS. inversion HS; subst F'; clear HS.
  split; [apply length_insert|]. split.
  - apply typed_insert; [exact HTy|]. apply wrap_wrap. exact HT.
  - intros j x b Hx Hb Hset.
    destruct (Nat.eq_dec
                (Z.to_nat (FieldBeginArr BaseT FirstField Fields !!! I
                           / bits BaseT)) j) as [e|ne].
    + rewrite e in *.
      rewrite list_lookup_insert_eq in Hx by (eapply lookup_lt_Some; eauto).
      inversion Hx; subst x; clear Hx. revert Hset. lowbits BaseT.
      destruct (Z.testbit (Ms !!! I) b) eqn:Em.
      * intros _. exists I. repeat split; assumption.
      * rewrite andb_false_r, orb_false_r, andb_true_r. intros Hset.
        eapply HO; eauto.
    + rewrite list_lookup_insert_ne in Hx by exact ne. eapply HO; eauto.
Qed.

Lemma fold_Data_inv BaseT FirstField Fields Ms k len : forall a D0 D,
  0 < bits BaseT -> (a + len <= k)%nat ->
  fold_result (Data_step BaseT FirstField Fields Ms) (seq a len) D0 = Ok D ->
  typed BaseT D0 -> owned BaseT FirstField Fields Ms k D0 ->
  length D = length D0 /\ typed BaseT D /\
  owned BaseT FirstField Fields Ms k D.
Proof.
  induction len as [|len IH]; intros a D0 D HT Hk HF HTy HO.
  - simpl in HF. inversion HF; subst. auto.
  - cbn [seq fold_result] in HF. inv_bind HF.
    destruct (Data_step_inv BaseT FirstField Fields Ms D0 a0 a k HT E
                ltac:(lia) HTy HO) as (L1 & T1 & O1).
    destruct (IH (S a) a0 D HT ltac:(lia) HF T1 O1) as (L2 & T2 & O2).
    split; [congruence|]. split; assumption.
Qed.

Lemma Data_inv disallow BaseT FirstField Fields Ms D :
  0 < bits BaseT ->
  MaskArr BaseT FirstField Fields = Ok Ms ->
  Data disallow BaseT FirstField Fields = Ok D ->
  length D = Z.to_nat (storage_size BaseT FirstField Fields) /\
  typed BaseT D /\
  owned BaseT FirstField Fields Ms (NFields FirstField Fields) D.
Proof.
  intros HT HM HD. unfold Data in HD. inv_bind HD.
  injection HM as ->.
  destruct (fold_Data_inv BaseT FirstField Fields Ms
              (NFields FirstField Fields) (NFields FirstField Fields) 0 _ D
              HT ltac:(lia) HD) as (L & T & O).
  - apply Forall_forall. intros x Hx. apply elem_of_replicate in Hx as [-> _].
    apply wrap_zero. exact HT.
  - intros j u b Hu Hb Hset. apply lookup_replicate in Hu as [-> _].
    rewrite Z.bits_0 in Hset. discriminate.
  - rewrite length_replicate in L. auto.
Qed.

Lemma Data_masks disallow BaseT FirstField Fields D :
  Data disallow BaseT FirstField Fields = Ok D ->
  exists Ms, MaskArr BaseT FirstField Fields = Ok Ms.
Proof.
  intros HD. unfold Data in HD. inv_bind HD. eauto.
Qed.

Lemma reachable_inv disallow BaseT FirstField Fields Ms D :
  0 < bits BaseT ->
  fits (bits BaseT) 0 (WidthArr FirstField Fields) ->
  MaskArr BaseT FirstField Fields = Ok Ms ->
  reachable disallow BaseT FirstField Fields D ->
  length D = Z.to_nat (storage_size BaseT FirstField Fields) /\
  typed BaseT D /\
  owned BaseT FirstField Fields Ms (NFields FirstField Fields) D.
Proof.
  intros HT HF HM HR. induction HR as [D HD|D D' I p m HR IH HG HMod].
  - apply (Data_inv disallow); assumption.
  - destruct IH as (L & T & O).
    destruct (get_at_inv disallow BaseT FirstField Fields HT HF false I p HG)
      as (f & Ms' & Hf & HMs' & -> & PW & Mpos & Pl).
    rewrite HM in HMs'. inversion HMs'; subst Ms'; clear HMs'.
    destruct (modify_inv BaseT m _ D D' HMod) as (u & u' & Hu & HA & ->).
    cbn [p_const p_Shift p_Mask p_unit] in *.
    destruct (apply_frame BaseT _ _ _ HT Pl _ m u u' HA) as (_ & Wu' & Fr).
    split; [rewrite length_insert; exact L|]. split.
    + apply typed_insert; assumption.
    + intros j x b Hx Hb Hset.
      destruct (Nat.eq_dec
                  (Z.to_nat (FieldBeginArr BaseT FirstField Fields !!! I
                             / bits BaseT)) j) as [e|ne].
      * rewrite e in *.
        rewrite list_lookup_insert_eq in Hx by (eapply lookup_lt_Some; eauto).
        inversion Hx; subst x; clear Hx.
        destruct (Z.testbit (Ms !!! I) b) eqn:Em.
        -- exists I. split; [|split; assumption].
           apply lookup_lt_Some in Hf. exact Hf.
        -- rewrite (mask_bits BaseT _ _ _ HT Pl) in Em by exact Hb.
           rewrite (Fr b Hb Em) in Hset. eapply O; eauto.
      * rewrite list_lookup_insert_ne in Hx by exact ne. eapply O; eauto.
Qed.

(** X18.  A bit of the storage that no field's mask selects (alignment
    gaps) is zero after construction and after any sequence of updates
    made through accessors. *)
Theorem unowned_bits_stay_zero (disallow : bool) (BaseT : IntType)
    (FirstField : Field) (Fields : list Field)
    (Ms : list Z) (D : list Z) (k u : Z) :
  0 < bits BaseT ->
  fits (bits BaseT) 0 (WidthArr FirstField Fields) ->
  MaskArr BaseT FirstField Fields = Ok Ms ->
  reachable disallow BaseT FirstField Fields D ->
  0 <= k -> D !! Z.to_nat (k / bits BaseT) = Some u ->
  (forall I, (I < NFields FirstField Fields)%nat ->
     selects BaseT FirstField Fields Ms I k = false) ->
  Z.testbit u (k mod bits BaseT) = false.
Proof.
  intros HT HF HM HR Hk Hu Hsel.
  destruct (reachable_inv disallow BaseT FirstField Fields Ms D HT HF HM HR)
    as (_ & _ & O).
  destruct (Z.testbit u (k mod bits BaseT)) eqn:Eb; [|reflexivity].
  destruct (O _ u (k mod bits BaseT) Hu (Z.mod_pos_bound k _ HT) Eb)
    as (I & HI & Hj & Hm).
  specialize (Hsel I HI). unfold selects, FieldTypeBits in Hsel.
  rewrite Hm, andb_true_r in Hsel. apply Z.eqb_neq in Hsel.
  exfalso. apply Hsel.
  assert (is_Some (all_fields FirstField Fields !! I)) as [f Hf]
    by (apply lookup_lt_is_Some; exact HI).
  pose proof (FieldBeginArr_nonneg BaseT FirstField Fields HT HF I f Hf).
  assert (0 <= k / bits BaseT) by (apply Z.div_pos; lia).
  lia.
Qed.

Lemma unowned_bits_stay_zero_witness :
  Z.testbit 2 (5 mod bits uint8_t) = false.
Proof.
  apply (unowned_bits_stay_zero false uint8_t (mkField 0 3 0 false)
           [mkField 1 1 0 false; mkField 2 5 0 false] [7; 8; 31] [2; 10] 5 2);
    [ simpl; lia | solve_fits | reflexivity | | lia | reflexivity | ].
  - apply (reach_modify _ _ _ _ [2; 0] [2; 10] 2 (mkProxy false 0 31 1)
             (FieldProxy.Assign 10)); [|reflexivity|reflexivity].
    apply (reach_modify _ _ _ _ [0; 0] [2; 0] 0 (mkProxy false 0 7 0)
             (FieldProxy.Assign 2)); [|reflexivity|reflexivity].
    apply reach_construct. reflexivity.
  - intros I HI. cbn in HI.
    destruct I as [|[|[|I]]]; [reflexivity..|lia].
Defined.

(** X19.  Over an integer base type other than [bool], in a layout
    whose cursor does not overflow [std::size_t] ([fits]), a fixed field
    reads the same after any sequence of updates made through accessors
    as it does right after construction; on a base type no wider than
    [int] that is unsigned or has the width of [int], that is its
    default value, reduced to the bits of the field. *)
Theorem fixed_field_constant (disallow : bool) (BaseT : IntType)
    (FirstField : Field) (Fields : list Field)
    (D0 D : list Z) (self_const : bool) (J : nat) (q : proxy) (f : Field) :
  0 < bits BaseT ->
  fits (bits BaseT) 0 (WidthArr FirstField Fields) ->
  Data disallow BaseT FirstField Fields = Ok D0 ->
  reachable disallow BaseT FirstField Fields D ->
  get_at disallow BaseT FirstField Fields self_const J = Ok q ->
  all_fields FirstField Fields !! J = Some f -> Fixed f = true ->
  load BaseT q D = load BaseT q D0 /\
  (sound_base BaseT ->
   load BaseT q D =
     Ok (wrap (field_type BaseT (Z.min (Width f) (bits BaseT)))
           (DefaultValue f))).
Proof.
  intros HT HF HD0 HR HG Hf HFx.
  destruct (get_at_inv disallow BaseT FirstField Fields HT HF self_const J q HG)
    as (f' & Ms & Hf' & HMs & Hq & PW & Mpos & Pl).
  rewrite Hf in Hf'. inversion Hf'; subst f'; clear Hf'.
  assert (Eq : load BaseT q D = load BaseT q D0).
  { induction HR as [D HD|D D' I p m HR IH HGp HMod].
    - congruence.
    - rewrite <- IH. clear IH.
      assert (Hne : I <> J).
      { intros ->. unfold get_at in HGp. inv_bind HGp. rewrite Hf in HGp.
        inv_bind HGp. inversion HGp; subst p. unfold modify in HMod.
        cbn [p_const] in HMod. rewrite HFx in HMod. discriminate. }
      destruct (modify_frame disallow BaseT FirstField Fields HT HF Ms I J f
                  p m D D' HMs HGp Hf Hne PW HMod) as [L Fr].
      subst q. unfold load. cbn [p_unit p_Shift p_Mask].
      destruct (D !! _) as [u|] eqn:Eu.
      + destruct (Fr u eq_refl) as (u' & Eu' & Pat). rewrite Eu'.
        apply read_pattern. exact Pat.
      + apply lookup_ge_None in Eu. rewrite <- L in Eu.
        apply lookup_ge_None in Eu. rewrite Eu. reflexivity. }
  split; [exact Eq|]. intros HS. rewrite Eq.
  destruct (Data_burned disallow BaseT FirstField Fields Ms D0 HT HF HMs HD0)
    as [L B].
  destruct (B J f ltac:(eapply lookup_lt_Some; eauto) Hf PW) as (u & Hu & Hb).
  subst q. unfold load. cbn [p_unit p_Shift p_Mask]. rewrite Hu.
  apply (read_stored BaseT _ _ _ u (DefaultValue f) HS Pl Mpos).
  intros k Hk Hm. apply Hb; [exact Hk|].
  rewrite (mask_bits BaseT _ _ _ HT Pl) by exact Hk. exact Hm.
Qed.

Lemma fixed_field_constant_witness :
  let A := mkField 0 3 0 false in
  let B := ConstField 1 2 3 in
  let q := mkProxy true 3 24 0 in
  load uint8_t q [29] = load uint8_t q [24] /\
  (sound_base uint8_t ->
   load uint8_t q [29] =
     Ok (wrap (field_type uint8_t (Z.min (Width B) (bits uint8_t)))
           (DefaultValue B))).
Proof.
  apply (fixed_field_constant false uint8_t (mkField 0 3 0 false)
           [ConstField 1 2 3] [24] [29] false 1 (mkProxy true 3 24 0)
           (ConstField 1 2 3));
    [ simpl; lia | solve_fits | reflexivity | | reflexivity | reflexivity
    | reflexivity ].
  apply (reach_modify _ _ _ _ [24] [29] 0 (mkProxy false 0 7 0)
           (FieldProxy.Assign 5)); [|reflexivity|reflexivity].
  apply reach_construct. reflexivity.
Defined.

Lemma map_result_fail_inv {A B : Type} (f : A -> result B) (l : list A) e :
  map_result f l = Fail e -> exists a, a ∈ l /\ f a = Fail e.
Proof.
  induction l as [|a l IH]; intros H; [discriminate|].
  cbn [map_result] in H. destruct (f a) as [b|e'] eqn:Ea.
  - cbn [bind] in H. destruct (map_result f l) as [bs|e'] eqn:El;
      [discriminate|]. cbn [bind] in H. inversion H; subst e'.
    destruct (IH eq_refl) as (x & Hx & Fx). exists x. split; [right|]; assumption.
  - cbn [bind] in H. inversion H; subst e'. exists a. split; [left|exact Ea].
Qed.

Lemma MaskArr_fail BaseT FirstField Fields e :
  MaskArr BaseT FirstField Fields = Fail e -> e = UB.
Proof.
  intros H. apply map_result_fail_inv in H as (I & _ & H).
  unfold Mask1 in H. eapply Mask_loop_fail; eauto.
Qed.

Lemma fold_result_app {A B : Type} (f : A -> B -> result A) l1 l2 a :
  fold_result f (l1 ++ l2) a =
    let* a' := fold_result f l1 a in fold_result f l2 a'.
Proof.
  revert a. induction l1 as [|b l1 IH]; intros a; [reflexivity|].
  cbn [app fold_result]. destruct (f a b); cbn [bind]; [apply IH|reflexivity].
Qed.

Lemma Data_step_fail BaseT FirstField Fields Ms F I e :
  Data_step BaseT FirstField Fields Ms F I = Fail e -> e = UB.
Proof.
  unfold Data_step. cbv zeta. destruct (F !! _); [|congruence].
  unfold shl. destruct (_ && _); cbn [bind]; congruence.
Qed.

Lemma Data_step_length BaseT FirstField Fields Ms F F' I :
  Data_step BaseT FirstField Fields Ms F I = Ok F' -> length F' = length F.
Proof.
  unfold Data_step. cbv zeta. destruct (F !! _); [|discriminate].
  unfold shl. destruct (_ && _); cbn [bind]; [|discriminate].
  intros H. inversion H. apply length_insert.
Qed.

Lemma fold_Data_outcome BaseT FirstField Fields Ms l : forall F,
  match fold_result (Data_step BaseT FirstField Fields Ms) l F with
  | Ok F' => length F' = length F
  | Fail e => e = UB
  end.
Proof.
  induction l as [|I l IH]; intros F; [reflexivity|].
  cbn [fold_result].
  destruct (Data_step BaseT FirstField Fields Ms F I) as [F1|e] eqn:E1.
  - cbn [bind]. specialize (IH F1).
    destruct (fold_result _ l F1); [|exact IH].
    rewrite IH. eapply Data_step_length; eauto.
  - cbn [bind]. eapply Data_step_fail; eauto.
Qed.

(** X20.  When the last descriptor has width 0 and starts on a unit
    boundary, the initialiser of [Data] indexes the unit one past the end
    of the array: construction is undefined. *)
Theorem trailing_zero_width_undefined (disallow : bool) (BaseT : IntType)
    (FirstField : Field) (Fields : list Field) (f : Field) :
  0 < bits BaseT ->
  fits (bits BaseT) 0 (WidthArr FirstField Fields) ->
  is_Ok (oversized_check disallow BaseT FirstField Fields) = true ->
  last (all_fields FirstField Fields) = Some f -> Width f = 0 ->
  FieldBeginArr BaseT FirstField Fields !!! length Fields mod bits BaseT = 0 ->
  Data disallow BaseT FirstField Fields = Fail UB.
Proof.
  intros HT HF HO HL HW HA. unfold Data.
  destruct (oversized_check disallow BaseT FirstField Fields); [|discriminate].
  cbn [bind].
  destruct (MaskArr BaseT FirstField Fields) as [Ms|e] eqn:EM;
    [|cbn [bind]; f_equal; eapply MaskArr_fail; eauto].
  cbn [bind]. unfold NFields, all_fields. cbn [length].
  rewrite seq_S, fold_result_app. cbn [Nat.add].
  pose proof (fold_Data_outcome BaseT FirstField Fields Ms
                (seq 0 (length Fields))
                (replicate (Z.to_nat (storage_size BaseT FirstField Fields)) 0))
    as Out.
  destruct (fold_result _ (seq 0 (length Fields)) _) as [F|e];
    [|cbn [bind]; f_equal; exact Out].
  cbn [bind fold_result]. rewrite length_replicate in Out.
  rewrite last_lookup in HL. unfold all_fields in HL. cbn [length pred] in HL.
  destruct (FieldBeginArr_lookup BaseT FirstField Fields _ f HL) as [_ EB].
  destruct (cursor_fits (bits BaseT) HT _ _ (Width f) HF
              (WidthArr_lookup _ _ _ _ HL)) as (C0 & _ & C2).
  pose proof (cursor_S (bits BaseT) _ _ _ (WidthArr_lookup _ _ _ _ HL)) as CS.
  rewrite HW in *.
  rewrite (place_zero (bits BaseT) HT) in EB, CS by lia. cbn [fst snd] in *.
  rewrite EB in HA. rewrite (up_aligned (bits BaseT) HT _ HA) in CS.
  pose proof (dataSize_ceil (bits BaseT) HT _ HF) as DC. cbv zeta in DC.
  assert (LW : length (WidthArr FirstField Fields) = S (length Fields)).
  { unfold WidthArr, all_fields. rewrite length_map. reflexivity. }
  rewrite LW, CS in DC.
  set (c := cursor (bits BaseT) (WidthArr FirstField Fields) (length Fields))
    in *.
  assert (Q : c = c / bits BaseT * bits BaseT).
  { pose proof (Z.div_mod c (bits BaseT) ltac:(lia)). lia. }
  assert (DS : storage_size BaseT FirstField Fields = c / bits BaseT).
  { unfold storage_size, FieldTypeBits. nia. }
  unfold Data_step. cbv zeta. unfold FieldTypeBits. rewrite EB.
  rewrite (proj2 (lookup_ge_None F (Z.to_nat (c / bits BaseT))));
    [reflexivity|]. rewrite Out, DS. lia.
Qed.

Lemma trailing_zero_width_undefined_witness :
  Data false uint8_t (mkField 0 8 0 false) [Padding 255 0] = Fail UB.
Proof.
  apply (trailing_zero_width_undefined false uint8_t (mkField 0 8 0 false)
           [Padding 255 0] (Padding 255 0));
    [ simpl; lia | solve_fits | reflexivity | reflexivity | reflexivity
    | reflexivity ].
Defined.

(** ** Looking fields up by tag *)

Lemma index_loop_spec Query Tags : forall I0,
  let r := index_loop Query Tags I0 in
  (I0 <= r <= I0 + length Tags)%nat /\
  ((r < I0 + length Tags)%nat -> Tags !! (r - I0)%nat = Some Query) /\
  (forall j, (I0 <= j < r)%nat -> Tags !! (j - I0)%nat <> Some Query).
Proof.
  induction Tags as [|T Tags IH]; intros I0; cbn [index_loop length].
  - split; [lia|]. split; [lia|]. intros j Hj. lia.
  - destruct (Z.eqb_spec Query T) as [->|ne].
    + split; [lia|]. split.
      * intros _. rewrite Nat.sub_diag. reflexivity.
      * intros j Hj. lia.
    + destruct (IH (S I0)) as (B & F & N). split; [lia|]. split.
      * intros Hr. specialize (F ltac:(lia)).
        replace (index_loop Query Tags (S I0) - I0)%nat
          with (S (index_loop Query Tags (S I0) - S I0)) by lia.
        exact F.
      * intros j Hj. destruct (Nat.eq_dec j I0) as [->|nj].
        -- rewrite Nat.sub_diag. cbn. congruence.
        -- replace (j - I0)%nat with (S (j - S I0)) by lia.
           apply N. lia.
Qed.

(** X21.  [index<Query>()] returns [I] exactly when field [I] carries
    the tag [Query] and no field before it does. *)
Theorem index_first_match (FirstField : Field) (Fields : list Field)
    (Query : Z) (I : nat) :
  index FirstField Fields Query = Ok I <->
  TagArr FirstField Fields !! I = Some Query /\
  (forall J, (J < I)%nat -> TagArr FirstField Fields !! J <> Some Query).
Proof.
  unfold index.
  destruct (index_loop_spec Query (TagArr FirstField Fields) 0%nat)
    as (B & F & N). cbv zeta in *.
  assert (LT : length (TagArr FirstField Fields) = NFields FirstField Fields).
  { unfold TagArr, NFields. apply length_map. }
  rewrite LT in *. rewrite Nat.sub_0_r in F.
  set (r := index_loop Query (TagArr FirstField Fields) 0) in *.
  split.
  - destruct (Nat.ltb_spec r (NFields FirstField Fields)); [|discriminate].
    intros HOk. inversion HOk; subst I. split; [apply F; lia|].
    intros J HJ. specialize (N J ltac:(lia)). rewrite Nat.sub_0_r in N.
    exact N.
  - intros [HI HJ].
    assert (r = I).
    { destruct (Nat.lt_trichotomy r I) as [l|[e|g]]; [|exact e|].
      - exfalso. apply (HJ r l). apply F.
        apply lookup_lt_Some in HI. lia.
      - exfalso. specialize (N I ltac:(lia)). rewrite Nat.sub_0_r in N.
        contradiction. }
    subst I. apply lookup_lt_Some in HI. rewrite LT in HI.
    destruct (Nat.ltb_spec r (NFields FirstField Fields)); [reflexivity|lia].
Qed.

(** X22.  [index<Query>()], and with it [get<Query>()], is rejected with
    the field-not-found message exactly when no descriptor carries the
    tag [Query]. *)
Theorem missing_tag_rejected (disallow : bool) (BaseT : IntType)
    (FirstField : Field) (Fields : list Field)
    (self_const : bool) (Query : Z) :
  (forall f, f ∈ all_fields FirstField Fields -> Tag f <> Query) <->
  index FirstField Fields Query = Fail (Rejected FieldNotFound) /\
  get disallow BaseT FirstField Fields self_const Query
    = Fail (Rejected FieldNotFound).
Proof.
  unfold get, index.
  destruct (index_loop_spec Query (TagArr FirstField Fields) 0%nat)
    as (B & F & N). cbv zeta in *.
  assert (LT : length (TagArr FirstField Fields) = NFields FirstField Fields).
  { unfold TagArr, NFields. apply length_map. }
  rewrite LT in *. rewrite Nat.sub_0_r in F.
  set (r := index_loop Query (TagArr FirstField Fields) 0) in *.
  split.
  - intros HN.
    destruct (Nat.ltb_spec r (NFields FirstField Fields)) as [l|g];
      [|split; reflexivity].
    exfalso. specialize (F ltac:(lia)). unfold TagArr in F.
    rewrite lookup_map in F.
    destruct (all_fields FirstField Fields !! r) as [f|] eqn:Hf;
      [|discriminate].
    cbn in F. inversion F. apply (HN f); [|assumption].
    eapply list_elem_of_lookup_2; eauto.
  - intros [HFl _] f Hf HT.
    destruct (Nat.ltb_spec r (NFields FirstField Fields)) as [l|g];
      [discriminate|].
    apply list_elem_of_lookup_1 in Hf as [J HJ].
    assert (HJ' : TagArr FirstField Fields !! J = Some Query).
    { unfold TagArr. rewrite lookup_map, HJ. cbn. congruence. }
    pose proof (lookup_lt_Some _ _ _ HJ') as LJ. rewrite LT in LJ.
    specialize (N J ltac:(lia)). rewrite Nat.sub_0_r in N. contradiction.
Qed.

(** X23.  [get] by the tag of a field returns the accessor of the first
    field that carries this tag: the field itself when tags are pairwise
    distinct, and never a later field that repeats a tag (such as a
    second padding). *)
Theorem get_first_of_tag (disallow : bool) (BaseT : IntType)
    (FirstField : Field) (Fields : list Field)
    (self_const : bool) (I : nat) (f : Field) :
  all_fields FirstField Fields !! I = Some f ->
  exists I',
    (I' <= I)%nat /\
    TagArr FirstField Fields !! I' = Some (Tag f) /\
    get disallow BaseT FirstField Fields self_const (Tag f)
      = get_at disallow BaseT FirstField Fields self_const I' /\
    (NoDup (TagArr FirstField Fields) -> I' = I).
Proof.
  intros Hf. unfold get, index.
  destruct (index_loop_spec (Tag f) (TagArr FirstField Fields) 0%nat)
    as (B & F & N). cbv zeta in *.
  assert (LT : length (TagArr FirstField Fields) = NFields FirstField Fields).
  { unfold TagArr, NFields. apply length_map. }
  rewrite LT in *. rewrite Nat.sub_0_r in F.
  set (r := index_loop (Tag f) (TagArr FirstField Fields) 0) in *.
  assert (HI : TagArr FirstField Fields !! I = Some (Tag f)).
  { unfold TagArr. rewrite lookup_map, Hf. reflexivity. }
  pose proof (lookup_lt_Some _ _ _ HI) as LI. rewrite LT in LI.
  assert (Hr : (r <= I)%nat).
  { destruct (Nat.le_gt_cases r I) as [l|g]; [exact l|].
    specialize (N I ltac:(lia)). rewrite Nat.sub_0_r in N. contradiction. }
  exists r. split; [exact Hr|]. split; [apply F; lia|]. split.
  - destruct (Nat.ltb_spec r (NFields FirstField Fields)); [reflexivity|lia].
  - intros ND. eapply NoDup_lookup; [exact ND| |exact HI]. apply F. lia.
Qed.

Lemma get_first_of_tag_witness :
  let A := mkField 0 3 0 false in
  let P := Padding 255 2 in
  let Q := Padding 255 3 in
  exists I',
    (I' <= 2)%nat /\
    TagArr A [P; Q] !! I' = Some (Tag Q) /\
    get false uint8_t A [P; Q] false (Tag Q)
      = get_at false uint8_t A [P; Q] false I' /\
    (NoDup (TagArr A [P; Q]) -> I' = 2%nat).
Proof.
  apply (get_first_of_tag false uint8_t (mkField 0 3 0 false)
           [Padding 255 2; Padding 255 3] false 2 (Padding 255 3)).
  reflexivity.
Defined.

(** X25.  [CharArray::asStringView()] is the text before the first null
    character of the array, whatever follows it; it is undefined when
    the array holds no null character, and the view is always shorter
    than the array; [operator==] compares this text, so two arrays
    that agree up to their first null character name the same tag. *)
Theorem asStringView_spec (Chars : list Z) :
  (forall s, CharArray.asStringView Chars = Ok s <->
     exists t, Chars = s ++ 0 :: t /\ 0 ∉ s) /\
  (CharArray.asStringView Chars = Fail UB <-> 0 ∉ Chars) /\
  (forall s, CharArray.asStringView Chars = Ok s ->
     (length s < CharArray.size Chars)%nat) /\
  (forall Rhs, CharArray.eqb Chars Rhs = Ok true <->
     exists t, Chars = Rhs ++ 0 :: t /\ 0 ∉ Rhs).
Proof.
  assert (A : forall Chars s, CharArray.asStringView Chars = Ok s <->
     exists t, Chars = s ++ 0 :: t /\ 0 ∉ s).
  { clear Chars. intros Chars. induction Chars as [|c Chars IH]; intros s.
    - split; [discriminate|]. intros (t & E & _).
      destruct s; discriminate.
    - cbn [CharArray.asStringView]. destruct (Z.eqb_spec c 0) as [->|ne].
      + split.
        * intros H. inversion H; subst s. exists Chars. split; [reflexivity|].
          apply not_elem_of_nil.
        * intros (t & E & N). destruct s as [|x s]; [reflexivity|].
          inversion E; subst x. exfalso. apply N. left.
      + split.
        * intros H. destruct (CharArray.asStringView Chars) as [s'|] eqn:E';
            [|discriminate]. cbn [bind] in H. inversion H; subst s.
          destruct (proj1 (IH s') eq_refl) as (t & -> & N).
          exists t. split; [reflexivity|].
          apply not_elem_of_cons. split; [congruence|exact N].
        * intros (t & E & N). destruct s as [|x s]; [inversion E; congruence|].
          inversion E; subst x Chars.
          apply not_elem_of_cons in N as [_ N].
          rewrite (proj2 (IH s)) by eauto. reflexivity. }
  split; [apply A|]. split; [|split].
  - induction Chars as [|c Chars IH].
    + split; [intros _; apply not_elem_of_nil|reflexivity].
    + cbn [CharArray.asStringView]. destruct (Z.eqb_spec c 0) as [->|ne].
      * split; [discriminate|]. intros N. exfalso. apply N. left.
      * destruct (CharArray.asStringView Chars) as [s'|e] eqn:E'; cbn [bind].
        -- split; [discriminate|]. intros N.
           apply not_elem_of_cons in N as [_ N].
           apply (proj2 IH) in N. discriminate.
        -- split.
           ++ intros H. inversion H; subst e.
              apply not_elem_of_cons. split; [congruence|].
              apply IH. reflexivity.
           ++ intros N. apply not_elem_of_cons in N as [_ N].
              apply (proj2 IH) in N. congruence.
  - intros s H. apply A in H as (t & -> & _). unfold CharArray.size.
    rewrite length_app. cbn [length]. lia.
  - intros Rhs. rewrite <- A. unfold CharArray.eqb.
    destruct (CharArray.asStringView Chars) as [s|e]; cbn [bind].
    + split.
      * intros H. inversion H as [E]. apply bool_decide_eq_true in E.
        congruence.
      * intros H. inversion H; subst. rewrite bool_decide_eq_true_2; reflexivity.
    + split; discriminate.
Qed.
